(** * The PulseAudio driver of libcanberra (src/pulse.c)

    A shallow embedding of the asynchronous playback driver: the registry of
    outstanding requests, the error translator, the property-list bridge and
    the play / cache / cancel / destroy operations, together with theorems
    about them.

    Modelling conventions

    - C [int] values (result codes, PulseAudio error numbers) are [Z];
      [uint32_t] indices are [Z] as well, with [PA_INVALID_INDEX = 2^32 - 1].
    - A nullable pointer is an [option]; [None] is [NULL].
    - A [struct outstanding] lives in a heap ([gmap addr outstanding]); the
      intrusive list headed by [p->outstanding] is the list of the addresses
      of its nodes, head first.
    - Everything the driver does to the outside world (a call into the
      PulseAudio client library, the sound-file resolver, a user callback) is
      appended to a trace of [event]s.  What the outside world answers is
      read from an oracle record [pulse], whose fields see the trace so far.
    - Memory allocation ([ca_new0], [ca_strdup], [pa_proplist_new],
      [ca_malloc]) is assumed to succeed, and the server is assumed to answer
      every request: the blocking waits of the driver are modelled by the
      answer that ends them. *)

From stdpp Require Import gmap strings list fin_maps.
From Stdlib Require Import ZArith Lia.

Local Open Scope Z_scope.

(** ** Result codes (canberra.h) and PulseAudio error numbers (pulse/def.h) *)

Module Codes.

(** Modelled from the spec: the result codes and the server's error numbers
    are declared in headers that are not part of the sources at hand
    (canberra.h, pulse/def.h).  The spec names the taxonomy (Invalid, OOM,
    Access, NotFound, NotAvailable, IO, Destroyed, Canceled, State,
    NoDriver, NotSupported, TooBig); the numbers are those of the public
    headers.  The driver itself relies on [CA_SUCCESS] being zero and on
    every error being negative (it tests [ret < 0] and
    [if (ret2 && ...)]), and on the server's codes from [PA_OK] to
    [PA_ERR_TOOLARGE] being array indices below [PA_ERR_MAX]. *)
Definition CA_SUCCESS : Z := 0.
Definition CA_ERROR_NOTSUPPORTED : Z := -1.
Definition CA_ERROR_INVALID : Z := -2.
Definition CA_ERROR_STATE : Z := -3.
Definition CA_ERROR_OOM : Z := -4.
Definition CA_ERROR_NODRIVER : Z := -5.
Definition CA_ERROR_SYSTEM : Z := -6.
Definition CA_ERROR_CORRUPT : Z := -7.
Definition CA_ERROR_TOOBIG : Z := -8.
Definition CA_ERROR_NOTFOUND : Z := -9.
Definition CA_ERROR_DESTROYED : Z := -10.
Definition CA_ERROR_CANCELED : Z := -11.
Definition CA_ERROR_NOTAVAILABLE : Z := -12.
Definition CA_ERROR_ACCESS : Z := -13.
Definition CA_ERROR_IO : Z := -14.

Definition PA_OK : Z := 0.
Definition PA_ERR_ACCESS : Z := 1.
Definition PA_ERR_COMMAND : Z := 2.
Definition PA_ERR_INVALID : Z := 3.
Definition PA_ERR_EXIST : Z := 4.
Definition PA_ERR_NOENTITY : Z := 5.
Definition PA_ERR_CONNECTIONREFUSED : Z := 6.
Definition PA_ERR_PROTOCOL : Z := 7.
Definition PA_ERR_TIMEOUT : Z := 8.
Definition PA_ERR_AUTHKEY : Z := 9.
Definition PA_ERR_INTERNAL : Z := 10.
Definition PA_ERR_CONNECTIONTERMINATED : Z := 11.
Definition PA_ERR_KILLED : Z := 12.
Definition PA_ERR_INVALIDSERVER : Z := 13.
Definition PA_ERR_MODINITFAILED : Z := 14.
Definition PA_ERR_BADSTATE : Z := 15.
Definition PA_ERR_NODATA : Z := 16.
Definition PA_ERR_VERSION : Z := 17.
Definition PA_ERR_TOOLARGE : Z := 18.

Definition PA_INVALID_INDEX : Z := 4294967295.

End Codes.
Export Codes.

(** ** C strings *)

(** [strncmp(s1, s2, n)]: compare at most [n] characters, stopping at the
    terminating NUL of either string.  The end of a Rocq string stands for
    the terminating NUL. *)
Fixpoint strncmp (s1 s2 : string) (n : nat) : Z :=
  match n with
  | O => 0
  | S n' =>
      match s1, s2 with
      | EmptyString, EmptyString => 0
      | EmptyString, String c2 _ => 0 - Z.of_nat (Ascii.nat_of_ascii c2)
      | String c1 _, EmptyString => Z.of_nat (Ascii.nat_of_ascii c1)
      | String c1 r1, String c2 r2 =>
          if Ascii.eqb c1 c2 then strncmp r1 r2 n'
          else Z.of_nat (Ascii.nat_of_ascii c1) - Z.of_nat (Ascii.nat_of_ascii c2)
      end
  end.

(** A C string holds no NUL character before its end. *)
Fixpoint c_string (s : string) : Prop :=
  match s with
  | EmptyString => True
  | String c r => Ascii.nat_of_ascii c ≠ 0%nat ∧ c_string r
  end.

(** ** Property lists *)

(** [ca_proplist]: the ordered items of the generic container, key and
    value.  Only string-valued properties are modelled. *)
Definition ca_proplist := list (string * string).

(** [pa_proplist]: the server-side property list, a hash map. *)
Abbreviation pa_proplist := (gmap string string).

Definition CA_PROP_EVENT_ID : string := "event.id".
Definition CA_PROP_CANBERRA_VOLUME : string := "canberra.volume".
Definition CA_PROP_CANBERRA_CACHE_CONTROL : string := "canberra.cache-control".

Definition pa_proplist_gets (l : pa_proplist) (key : string) : option string :=
  l !! key.

(** pulse.c:121-131.  [pa_proplist_iterate] visits every key once (it keeps
    the successor of the current entry in [state], so unsetting the current
    key is safe); each visited key is compared with [strncmp (key,
    "canberra.", 12)] and unset on equality. *)
Definition strip_step (key : string) (l : pa_proplist) : pa_proplist :=
  if decide (strncmp key "canberra." 12 = 0) then delete key l else l.

Definition strip_canberra_data (l : pa_proplist) : pa_proplist :=
  foldr strip_step l (map fst (map_to_list l)).

(** The reserved internal namespace: keys that begin with ["canberra."]. *)
Definition internal_key (key : string) : bool :=
  String.prefix "canberra." key.


(** ** The data model (pulse.c:49-77) *)

Definition addr := positive.
Definition fnptr := positive.
Definition handle := positive.

Inductive outstanding_type :=
  | OUTSTANDING_SAMPLE
  | OUTSTANDING_STREAM
  | OUTSTANDING_UPLOAD.

Global Instance outstanding_type_eq_dec : EqDecision outstanding_type.
Proof. solve_decision. Defined.

(** What the driver reads from an open [ca_sound_file]. *)
Record sound_file := {
  sf_sample_type : Z;
  sf_nchannels : Z;
  sf_rate : Z;
  sf_size : Z
}.

(** [struct outstanding].  The [context] back pointer is left out: the model
    has one context.  The list links are the position of the node's address
    in [outstanding] of [private]. *)
Record outstanding := {
  o_type : outstanding_type;
  o_id : Z;
  o_sink_input : Z;
  o_stream : option handle;
  o_callback : option fnptr;
  o_userdata : option Z;
  o_file : option sound_file;
  o_error : Z;
  o_clean_up : bool
}.

(** [struct private]; [outstanding_list] is the list headed by
    [p->outstanding]. *)
Record private := {
  mainloop : option handle;
  context : option handle;
  theme : option handle;
  subscribed : bool;
  outstanding_mutex : option handle;
  outstanding_list : list addr
}.

(** [pa_sample_spec] as the driver fills it in: [ss.channels] is assigned
    twice (the second assignment wins) and [ss.format] is never assigned.
    [ss.channels] is a [uint8_t] and [ss.rate] a [uint32_t]. *)
Record pa_sample_spec := {
  ss_format : option Z;
  ss_channels : Z;
  ss_rate : Z
}.

(** ** The outside world *)

(** Calls that leave the driver, in the order they happen (newest first in
    a trace).  [EvCallback] records a call of the user's completion
    callback for the request at [self], together with the registry as it is
    linked at that moment. *)
Inductive event :=
  | EvCallback (cb : fnptr) (id : Z) (err : Z) (userdata : option Z)
               (self : addr) (linked : list addr)
  | EvFileClose (f : sound_file)
  | EvStreamDisconnect (s : handle)
  | EvSubscribe
  | EvPlaySample (name : string) (device : option string) (volume : Z)
                 (l : pa_proplist)
  | EvLookupSound (proplist : ca_proplist)
  | EvStreamNew (name : string) (ss : pa_sample_spec) (l : pa_proplist)
  | EvConnectPlayback (s : handle)
  | EvConnectUpload (s : handle) (size : Z)
  | EvKillSinkInput (idx : Z)
  | EvMainloopStop
  | EvContextDisconnect
  | EvProplistUpdate (l : pa_proplist)
  | EvStreamWrite (s : handle) (nbytes : Z)
  | EvFinishUpload (s : handle)
  | EvStreamDrain (s : handle)
  | EvSignal.

(** [pa_operation *o = f(...)]: [OpStarted] when an operation object comes
    back, [OpNull errno] when [NULL] comes back and [pa_context_errno] then
    reads [errno]. *)
Inductive op_result :=
  | OpStarted
  | OpNull (errno : Z).

(** The outcome of [pa_context_play_sample_with_proplist] followed by the
    wait for the operation: either no operation was started, or
    [play_sample_cb] was called with [idx] while [pa_context_errno] read
    [errno]. *)
Inductive play_sample_result :=
  | PlayNull (errno : Z)
  | PlayDone (idx : Z) (errno : Z).

(** [ca_lookup_sound]: a file, or a negative result code [Z.neg e]. *)
Inductive lookup_result :=
  | LookupOk (f : sound_file) (th : option handle)
  | LookupFail (e : positive).

Inductive stream_new_result :=
  | StreamNew (s : handle)
  | StreamNull (errno : Z).

(** What ends the wait on a stream's state.  When the stream is seen
    terminated, [stream_write_cb] may have stored an error in the request
    before ([written]). *)
Inductive stream_wait_result :=
  | StreamReady
  | StreamFailed (errno : Z)
  | StreamTerminated (written : option Z).

(** The wait of [driver_cache] ends on a terminated or a failed stream
    only. *)
Inductive upload_wait_result :=
  | UploadTerminated (written : option Z)
  | UploadFailed (errno : Z).

(** The PulseAudio client library and server, the sound-file resolver and
    the C runtime, as far as the driver sees them.  Fields that answer a
    call take the trace so far. *)
Record pulse := {
  (** [PA_ERR_MAX] of the installed pulse/def.h, the first invalid error
      code. *)
  PA_ERR_MAX : Z;
  (** whether [pa_proplist_set] accepts the key *)
  pa_proplist_key_valid : string → bool;
  (** [strtod] with the [errno] and end-pointer test, then
      [pa_sw_volume_from_dB]; [None] when the test rejects the string *)
  volume_from_string : string → option Z;
  (** the value read from an automatic [int] that was never assigned *)
  indeterminate : list event → Z;
  pa_context_subscribe : list event → op_result;
  pa_context_play_sample_with_proplist : list event → play_sample_result;
  ca_lookup_sound : list event → lookup_result;
  pa_stream_new_with_proplist : list event → stream_new_result;
  (** [pa_stream_connect_playback] / [pa_stream_connect_upload]: [Some errno]
      when the call returns a negative value *)
  pa_stream_connect : list event → option Z;
  pa_stream_wait : list event → stream_wait_result;
  pa_stream_wait_upload : list event → upload_wait_result;
  (** [pa_stream_get_index], with the context's errno *)
  pa_stream_get_index : list event → Z * Z;
  pa_context_kill_sink_input : list event → op_result;
  pa_context_proplist_update : list event → op_result
}.

(** ** State and the driver monad *)

Record state := {
  c_private : option private;
  c_device : option string;
  c_props : ca_proplist;
  heap : gmap addr outstanding;
  next_addr : addr;
  trace : list event
}.

Inductive crash :=
  | AssertionFailed
  | BadPointer
  | OutOfFuel.

Inductive outcome (A : Type) :=
  | Ret (a : A) (s : state)
  | Crash (why : crash) (s : state).
Arguments Ret {A} a s.
Arguments Crash {A} why s.

Definition M (A : Type) : Type := state → outcome A.

Definition ret {A} (a : A) : M A := λ s, Ret a s.

Definition bind {A B} (m : M A) (k : A → M B) : M B :=
  λ s, match m s with
       | Ret a s' => k a s'
       | Crash w s' => Crash w s'
       end.

Notation "'let*' x ':=' m 'in' k" := (bind m (λ x, k))
  (at level 10, x name, m at level 200, k at level 200).

Definition crash_with {A} (w : crash) : M A := λ s, Crash w s.

Definition emit (e : event) : M unit :=
  λ s, Ret tt {| c_private := c_private s; c_device := c_device s;
                 c_props := c_props s; heap := heap s;
                 next_addr := next_addr s; trace := e :: trace s |}.

Definition get_private : M (option private) := λ s, Ret (c_private s) s.

Definition set_private (p : option private) : M unit :=
  λ s, Ret tt {| c_private := p; c_device := c_device s;
                 c_props := c_props s; heap := heap s;
                 next_addr := next_addr s; trace := trace s |}.

Definition set_heap (h : gmap addr outstanding) : M unit :=
  λ s, Ret tt {| c_private := c_private s; c_device := c_device s;
                 c_props := c_props s; heap := h;
                 next_addr := next_addr s; trace := trace s |}.

(** [ca_new0 (struct outstanding, 1)]: a fresh zeroed node. *)
Definition zero_outstanding : outstanding :=
  {| o_type := OUTSTANDING_SAMPLE; o_id := 0; o_sink_input := 0;
     o_stream := None; o_callback := None; o_userdata := None;
     o_file := None; o_error := 0; o_clean_up := false |}.

Definition ca_new0_outstanding : M addr :=
  λ s, Ret (next_addr s)
           {| c_private := c_private s; c_device := c_device s;
              c_props := c_props s;
              heap := <[next_addr s := zero_outstanding]> (heap s);
              next_addr := Pos.succ (next_addr s); trace := trace s |}.

(** [*out]: reading through a pointer that is not live is a crash. *)
Definition load (a : addr) : M outstanding :=
  λ s, match heap s !! a with
       | Some o => Ret o s
       | None => Crash BadPointer s
       end.

Definition store (a : addr) (o : outstanding) : M unit :=
  let* _ := load a in
  λ s, set_heap (<[a := o]> (heap s)) s.

Definition ca_free (a : addr) : M unit :=
  λ s, set_heap (delete a (heap s)) s.

(** The registry, when the context is open. *)
Definition registry (s : state) : list addr :=
  match c_private s with
  | Some p => outstanding_list p
  | None => []
  end.

Definition set_outstanding_list (p : private) (l : list addr) : private :=
  {| mainloop := mainloop p; context := context p; theme := theme p;
     subscribed := subscribed p; outstanding_mutex := outstanding_mutex p;
     outstanding_list := l |}.

Definition set_subscribed (p : private) (b : bool) : private :=
  {| mainloop := mainloop p; context := context p; theme := theme p;
     subscribed := b; outstanding_mutex := outstanding_mutex p;
     outstanding_list := outstanding_list p |}.

Definition set_theme (p : private) (t : option handle) : private :=
  {| mainloop := mainloop p; context := context p; theme := t;
     subscribed := subscribed p; outstanding_mutex := outstanding_mutex p;
     outstanding_list := outstanding_list p |}.

(** [CA_LLIST_REMOVE (struct outstanding, p->outstanding, out)] *)
Definition llist_remove (a : addr) (l : list addr) : list addr :=
  filter (λ b, b ≠ a) l.

Definition registry_remove (a : addr) : M unit :=
  let* p := get_private in
  match p with
  | Some p => set_private (Some (set_outstanding_list p (llist_remove a (outstanding_list p))))
  | None => crash_with BadPointer
  end.

(** [CA_LLIST_PREPEND (struct outstanding, p->outstanding, out)] *)
Definition registry_prepend (a : addr) : M unit :=
  let* p := get_private in
  match p with
  | Some p => set_private (Some (set_outstanding_list p (a :: outstanding_list p)))
  | None => crash_with BadPointer
  end.

Definition ask {A} (f : list event → A) : M A := λ s, Ret (f (trace s)) s.

(** [ca_context *c]: [NULL], or the context of the model. *)
Inductive ca_context_ptr :=
  | NullContext
  | Context.

(** ** Cache control (sound-theme-spec.h) *)

Inductive ca_cache_control_t :=
  | CA_CACHE_CONTROL_NEVER
  | CA_CACHE_CONTROL_PERMANENT
  | CA_CACHE_CONTROL_VOLATILE.

Global Instance ca_cache_control_eq_dec : EqDecision ca_cache_control_t.
Proof. solve_decision. Defined.

(** Modelled from the spec: the declaration of [ca_cache_control_t] is in a
    header that is not part of the sources at hand.  The spec lists the
    values as never | permanent | volatile; a C enumeration numbers its
    enumerators from zero in the order they are written. *)
Definition cache_control_value (cc : ca_cache_control_t) : Z :=
  match cc with
  | CA_CACHE_CONTROL_NEVER => 0
  | CA_CACHE_CONTROL_PERMANENT => 1
  | CA_CACHE_CONTROL_VOLATILE => 2
  end.

(** Modelled from the spec: [ca_parse_cache_control] is defined outside
    pulse.c.  The spec: a cache-control value is one of never | permanent |
    volatile, encoded as a string property and parsed with strict syntax
    (an unparseable value is an Invalid error).  [None] is the negative
    result; on success the function returns [CA_SUCCESS]. *)
Definition ca_parse_cache_control (c : string) : option ca_cache_control_t :=
  if decide (c = "never") then Some CA_CACHE_CONTROL_NEVER
  else if decide (c = "permanent") then Some CA_CACHE_CONTROL_PERMANENT
  else if decide (c = "volatile") then Some CA_CACHE_CONTROL_VOLATILE
  else None.

(** [ptr == k] for a [const char *ptr] and an integer constant [k]: the
    constant zero is the null pointer; a live string is at no address that
    a small integer constant denotes. *)
Definition string_ptr_eq_int (ptr : option string) (k : Z) : bool :=
  match ptr with
  | None => bool_decide (k = 0)
  | Some _ => false
  end.

Definition PA_VOLUME_NORM : Z := 65536.

(** [PA_SUBSCRIPTION_EVENT_SINK_INPUT | PA_SUBSCRIPTION_EVENT_REMOVE] *)
Definition PA_SUBSCRIPTION_EVENT_SINK_INPUT : Z := 2.
Definition PA_SUBSCRIPTION_EVENT_REMOVE : Z := 32.

Inductive pa_context_state_t :=
  | PA_CONTEXT_UNCONNECTED
  | PA_CONTEXT_CONNECTING
  | PA_CONTEXT_AUTHORIZING
  | PA_CONTEXT_SETTING_NAME
  | PA_CONTEXT_READY
  | PA_CONTEXT_FAILED
  | PA_CONTEXT_TERMINATED.

Inductive pa_stream_state_t :=
  | PA_STREAM_UNCONNECTED
  | PA_STREAM_CREATING
  | PA_STREAM_READY
  | PA_STREAM_FAILED
  | PA_STREAM_TERMINATED.

(** ** The driver *)

Section Driver.

Variable pa : pulse.

(** *** Error translator (pulse.c:133-162) *)

(** The designated initialisers of [table]. *)
Definition table_initialisers : list (Z * Z) :=
  [ (PA_OK, CA_SUCCESS);
    (PA_ERR_ACCESS, CA_ERROR_ACCESS);
    (PA_ERR_COMMAND, CA_ERROR_IO);
    (PA_ERR_INVALID, CA_ERROR_INVALID);
    (PA_ERR_EXIST, CA_ERROR_IO);
    (PA_ERR_NOENTITY, CA_ERROR_NOTFOUND);
    (PA_ERR_CONNECTIONREFUSED, CA_ERROR_NOTAVAILABLE);
    (PA_ERR_PROTOCOL, CA_ERROR_IO);
    (PA_ERR_TIMEOUT, CA_ERROR_IO);
    (PA_ERR_AUTHKEY, CA_ERROR_ACCESS);
    (PA_ERR_INTERNAL, CA_ERROR_IO);
    (PA_ERR_CONNECTIONTERMINATED, CA_ERROR_IO);
    (PA_ERR_KILLED, CA_ERROR_DESTROYED);
    (PA_ERR_INVALIDSERVER, CA_ERROR_INVALID);
    (PA_ERR_MODINITFAILED, CA_ERROR_NODRIVER);
    (PA_ERR_BADSTATE, CA_ERROR_STATE);
    (PA_ERR_NODATA, CA_ERROR_IO);
    (PA_ERR_VERSION, CA_ERROR_NOTSUPPORTED);
    (PA_ERR_TOOLARGE, CA_ERROR_TOOBIG) ].

Fixpoint designated (inits : list (Z * Z)) (i : Z) : option Z :=
  match inits with
  | [] => None
  | (j, v) :: rest => if decide (j = i) then Some v else designated rest i
  end.

(** [table[i]] for [0 <= i < PA_ERR_MAX]: an element of a static array
    that has no initialiser is zero. *)
Definition table (i : Z) : Z :=
  match designated table_initialisers i with
  | Some v => v
  | None => 0
  end.

(** [None] is the failure of [ca_assert (error >= 0)]. *)
Definition translate_error (error : Z) : option Z :=
  if decide (error < 0) then None
  else if decide (PA_ERR_MAX pa ≤ error) then Some CA_ERROR_IO
  else Some (table error).

Definition translate (error : Z) : M Z :=
  match translate_error error with
  | Some r => ret r
  | None => crash_with AssertionFailed
  end.

(** *** Releasing a request (pulse.c:81-93) *)

Definition outstanding_free (o : addr) : M unit :=
  let* r := load o in
  let* _ := match o_file r with
            | Some f => emit (EvFileClose f)
            | None => ret tt
            end in
  let* _ := match o_stream r with
            | Some st => emit (EvStreamDisconnect st)
            | None => ret tt
            end in
  ca_free o.

(** *** Property-list bridge (pulse.c:95-119) *)

Fixpoint convert_items (items : ca_proplist) (l : pa_proplist)
  : option pa_proplist :=
  match items with
  | [] => Some l
  | (key, data) :: rest =>
      if pa_proplist_key_valid pa key
      then convert_items rest (<[key := data]> l)
      else None
  end.

(** [inr l] stands for [CA_SUCCESS] with [*_l = l]. *)
Definition convert_proplist (c : option ca_proplist) : Z + pa_proplist :=
  match c with
  | None => inl CA_ERROR_INVALID
  | Some items =>
      match convert_items items ∅ with
      | Some l => inr l
      | None => inl CA_ERROR_INVALID
      end
  end.

(** *** Invoking the completion callback

    [if (out->callback) out->callback (c, out->id, err, out->userdata)].
    The callback is user code; the model records the call and what the
    callback can see of the registry. *)
Definition call_callback (o : addr) (r : outstanding) (err : Z) : M unit :=
  match o_callback r with
  | Some cb =>
      λ s, emit (EvCallback cb (o_id r) err (o_userdata r) o (registry s)) s
  | None => ret tt
  end.

(** *** subscribe (pulse.c:410-438)

    [ret] is declared without an initialiser and assigned only when
    [pa_context_subscribe] returns [NULL]. *)
Definition subscribe (c : ca_context_ptr) : M Z :=
  match c with
  | NullContext => ret CA_ERROR_INVALID
  | Context =>
      let* p := get_private in
      match p with
      | None => ret CA_ERROR_STATE
      | Some p =>
          if decide (mainloop p = None) then ret CA_ERROR_STATE
          else if decide (context p = None) then ret CA_ERROR_STATE
          else if subscribed p then ret CA_SUCCESS
          else
            let* _ := emit EvSubscribe in
            let* o := ask (pa_context_subscribe pa) in
            let* r := match o with
                      | OpNull errno => translate errno
                      | OpStarted => ask (indeterminate pa)
                      end in
            let* _ := set_private (Some (set_subscribed p true)) in
            ret r
      end
  end.

(** *** Field updates of a request *)

Definition upd (a : addr) (f : outstanding → outstanding) : M unit :=
  let* r := load a in
  store a (f r).

Definition with_type (t : outstanding_type) (r : outstanding) : outstanding :=
  {| o_type := t; o_id := o_id r; o_sink_input := o_sink_input r;
     o_stream := o_stream r; o_callback := o_callback r;
     o_userdata := o_userdata r; o_file := o_file r; o_error := o_error r;
     o_clean_up := o_clean_up r |}.

Definition with_sink_input (i : Z) (r : outstanding) : outstanding :=
  {| o_type := o_type r; o_id := o_id r; o_sink_input := i;
     o_stream := o_stream r; o_callback := o_callback r;
     o_userdata := o_userdata r; o_file := o_file r; o_error := o_error r;
     o_clean_up := o_clean_up r |}.

Definition with_stream (st : option handle) (r : outstanding) : outstanding :=
  {| o_type := o_type r; o_id := o_id r; o_sink_input := o_sink_input r;
     o_stream := st; o_callback := o_callback r;
     o_userdata := o_userdata r; o_file := o_file r; o_error := o_error r;
     o_clean_up := o_clean_up r |}.

Definition with_file (f : option sound_file) (r : outstanding) : outstanding :=
  {| o_type := o_type r; o_id := o_id r; o_sink_input := o_sink_input r;
     o_stream := o_stream r; o_callback := o_callback r;
     o_userdata := o_userdata r; o_file := f; o_error := o_error r;
     o_clean_up := o_clean_up r |}.

Definition with_error (e : Z) (r : outstanding) : outstanding :=
  {| o_type := o_type r; o_id := o_id r; o_sink_input := o_sink_input r;
     o_stream := o_stream r; o_callback := o_callback r;
     o_userdata := o_userdata r; o_file := o_file r; o_error := e;
     o_clean_up := o_clean_up r |}.

Definition with_clean_up (b : bool) (r : outstanding) : outstanding :=
  {| o_type := o_type r; o_id := o_id r; o_sink_input := o_sink_input r;
     o_stream := o_stream r; o_callback := o_callback r;
     o_userdata := o_userdata r; o_file := o_file r; o_error := o_error r;
     o_clean_up := b |}.

(** [&p->theme], written by [ca_lookup_sound]. *)
Definition set_theme_cache (t : option handle) : M unit :=
  let* p := get_private in
  match p with
  | Some p => set_private (Some (set_theme p t))
  | None => crash_with BadPointer
  end.

(** The sample spec of pulse.c:712-714 and 900-902.  The [unsigned]
    results of [ca_sound_file_get_nchannels] and [ca_sound_file_get_rate]
    are converted to the types of the fields: the number of channels is
    reduced modulo 2^8, the rate modulo 2^32. *)
Definition sample_spec_of (f : sound_file) : pa_sample_spec :=
  {| ss_format := None;
     ss_channels := sf_nchannels f mod 2 ^ 8;
     ss_rate := sf_rate f mod 2 ^ 32 |}.

(** *** driver_cache (pulse.c:842-952) *)

(** Lines 870-940, from [convert_proplist] to the [finish] label; the value
    is [ret] at the label. *)
Definition cache_upload (o : addr) (items : ca_proplist) : M Z :=
  match convert_proplist (Some items) with
  | inl e => ret e
  | inr l =>
  match pa_proplist_gets l CA_PROP_EVENT_ID with
  | None => ret CA_ERROR_INVALID
  | Some name =>
  let ct := pa_proplist_gets l CA_PROP_CANBERRA_CACHE_CONTROL in
  match (match ct with
         | Some c => ca_parse_cache_control c
         | None => Some CA_CACHE_CONTROL_NEVER
         end) with
  | None => ret CA_ERROR_INVALID
  | Some cache_control =>
  (* line 889: [ct], not [cache_control], is compared *)
  if string_ptr_eq_int ct (cache_control_value CA_CACHE_CONTROL_NEVER)
  then ret CA_ERROR_INVALID
  else
  let l := strip_canberra_data l in
  let* _ := emit (EvLookupSound items) in
  let* lk := ask (ca_lookup_sound pa) in
  match lk with
  | LookupFail e => ret (Z.neg e)
  | LookupOk f th =>
  let* _ := upd o (with_file (Some f)) in
  let* _ := set_theme_cache th in
  let* _ := emit (EvStreamNew name (sample_spec_of f) l) in
  let* sn := ask (pa_stream_new_with_proplist pa) in
  match sn with
  | StreamNull errno => translate errno
  | StreamNew st =>
  let* _ := upd o (with_stream (Some st)) in
  let* _ := emit (EvConnectUpload st (sf_size f)) in
  let* cn := ask (pa_stream_connect pa) in
  match cn with
  | Some errno => translate errno
  | None =>
  let* w := ask (pa_stream_wait_upload pa) in
  match w with
  | UploadFailed errno => translate errno
  | UploadTerminated written =>
      let* _ := match written with
                | Some e => upd o (with_error e)
                | None => ret tt
                end in
      ret CA_SUCCESS
  end end end end end end end.

Definition driver_cache (c : ca_context_ptr) (proplist : option ca_proplist)
  : M Z :=
  match c with
  | NullContext => ret CA_ERROR_INVALID
  | Context =>
  match proplist with
  | None => ret CA_ERROR_INVALID
  | Some items =>
  let* p := get_private in
  match p with
  | None => ret CA_ERROR_STATE
  | Some p =>
  if decide (mainloop p = None) then ret CA_ERROR_STATE
  else if decide (context p = None) then ret CA_ERROR_STATE
  else
    let* o := ca_new0_outstanding in
    let* _ := upd o (with_type OUTSTANDING_UPLOAD) in
    let* _ := upd o (with_sink_input PA_INVALID_INDEX) in
    let* r := cache_upload o items in
    let* _ := outstanding_free o in
    ret r
  end end end.

(** *** driver_play (pulse.c:598-784) *)

(** The locals of [driver_play] that are live when the retry loop starts. *)
Record play_locals := {
  pl_name : string;
  pl_v : Z;
  pl_l : pa_proplist;
  pl_cache_control : ca_cache_control_t;
  pl_ret : Z
}.

(** Lines 633-670.  [inl ret] is a jump to [finish] with that [ret]. *)
Definition play_prepare (c : ca_context_ptr) (items : ca_proplist)
    (cb : option fnptr) : M (Z + play_locals) :=
  match convert_proplist (Some items) with
  | inl e => ret (inl e)
  | inr l =>
  match pa_proplist_gets l CA_PROP_EVENT_ID with
  | None => ret (inl CA_ERROR_INVALID)
  | Some name =>
  match (match pa_proplist_gets l CA_PROP_CANBERRA_VOLUME with
         | Some vol => volume_from_string pa vol
         | None => Some PA_VOLUME_NORM
         end) with
  | None => ret (inl CA_ERROR_INVALID)
  | Some v =>
  match (match pa_proplist_gets l CA_PROP_CANBERRA_CACHE_CONTROL with
         | Some ct => ca_parse_cache_control ct
         | None => Some CA_CACHE_CONTROL_NEVER
         end) with
  | None => ret (inl CA_ERROR_INVALID)
  | Some cache_control =>
  let l := strip_canberra_data l in
  let* r := match cb with
            | Some _ => subscribe c
            | None => ret CA_SUCCESS
            end in
  if decide (r < 0) then ret (inl r)
  else ret (inr {| pl_name := name; pl_v := v; pl_l := l;
                   pl_cache_control := cache_control; pl_ret := r |})
  end end end end.

(** Lines 440-456. *)
Definition play_sample_cb (o : addr) (idx errno : Z) : M unit :=
  let* _ := if decide (idx ≠ PA_INVALID_INDEX)
            then let* _ := upd o (with_error CA_SUCCESS) in
                 upd o (with_sink_input idx)
            else let* e := translate errno in
                 upd o (with_error e) in
  emit EvSignal.

(** How the retry loop is left: by [goto finish] with the current [ret],
    or by [break]. *)
Inductive loop_exit :=
  | GotoFinish (r : Z)
  | Break.

(** Lines 672-704.  [try] and [r] are the variables [try] and [ret] at the
    head of the loop. *)
Fixpoint play_loop (fuel : nat) (c : ca_context_ptr) (items : ca_proplist)
    (o : addr) (pl : play_locals) (try r : Z) : M loop_exit :=
  match fuel with
  | O => crash_with OutOfFuel
  | S fuel' =>
      let* dev := (λ s, Ret (c_device s) s) in
      let* _ := emit (EvPlaySample (pl_name pl) dev (pl_v pl) (pl_l pl)) in
      let* res := ask (pa_context_play_sample_with_proplist pa) in
      match res with
      | PlayNull errno =>
          let* e := translate errno in
          ret (GotoFinish e)
      | PlayDone idx errno =>
          let* _ := play_sample_cb o idx errno in
          let* out := load o in
          if decide (o_error out ≠ CA_ERROR_NOTFOUND) then ret (GotoFinish r)
          else if decide (pl_cache_control pl = CA_CACHE_CONTROL_NEVER)
          then ret Break
          else if decide (try - 1 ≤ 0) then ret Break
          else
            let* r' := driver_cache c (Some items) in
            if decide (r' < 0) then ret (GotoFinish r')
            else play_loop fuel' c items o pl (try - 1) r'
      end
  end.

(** Lines 706-764: direct streaming; the value is [ret] at [finish]. *)
Definition play_stream (o : addr) (items : ca_proplist) (pl : play_locals)
  : M Z :=
  let* _ := upd o (with_type OUTSTANDING_STREAM) in
  let* _ := emit (EvLookupSound items) in
  let* lk := ask (ca_lookup_sound pa) in
  match lk with
  | LookupFail e => ret (Z.neg e)
  | LookupOk f th =>
  let* _ := upd o (with_file (Some f)) in
  let* _ := set_theme_cache th in
  let* _ := emit (EvStreamNew (pl_name pl) (sample_spec_of f) (pl_l pl)) in
  let* sn := ask (pa_stream_new_with_proplist pa) in
  match sn with
  | StreamNull errno => translate errno
  | StreamNew st =>
  let* _ := upd o (with_stream (Some st)) in
  let* _ := emit (EvConnectPlayback st) in
  let* cn := ask (pa_stream_connect pa) in
  match cn with
  | Some errno => translate errno
  | None =>
  let* w := ask (pa_stream_wait pa) in
  match w with
  | StreamFailed errno => translate errno
  | StreamTerminated written =>
      let* _ := match written with
                | Some e => upd o (with_error e)
                | None => ret tt
                end in
      let* out := load o in
      ret (o_error out)
  | StreamReady =>
      let* ie := ask (pa_stream_get_index pa) in
      let* _ := upd o (with_sink_input (fst ie)) in
      if decide (fst ie = PA_INVALID_INDEX) then translate (snd ie)
      else ret CA_SUCCESS
  end end end end.

(** Lines 766-783, the [finish] label. *)
Definition play_finish (o : addr) (cb : option fnptr) (r : Z) : M Z :=
  let* out := load o in
  let* _ :=
    if bool_decide (r = CA_SUCCESS) &&
       (bool_decide (o_type out = OUTSTANDING_STREAM) || bool_decide (cb ≠ None))
    then let* _ := upd o (with_clean_up true) in
         registry_prepend o
    else outstanding_free o in
  ret r.

(** [int try = 3]. *)
Definition play_tries : Z := 3.

Definition new_play_request (id : Z) (cb : option fnptr) (userdata : option Z)
  : outstanding :=
  {| o_type := OUTSTANDING_SAMPLE; o_id := id;
     o_sink_input := PA_INVALID_INDEX; o_stream := None; o_callback := cb;
     o_userdata := userdata; o_file := None; o_error := 0;
     o_clean_up := false |}.

Definition driver_play (c : ca_context_ptr) (id : Z)
    (proplist : option ca_proplist) (cb : option fnptr) (userdata : option Z)
  : M Z :=
  match c with
  | NullContext => ret CA_ERROR_INVALID
  | Context =>
  match proplist with
  | None => ret CA_ERROR_INVALID
  | Some items =>
  if bool_decide (userdata ≠ None) && bool_decide (cb = None)
  then ret CA_ERROR_INVALID
  else
  let* p := get_private in
  match p with
  | None => ret CA_ERROR_STATE
  | Some p =>
  if decide (mainloop p = None) then ret CA_ERROR_STATE
  else if decide (context p = None) then ret CA_ERROR_STATE
  else
    let* o := ca_new0_outstanding in
    let* _ := store o (new_play_request id cb userdata) in
    let* pr := play_prepare c items cb in
    match pr with
    | inl r => play_finish o cb r
    | inr pl =>
        let* ex := play_loop (Z.to_nat play_tries) c items o pl
                     play_tries (pl_ret pl) in
        match ex with
        | GotoFinish r => play_finish o cb r
        | Break =>
            let* r := play_stream o items pl in
            play_finish o cb r
        end
    end
  end end end.

(** *** driver_cancel (pulse.c:786-840) *)

(** Lines 807-833.  [todo] is what is left of the list to walk ([n] is read
    before the body runs, and the body removes the current node only);
    [r] is [ret].  [ret2] is declared without an initialiser in the body and
    assigned only when [pa_context_kill_sink_input] returns [NULL]. *)
Fixpoint cancel_loop (id : Z) (todo : list addr) (r : Z) : M Z :=
  match todo with
  | [] => ret r
  | o :: n =>
      let* out := load o in
      if bool_decide (o_type out = OUTSTANDING_UPLOAD)
         || bool_decide (o_id out ≠ id)
         || bool_decide (o_sink_input out = PA_INVALID_INDEX)
      then cancel_loop id n r
      else
        let* _ := emit (EvKillSinkInput (o_sink_input out)) in
        let* op := ask (pa_context_kill_sink_input pa) in
        let* ret2 := match op with
                     | OpNull errno => translate errno
                     | OpStarted => ask (indeterminate pa)
                     end in
        let r' := if bool_decide (ret2 ≠ 0) && bool_decide (r = CA_SUCCESS)
                  then ret2 else r in
        let* _ := call_callback o out CA_ERROR_CANCELED in
        let* _ := registry_remove o in
        let* _ := outstanding_free o in
        cancel_loop id n r'
  end.

Definition driver_cancel (c : ca_context_ptr) (id : Z) : M Z :=
  match c with
  | NullContext => ret CA_ERROR_INVALID
  | Context =>
  let* p := get_private in
  match p with
  | None => ret CA_ERROR_STATE
  | Some p =>
  if decide (mainloop p = None) then ret CA_ERROR_STATE
  else if decide (context p = None) then ret CA_ERROR_STATE
  else cancel_loop id (outstanding_list p) CA_SUCCESS
  end end.

(** *** Draining the registry

    The loops of [context_state_cb] (lines 184-195) and [driver_destroy]
    (lines 332-340): while the list has a head, unlink it, call its
    callback with [err], release it.  The list is read again on every
    round. *)
Fixpoint drain_outstanding (fuel : nat) (err : Z) : M unit :=
  let* p := get_private in
  match p with
  | None => crash_with BadPointer
  | Some p =>
      match outstanding_list p with
      | [] => ret tt
      | o :: _ =>
          match fuel with
          | O => crash_with OutOfFuel
          | S fuel' =>
              let* _ := registry_remove o in
              let* out := load o in
              let* _ := call_callback o out err in
              let* _ := outstanding_free o in
              drain_outstanding fuel' err
          end
      end
  end.

(** *** context_state_cb (pulse.c:164-201) *)

Definition context_state_cb (state : pa_context_state_t) (errno : Z)
  : M unit :=
  let* p := get_private in
  match p with
  | None => crash_with BadPointer
  | Some p =>
      let* _ :=
        match state with
        | PA_CONTEXT_FAILED | PA_CONTEXT_TERMINATED =>
            let* r := translate errno in
            drain_outstanding (length (outstanding_list p)) r
        | _ => ret tt
        end in
      emit EvSignal
  end.

(** *** driver_destroy (pulse.c:321-360) *)

Definition driver_destroy (c : ca_context_ptr) : M Z :=
  match c with
  | NullContext => ret CA_ERROR_INVALID
  | Context =>
  let* p := get_private in
  match p with
  | None => ret CA_ERROR_STATE
  | Some p =>
      let* _ := match mainloop p with
                | Some _ => emit EvMainloopStop
                | None => ret tt
                end in
      let* _ := drain_outstanding (length (outstanding_list p))
                  CA_ERROR_DESTROYED in
      let* _ := match context p with
                | Some _ => emit EvContextDisconnect
                | None => ret tt
                end in
      let* _ := set_private None in
      ret CA_SUCCESS
  end end.

(** *** context_subscribe_cb (pulse.c:203-243) *)

(** Lines 221-229: the matching requests are moved from the registry to the
    local list [l]. *)
Fixpoint subscribe_collect (idx : Z) (todo l : list addr) : M (list addr) :=
  match todo with
  | [] => ret l
  | o :: n =>
      let* out := load o in
      if bool_decide (o_type out ≠ OUTSTANDING_SAMPLE)
         || bool_decide (o_sink_input out ≠ idx)
      then subscribe_collect idx n l
      else
        let* _ := registry_remove o in
        subscribe_collect idx n (o :: l)
  end.

(** Lines 233-242. *)
Fixpoint subscribe_complete (l : list addr) : M unit :=
  match l with
  | [] => ret tt
  | o :: rest =>
      let* out := load o in
      let* _ := call_callback o out CA_SUCCESS in
      let* _ := outstanding_free o in
      subscribe_complete rest
  end.

Definition context_subscribe_cb (t idx : Z) : M unit :=
  if decide (t ≠ Z.lor PA_SUBSCRIPTION_EVENT_SINK_INPUT
                       PA_SUBSCRIPTION_EVENT_REMOVE)
  then ret tt
  else
    let* p := get_private in
    match p with
    | None => crash_with BadPointer
    | Some p =>
        let* l := subscribe_collect idx (outstanding_list p) [] in
        subscribe_complete l
    end.

(** *** stream_state_cb (pulse.c:458-489) *)

Definition stream_state_cb (o : addr) (state : pa_stream_state_t) (errno : Z)
  : M unit :=
  let* out := load o in
  let* _ :=
    if o_clean_up out then
      match state with
      | PA_STREAM_FAILED | PA_STREAM_TERMINATED =>
          let* _ := registry_remove o in
          let* err := match state with
                      | PA_STREAM_FAILED => translate errno
                      | _ => ret CA_ERROR_DESTROYED
                      end in
          let* _ := call_callback o out err in
          outstanding_free o
      | _ => ret tt
      end
    else ret tt in
  emit EvSignal.

(** *** stream_drain_cb (pulse.c:491-515)

    [ca_assert (out->type = OUTSTANDING_STREAM)] assigns the type; the
    assigned value is not zero, so this assertion holds. *)
Definition stream_drain_cb (o : addr) (success : bool) (errno : Z) : M unit :=
  let* _ := upd o (with_type OUTSTANDING_STREAM) in
  let* out := load o in
  if negb (o_clean_up out) then crash_with AssertionFailed
  else
    let* _ := registry_remove o in
    let* _ := match o_callback out with
              | Some _ =>
                  let* err := if success then ret CA_SUCCESS
                              else translate errno in
                  call_callback o out err
              | None => ret tt
              end in
    outstanding_free o.

(** *** stream_write_cb (pulse.c:517-590) *)

(** [ca_sound_file_read_arbitrary]: a negative result code, or the number
    of bytes read. *)
Inductive read_result :=
  | ReadFail (e : positive)
  | ReadBytes (n : Z).

(** What the calls made by one run of [stream_write_cb] return;
    [wa_malloc] is false when [ca_malloc] returns [NULL]. *)
Record write_answers := {
  wa_malloc : bool;
  wa_read : read_result;
  wa_write : Z;
  wa_finish_upload : option Z;
  wa_drain : op_result
}.

(** Lines 529-570: [None] is the [return] of line 570, [Some ret] a jump to
    [finish]. *)
Definition write_body (o : addr) (s : handle) (w : write_answers)
  : M (option Z) :=
  if negb (wa_malloc w) then ret (Some CA_ERROR_OOM)
  else
  match wa_read w with
  | ReadFail e => ret (Some (Z.neg e))
  | ReadBytes n =>
      if decide (0 < n) then
        let* _ := emit (EvStreamWrite s n) in
        if decide (wa_write w < 0)
        then let* e := translate (wa_write w) in ret (Some e)
        else ret None
      else
        let* out := load o in
        if decide (o_type out = OUTSTANDING_UPLOAD) then
          let* _ := emit (EvFinishUpload s) in
          match wa_finish_upload w with
          | Some errno => let* e := translate errno in ret (Some e)
          | None => let* _ := emit EvSignal in ret None
          end
        else
          let* _ := upd o (with_type OUTSTANDING_STREAM) in
          let* _ := emit (EvStreamDrain s) in
          match wa_drain w with
          | OpNull errno => let* e := translate errno in ret (Some e)
          | OpStarted => ret None
          end
  end.

Definition stream_write_cb (o : addr) (s : handle) (bytes : Z)
    (w : write_answers) : M unit :=
  if decide (bytes ≤ 0) then crash_with AssertionFailed
  else
    let* fin := write_body o s w in
    match fin with
    | None => ret tt
    | Some r =>
        let* out := load o in
        if o_clean_up out then
          let* _ := registry_remove o in
          let* _ := call_callback o out r in
          outstanding_free o
        else
          let* _ := emit (EvStreamDisconnect s) in
          let* _ := emit EvSignal in
          upd o (with_error r)
    end.

(** *** driver_change_props (pulse.c:372-408)

    The same shape as [subscribe], with [ret] initialised to
    [CA_SUCCESS]. *)
Definition driver_change_props (c : ca_context_ptr)
    (changed merged : option ca_proplist) : M Z :=
  match c with
  | NullContext => ret CA_ERROR_INVALID
  | Context =>
  match changed with
  | None => ret CA_ERROR_INVALID
  | Some items =>
  match merged with
  | None => ret CA_ERROR_INVALID
  | Some _ =>
  let* p := get_private in
  match p with
  | None => ret CA_ERROR_STATE
  | Some p =>
  if decide (mainloop p = None) then ret CA_ERROR_STATE
  else if decide (context p = None) then ret CA_ERROR_STATE
  else
    match convert_proplist (Some items) with
    | inl e => ret e
    | inr l =>
        let l := strip_canberra_data l in
        let* _ := emit (EvProplistUpdate l) in
        let* o := ask (pa_context_proplist_update pa) in
        match o with
        | OpNull errno => translate errno
        | OpStarted => ret CA_SUCCESS
        end
    end
  end end end end.

(** *** driver_change_device (pulse.c:362-370) *)

Definition driver_change_device (c : ca_context_ptr) (device : option string)
  : M Z :=
  match c with
  | NullContext => ret CA_ERROR_INVALID
  | Context => ret CA_SUCCESS
  end.

End Driver.

(** ** Sample worlds *)

Module Samples.

Definition bell_file : sound_file :=
  {| sf_sample_type := 0; sf_nchannels := 2; sf_rate := 44100;
     sf_size := 17640 |}.

(** A server that accepts everything: every named sample is in its cache,
    every stream comes up, every upload completes.  [PA_ERR_MAX] is that of
    a pulse/def.h whose last code is [PA_ERR_UNKNOWN = 20]. *)
Definition friendly : pulse :=
  {| PA_ERR_MAX := 21;
     pa_proplist_key_valid := λ _, true;
     volume_from_string := λ _, Some PA_VOLUME_NORM;
     indeterminate := λ _, 0;
     pa_context_subscribe := λ _, OpStarted;
     pa_context_play_sample_with_proplist := λ _, PlayDone 7 PA_OK;
     ca_lookup_sound := λ _, LookupOk bell_file None;
     pa_stream_new_with_proplist := λ _, StreamNew 1%positive;
     pa_stream_connect := λ _, None;
     pa_stream_wait := λ _, StreamReady;
     pa_stream_wait_upload := λ _, UploadTerminated None;
     pa_stream_get_index := λ _, (9, PA_OK);
     pa_context_kill_sink_input := λ _, OpStarted;
     pa_context_proplist_update := λ _, OpStarted |}.

Definition with_play_sample (f : list event → play_sample_result)
    (pa : pulse) : pulse :=
  {| PA_ERR_MAX := PA_ERR_MAX pa;
     pa_proplist_key_valid := pa_proplist_key_valid pa;
     volume_from_string := volume_from_string pa;
     indeterminate := indeterminate pa;
     pa_context_subscribe := pa_context_subscribe pa;
     pa_context_play_sample_with_proplist := f;
     ca_lookup_sound := ca_lookup_sound pa;
     pa_stream_new_with_proplist := pa_stream_new_with_proplist pa;
     pa_stream_connect := pa_stream_connect pa;
     pa_stream_wait := pa_stream_wait pa;
     pa_stream_wait_upload := pa_stream_wait_upload pa;
     pa_stream_get_index := pa_stream_get_index pa;
     pa_context_kill_sink_input := pa_context_kill_sink_input pa;
     pa_context_proplist_update := pa_context_proplist_update pa |}.

Definition with_indeterminate (f : list event → Z) (pa : pulse) : pulse :=
  {| PA_ERR_MAX := PA_ERR_MAX pa;
     pa_proplist_key_valid := pa_proplist_key_valid pa;
     volume_from_string := volume_from_string pa;
     indeterminate := f;
     pa_context_subscribe := pa_context_subscribe pa;
     pa_context_play_sample_with_proplist :=
       pa_context_play_sample_with_proplist pa;
     ca_lookup_sound := ca_lookup_sound pa;
     pa_stream_new_with_proplist := pa_stream_new_with_proplist pa;
     pa_stream_connect := pa_stream_connect pa;
     pa_stream_wait := pa_stream_wait pa;
     pa_stream_wait_upload := pa_stream_wait_upload pa;
     pa_stream_get_index := pa_stream_get_index pa;
     pa_context_kill_sink_input := pa_context_kill_sink_input pa;
     pa_context_proplist_update := pa_context_proplist_update pa |}.

(** An open context with the given registry. *)
Definition open_private (sub : bool) (l : list addr) : private :=
  {| mainloop := Some 1%positive; context := Some 2%positive; theme := None;
     subscribed := sub; outstanding_mutex := Some 3%positive;
     outstanding_list := l |}.

Definition open_state (sub : bool) (l : list addr)
    (h : gmap addr outstanding) (next : addr) : state :=
  {| c_private := Some (open_private sub l); c_device := None;
     c_props := []; heap := h; next_addr := next; trace := [] |}.

(** A request that plays a named sample on sink input [idx]. *)
Definition sample_request (id idx : Z) (cb : option fnptr) : outstanding :=
  {| o_type := OUTSTANDING_SAMPLE; o_id := id; o_sink_input := idx;
     o_stream := None; o_callback := cb; o_userdata := None;
     o_file := None; o_error := CA_SUCCESS; o_clean_up := true |}.

End Samples.

(** ** The traces of a run *)

Definition final_state {A} (r : outcome A) : state :=
  match r with
  | Ret _ s => s
  | Crash _ s => s
  end.

Definition is_play_sample (e : event) : bool :=
  match e with EvPlaySample _ _ _ _ => true | _ => false end.

Definition is_connect_upload (e : event) : bool :=
  match e with EvConnectUpload _ _ => true | _ => false end.

Definition is_lookup_sound (e : event) : bool :=
  match e with EvLookupSound _ => true | _ => false end.

Definition is_connect_playback (e : event) : bool :=
  match e with EvConnectPlayback _ => true | _ => false end.

Definition count (f : event → bool) (tr : list event) : nat :=
  length (filter (λ e, f e = true) tr).

(** Named-sample play attempts and cache uploads in a trace. *)
Definition play_attempts (tr : list event) : nat := count is_play_sample tr.
Definition cache_uploads (tr : list event) : nat := count is_connect_upload tr.

(** The callback calls of a trace, oldest first: the request and the error
    it was completed with. *)
Definition callbacks (tr : list event) : list (addr * Z) :=
  omap (λ e, match e with
             | EvCallback _ _ err _ self _ => Some (self, err)
             | _ => None
             end) (reverse tr).

(** A callback call that finds its own request still linked. *)
Definition sees_itself_linked (e : event) : bool :=
  match e with
  | EvCallback _ _ _ _ self linked => bool_decide (self ∈ linked)
  | _ => false
  end.

(** ** Well-formed registries *)

(** The nodes of the list are distinct and live. *)
Definition registry_wf (h : gmap addr outstanding) (l : list addr) : Prop :=
  NoDup l ∧ ∀ a, a ∈ l → is_Some (h !! a).

(** The callback calls a drain of [l] owes: one for each request of [l] that
    has a callback, in list order, each with [err]. *)
Definition owed_callbacks (h : gmap addr outstanding) (l : list addr)
    (err : Z) : list (addr * Z) :=
  omap (λ a, match h !! a with
             | Some out => match o_callback out with
                           | Some _ => Some (a, err)
                           | None => None
                           end
             | None => None
             end) l.

(** ** What a completion does *)

(** What completing a request does outside the driver: its callback is
    called, with the function, the id, the error and the user data that are
    passed; its sound file is closed; its stream is disconnected. *)
Inductive effect :=
  | Called (cb : fnptr) (id : Z) (err : Z) (userdata : option Z) (o : addr)
  | FileClosed (f : sound_file)
  | StreamDisconnected (st : handle).

Definition effect_of (e : event) : option effect :=
  match e with
  | EvCallback cb id err userdata self _ =>
      Some (Called cb id err userdata self)
  | EvFileClose f => Some (FileClosed f)
  | EvStreamDisconnect st => Some (StreamDisconnected st)
  | _ => None
  end.

(** The effects of a trace, oldest first. *)
Definition effects (tr : list event) : list effect :=
  omap effect_of (reverse tr).

(** Completing the request [out] at [o] with [err]: the call
    [out->callback (c, out->id, err, out->userdata)] when there is a
    callback, then [outstanding_free]. *)
Definition completion (o : addr) (out : outstanding) (err : Z)
  : list effect :=
  match o_callback out with
  | Some cb => [Called cb (o_id out) err (o_userdata out) o]
  | None => []
  end ++
  match o_file out with
  | Some f => [FileClosed f]
  | None => []
  end ++
  match o_stream out with
  | Some st => [StreamDisconnected st]
  | None => []
  end.

(** The completions of the requests of [l], one after the other. *)
Definition owed_completions (h : gmap addr outstanding) (l : list addr)
    (err : Z) : list effect :=
  l ≫= (λ a, match h !! a with
             | Some out => completion a out err
             | None => []
             end).

(** ** Sample states *)

Module Scenes.
Import Samples.

(** One request: id 1, playing on sink input 7, with a callback. *)
Definition one_request : state :=
  open_state true [5%positive]
    {[ 5%positive := sample_request 1 7 (Some 1%positive) ]} 6%positive.

(** Two requests: the one above, and one with id 2 and no callback. *)
Definition two_requests_private : private :=
  open_private true [6%positive; 5%positive].

Definition two_requests : state :=
  open_state true [6%positive; 5%positive]
    {[ 5%positive := sample_request 1 7 (Some 1%positive);
       6%positive := sample_request 2 8 None ]} 7%positive.

(** An open context with nothing outstanding, not yet subscribed. *)
Definition idle : state := open_state false [] ∅ 1%positive.

(** The same, subscribed. *)
Definition ready : state := open_state true [] ∅ 1%positive.

(** The server answers every named-sample request with "no such entity". *)
Definition sample_missing : pulse :=
  with_play_sample (λ _, PlayDone PA_INVALID_INDEX PA_ERR_NOENTITY) friendly.

(** The server answers the first two named-sample requests with "no such
    entity" and plays the third on sink input 7. *)
Definition sample_missing_twice : pulse :=
  with_play_sample
    (λ tr, if (play_attempts tr <=? 2)%nat
           then PlayDone PA_INVALID_INDEX PA_ERR_NOENTITY
           else PlayDone 7 PA_OK) friendly.

(** The server refuses the named-sample request: access denied. *)
Definition sample_refused : pulse :=
  with_play_sample (λ _, PlayDone PA_INVALID_INDEX PA_ERR_ACCESS) friendly.

(** As [friendly], but an automatic [int] that was never assigned reads as
    [CA_ERROR_IO]. *)
Definition stale_stack : pulse := with_indeterminate (λ _, CA_ERROR_IO) friendly.

Definition bell : ca_proplist := [("event.id", "bell")].

Definition bell_volatile : ca_proplist :=
  [("event.id", "bell"); ("canberra.cache-control", "volatile")].

Definition bell_never : ca_proplist :=
  [("event.id", "bell"); ("canberra.cache-control", "never")].

End Scenes.

(** ** Counting what a computation sends *)

(** [m] adds at most [a] named-sample play attempts and [b] cache uploads
    to the trace, however it ends. *)
Definition within {A} (a b : nat) (m : M A) : Prop :=
  ∀ s,
    (play_attempts (trace (final_state (m s)))
     ≤ play_attempts (trace s) + a)%nat ∧
    (cache_uploads (trace (final_state (m s)))
     ≤ cache_uploads (trace s) + b)%nat.

(** [m] does not run out of fuel. *)
Definition terminates {A} (m : M A) : Prop :=
  ∀ s s', m s ≠ Crash OutOfFuel s'.

(** The context is open, as [driver_play] and [driver_cache] require. *)
Definition context_open (s : state) : Prop :=
  ∃ p, c_private s = Some p ∧ mainloop p ≠ None ∧ context p ≠ None.

(** Every upload of [items] goes through: the properties name an event and
    carry a well-formed cache-control, the sound file is found, the upload
    stream is created and connected, and the wait ends with the stream
    terminated. *)
Definition uploads_succeed (pa : pulse) (items : ca_proplist) : Prop :=
  (∃ l name ct cc,
      convert_proplist pa (Some items) = inr l ∧
      pa_proplist_gets l CA_PROP_EVENT_ID = Some name ∧
      pa_proplist_gets l CA_PROP_CANBERRA_CACHE_CONTROL = Some ct ∧
      ca_parse_cache_control ct = Some cc) ∧
  (∀ tr, ∃ f th, ca_lookup_sound pa tr = LookupOk f th) ∧
  (∀ tr, ∃ st, pa_stream_new_with_proplist pa tr = StreamNew st) ∧
  (∀ tr, pa_stream_connect pa tr = None) ∧
  (∀ tr, ∃ w, pa_stream_wait_upload pa tr = UploadTerminated w).

(** The server's answer to a named-sample request is "not found". *)
Definition not_found (pa : pulse) (r : play_sample_result) : Prop :=
  ∃ errno, r = PlayDone PA_INVALID_INDEX errno ∧
           translate_error pa errno = Some CA_ERROR_NOTFOUND.

(** The server's answer is that the sample plays. *)
Definition played (r : play_sample_result) : Prop :=
  ∃ idx errno, r = PlayDone idx errno ∧ idx ≠ PA_INVALID_INDEX.

(** What the retry loop needs of the state: an open context and a live
    request below the allocation pointer. *)
Definition loop_ready (o : addr) (s : state) : Prop :=
  context_open s ∧ is_Some (heap s !! o) ∧ (o < next_addr s)%positive.

Definition play_request (pl : play_locals) (s : state) : list event :=
  EvPlaySample (pl_name pl) (c_device s) (pl_v pl) (pl_l pl) :: trace s.

(** From [s] to [s'] the driver has sent [a] named-sample play requests,
    [b] cache uploads and [c] sound-file lookups. *)
Definition sends (a b c : nat) (s s' : state) : Prop :=
  play_attempts (trace s') = (play_attempts (trace s) + a)%nat ∧
  cache_uploads (trace s') = (cache_uploads (trace s) + b)%nat ∧
  count is_lookup_sound (trace s') = (count is_lookup_sound (trace s) + c)%nat.

(** The properties of a play request pass the checks of lines 633-664 and
    select a cache control that permits retries. *)
Definition retries_permitted (pa : pulse) (items : ca_proplist) : Prop :=
  ∃ l name v ct cc,
    convert_proplist pa (Some items) = inr l ∧
    pa_proplist_gets l CA_PROP_EVENT_ID = Some name ∧
    match pa_proplist_gets l CA_PROP_CANBERRA_VOLUME with
    | Some vol => volume_from_string pa vol
    | None => Some PA_VOLUME_NORM
    end = Some v ∧
    pa_proplist_gets l CA_PROP_CANBERRA_CACHE_CONTROL = Some ct ∧
    ca_parse_cache_control ct = Some cc ∧
    cc ≠ CA_CACHE_CONTROL_NEVER.

(** [driver_play] has no subscription request to send: the caller gave no
    callback, or the context is subscribed already. *)
Definition subscription_settled (cb : option fnptr) (s : state) : Prop :=
  cb = None ∨ ∃ p, c_private s = Some p ∧ subscribed p = true.

(** ** What driver_cancel is after *)

(** The test of lines 811-813, negated: the request at [a] has the id, is
    not an upload and has a sink input. *)
Definition cancel_target (h : gmap addr outstanding) (id : Z) (a : addr)
  : bool :=
  match h !! a with
  | Some out =>
      negb (bool_decide (o_type out = OUTSTANDING_UPLOAD)
            || bool_decide (o_id out ≠ id)
            || bool_decide (o_sink_input out = PA_INVALID_INDEX))
  | None => false
  end.

(** [pa_context_errno] reads an error code, which is not negative. *)
Definition kill_errors_valid (pa : pulse) : Prop :=
  ∀ tr errno, pa_context_kill_sink_input pa tr = OpNull errno → 0 ≤ errno.

(** ** driver_open (pulse.c:245-319) *)

(** What the calls made by one run of [driver_open] return: the three
    allocations and [pa_context_new_with_proplist] ([None] and [false] are
    [NULL]), [pa_context_connect] ([Some errno] when it returns a negative
    value, with the value of [pa_context_errno]),
    [pa_threaded_mainloop_start] ([false] when negative), the states that
    the successive calls of [pa_context_get_state] in the loop of lines
    296-314 return, and the value of [pa_context_errno] in that loop.  The
    calls of [driver_open] itself leave no event in the trace; those of the
    [driver_destroy] it runs on failure do. *)
Record open_answers := {
  oa_private : bool;
  oa_mutex : option handle;
  oa_mainloop : option handle;
  oa_context : option handle;
  oa_connect : option Z;
  oa_start : bool;
  oa_states : list pa_context_state_t;
  oa_errno : Z
}.

(** [ca_new0 (struct private, 1)] *)
Definition new_private : private :=
  {| mainloop := None; context := None; theme := None; subscribed := false;
     outstanding_mutex := None; outstanding_list := [] |}.

Definition set_mutex (p : private) (m : option handle) : private :=
  {| mainloop := mainloop p; context := context p; theme := theme p;
     subscribed := subscribed p; outstanding_mutex := m;
     outstanding_list := outstanding_list p |}.

Definition set_mainloop (p : private) (m : option handle) : private :=
  {| mainloop := m; context := context p; theme := theme p;
     subscribed := subscribed p; outstanding_mutex := outstanding_mutex p;
     outstanding_list := outstanding_list p |}.

Definition set_context (p : private) (c : option handle) : private :=
  {| mainloop := mainloop p; context := c; theme := theme p;
     subscribed := subscribed p; outstanding_mutex := outstanding_mutex p;
     outstanding_list := outstanding_list p |}.

(** [driver_destroy (c); return r;] *)
Definition open_fail (r : Z) : M Z :=
  let* _ := driver_destroy Context in
  ret r.

(** The loop of lines 296-314, one round for each state read; when the
    states run out the thread is still waiting. *)
Fixpoint open_wait (pa : pulse) (states : list pa_context_state_t)
    (errno : Z) : M Z :=
  match states with
  | [] => crash_with OutOfFuel
  | st :: rest =>
      match st with
      | PA_CONTEXT_READY => ret CA_SUCCESS
      | PA_CONTEXT_FAILED =>
          let* r := translate pa errno in
          open_fail r
      | PA_CONTEXT_TERMINATED => crash_with AssertionFailed
      | _ => open_wait pa rest errno
      end
  end.

(** [driver] is [c->driver]. *)
Definition driver_open (pa : pulse) (c : ca_context_ptr)
    (driver : option string) (a : open_answers) : M Z :=
  match c with
  | NullContext => ret CA_ERROR_INVALID
  | Context =>
  if match driver with
     | Some d => negb (bool_decide (d = "pulse"))
     | None => false
     end
  then ret CA_ERROR_NODRIVER
  else
  let* p := get_private in
  match p with
  | Some _ => ret CA_ERROR_STATE
  | None =>
  if negb (oa_private a) then ret CA_ERROR_OOM
  else
  let* _ := set_private (Some new_private) in
  match oa_mutex a with
  | None => open_fail CA_ERROR_OOM
  | Some mx =>
  let p1 := set_mutex new_private (Some mx) in
  let* _ := set_private (Some p1) in
  match oa_mainloop a with
  | None => open_fail CA_ERROR_OOM
  | Some ml =>
  let p2 := set_mainloop p1 (Some ml) in
  let* _ := set_private (Some p2) in
  let* props := (λ s, Ret (c_props s) s) in
  match convert_proplist pa (Some props) with
  | inl e => open_fail e
  | inr l =>
  match oa_context a with
  | None => open_fail CA_ERROR_OOM
  | Some ctx =>
  let* _ := set_private (Some (set_context p2 (Some ctx))) in
  match oa_connect a with
  | Some errno =>
      let* r := translate pa errno in
      open_fail r
  | None =>
  if negb (oa_start a) then open_fail CA_ERROR_OOM
  else open_wait pa (oa_states a) (oa_errno a)
  end end end end end end end.

(** ** Observations used by the further properties *)

(** [m] leaves the observation [f] of the state as it was, however it
    ends. *)
Definition preserves {A B} (f : state → B) (m : M A) : Prop :=
  ∀ s, f (final_state (m s)) = f s.

(** The callback calls of the state's trace. *)
Definition calls (s : state) : list (addr * Z) := callbacks (trace s).

(** The properties of a play request fail one of the checks of lines
    633-664: a key the server's property list refuses, no event id, a
    volume that does not parse, or a cache control that does not parse. *)
Definition properties_rejected (pa : pulse) (items : ca_proplist) : Prop :=
  match convert_proplist pa (Some items) with
  | inl _ => True
  | inr l =>
      pa_proplist_gets l CA_PROP_EVENT_ID = None ∨
      (∃ vol, pa_proplist_gets l CA_PROP_CANBERRA_VOLUME = Some vol ∧
              volume_from_string pa vol = None) ∨
      (∃ ct, pa_proplist_gets l CA_PROP_CANBERRA_CACHE_CONTROL = Some ct ∧
             ca_parse_cache_control ct = None)
  end.

(** The test of line 224, negated: the request at [a] plays a named sample
    on sink input [idx]. *)
Definition removal_target (h : gmap addr outstanding) (idx : Z) (a : addr)
  : bool :=
  match h !! a with
  | Some out =>
      negb (bool_decide (o_type out ≠ OUTSTANDING_SAMPLE)
            || bool_decide (o_sink_input out ≠ idx))
  | None => false
  end.

(** A computation that, when it returns an error, has left the registry as
    it was. *)
Definition registers_on_success_only (m : M Z) : Prop :=
  ∀ s r s', m s = Ret r s' → r ≠ CA_SUCCESS → registry s' = registry s.

(** The private data of a context that [driver_open] has brought up. *)
Definition opened (mx ml ctx : handle) : private :=
  set_context (set_mainloop (set_mutex new_private (Some mx)) (Some ml))
    (Some ctx).

(** A state of the context at which the loop of [driver_open] keeps
    waiting. *)
Definition still_connecting (st : pa_context_state_t) : Prop :=
  st ≠ PA_CONTEXT_READY ∧ st ≠ PA_CONTEXT_FAILED ∧
  st ≠ PA_CONTEXT_TERMINATED.

(** The properties pass the checks of lines 633-664. *)
Definition properties_accepted (pa : pulse) (items : ca_proplist) : Prop :=
  ∃ l name v cc,
    convert_proplist pa (Some items) = inr l ∧
    pa_proplist_gets l CA_PROP_EVENT_ID = Some name ∧
    match pa_proplist_gets l CA_PROP_CANBERRA_VOLUME with
    | Some vol => volume_from_string pa vol
    | None => Some PA_VOLUME_NORM
    end = Some v ∧
    match pa_proplist_gets l CA_PROP_CANBERRA_CACHE_CONTROL with
    | Some ct => ca_parse_cache_control ct
    | None => Some CA_CACHE_CONTROL_NEVER
    end = Some cc.

(** The request of a [driver_play] whose sample plays on sink input
    [idx]. *)
Definition playing_request (id idx : Z) (cb : option fnptr)
    (userdata : option Z) : outstanding :=
  {| o_type := OUTSTANDING_SAMPLE; o_id := id; o_sink_input := idx;
     o_stream := None; o_callback := cb; o_userdata := userdata;
     o_file := None; o_error := CA_SUCCESS; o_clean_up := true |}.

(** The server plays every named sample it is asked for, on sink input
    [idx]. *)
Definition sample_plays_on (pa : pulse) (idx : Z) : Prop :=
  idx ≠ PA_INVALID_INDEX ∧
  ∀ tr, ∃ errno,
    pa_context_play_sample_with_proplist pa tr = PlayDone idx errno.

(** The properties select no cache control that permits an upload: the
    property is absent, or it does not parse to "permanent" or
    "volatile". *)
Definition uploads_excluded (pa : pulse) (items : ca_proplist) : Prop :=
  ∀ l ct, convert_proplist pa (Some items) = inr l →
          pa_proplist_gets l CA_PROP_CANBERRA_CACHE_CONTROL = Some ct →
          ca_parse_cache_control ct ≠ Some CA_CACHE_CONTROL_PERMANENT ∧
          ca_parse_cache_control ct ≠ Some CA_CACHE_CONTROL_VOLATILE.

(** Where [stream_write_cb] jumps to [finish], and with which [ret]:
    [ca_malloc] fails, or reading the sound file does. *)
Definition write_fails_with (w : write_answers) (r : Z) : Prop :=
  (wa_malloc w = false ∧ r = CA_ERROR_OOM) ∨
  (wa_malloc w = true ∧ ∃ e, wa_read w = ReadFail e ∧ r = Z.neg e).

(** ** More sample states *)

Module Further.
Import Samples.

(** A context that was created and not opened. *)
Definition closed : state :=
  {| c_private := None; c_device := None;
     c_props := [("application.name", "demo")]; heap := ∅;
     next_addr := 1%positive; trace := [] |}.

(** Every call of [driver_open] succeeds; the context is ready at the fourth
    look. *)
Definition answers : open_answers :=
  {| oa_private := true; oa_mutex := Some 3%positive;
     oa_mainloop := Some 1%positive; oa_context := Some 2%positive;
     oa_connect := None; oa_start := true;
     oa_states := [PA_CONTEXT_CONNECTING; PA_CONTEXT_AUTHORIZING;
                   PA_CONTEXT_SETTING_NAME; PA_CONTEXT_READY];
     oa_errno := PA_OK |}.

(** [pa_context_connect] fails with [PA_ERR_NOTSUPPORTED = 19]. *)
Definition refused : open_answers :=
  {| oa_private := true; oa_mutex := Some 3%positive;
     oa_mainloop := Some 1%positive; oa_context := Some 2%positive;
     oa_connect := Some 19; oa_start := true; oa_states := [];
     oa_errno := PA_OK |}.

(** As [friendly], but the empty string is no property key. *)
Definition picky : pulse :=
  {| PA_ERR_MAX := PA_ERR_MAX friendly;
     pa_proplist_key_valid := λ k, negb (bool_decide (k = ""));
     volume_from_string := volume_from_string friendly;
     indeterminate := indeterminate friendly;
     pa_context_subscribe := pa_context_subscribe friendly;
     pa_context_play_sample_with_proplist :=
       pa_context_play_sample_with_proplist friendly;
     ca_lookup_sound := ca_lookup_sound friendly;
     pa_stream_new_with_proplist := pa_stream_new_with_proplist friendly;
     pa_stream_connect := pa_stream_connect friendly;
     pa_stream_wait := pa_stream_wait friendly;
     pa_stream_wait_upload := pa_stream_wait_upload friendly;
     pa_stream_get_index := pa_stream_get_index friendly;
     pa_context_kill_sink_input := pa_context_kill_sink_input friendly;
     pa_context_proplist_update := pa_context_proplist_update friendly |}.

(** A request with id 2 that streams the bell file on sink input 9, with
    callback 2 and user data 20. *)
Definition streaming_request : outstanding :=
  {| o_type := OUTSTANDING_STREAM; o_id := 2; o_sink_input := 9;
     o_stream := Some 1%positive; o_callback := Some 2%positive;
     o_userdata := Some 20; o_file := Some bell_file; o_error := CA_SUCCESS;
     o_clean_up := true |}.

Definition streaming_private : private := open_private true [5%positive].

Definition streaming : state :=
  open_state true [5%positive] {[ 5%positive := streaming_request ]}
    6%positive.

(** The sound file is at its end. *)
Definition at_end : write_answers :=
  {| wa_malloc := true; wa_read := ReadBytes 0; wa_write := 0;
     wa_finish_upload := None; wa_drain := OpStarted |}.

(** Reading the sound file fails with [CA_ERROR_CORRUPT]. *)
Definition unreadable : write_answers :=
  {| wa_malloc := true; wa_read := ReadFail 7; wa_write := 0;
     wa_finish_upload := None; wa_drain := OpStarted |}.

(** Three requests: at 5, id 1 plays a named sample on sink input 7, with
    callback 1 and user data 10; at 6, id 1 streams the bell file on sink
    input 9, with callback 2 and user data 20; at 7, id 2 plays a named
    sample on sink input 8, without callback. *)
Definition busy_private : private :=
  open_private true [7%positive; 6%positive; 5%positive].

Definition busy : state :=
  open_state true [7%positive; 6%positive; 5%positive]
    {[ 5%positive :=
         {| o_type := OUTSTANDING_SAMPLE; o_id := 1; o_sink_input := 7;
            o_stream := None; o_callback := Some 1%positive;
            o_userdata := Some 10; o_file := None; o_error := CA_SUCCESS;
            o_clean_up := true |};
       6%positive :=
         {| o_type := OUTSTANDING_STREAM; o_id := 1; o_sink_input := 9;
            o_stream := Some 4%positive; o_callback := Some 2%positive;
            o_userdata := Some 20; o_file := Some bell_file;
            o_error := CA_SUCCESS; o_clean_up := true |};
       7%positive := sample_request 2 8 None ]} 8%positive.


(** [pa_stream_write] fails. *)
Definition unwritable : write_answers :=
  {| wa_malloc := true; wa_read := ReadBytes 512; wa_write := -1;
     wa_finish_upload := None; wa_drain := OpStarted |}.

End Further.

(** * Theorems *)

Ltac unfold_codes :=
  unfold CA_SUCCESS, CA_ERROR_NOTSUPPORTED, CA_ERROR_INVALID, CA_ERROR_STATE,
    CA_ERROR_OOM, CA_ERROR_NODRIVER, CA_ERROR_SYSTEM, CA_ERROR_CORRUPT,
    CA_ERROR_TOOBIG, CA_ERROR_NOTFOUND, CA_ERROR_DESTROYED, CA_ERROR_CANCELED,
    CA_ERROR_NOTAVAILABLE, CA_ERROR_ACCESS, CA_ERROR_IO, PA_OK, PA_ERR_ACCESS,
    PA_ERR_COMMAND, PA_ERR_INVALID, PA_ERR_EXIST, PA_ERR_NOENTITY,
    PA_ERR_CONNECTIONREFUSED, PA_ERR_PROTOCOL, PA_ERR_TIMEOUT, PA_ERR_AUTHKEY,
    PA_ERR_INTERNAL, PA_ERR_CONNECTIONTERMINATED, PA_ERR_KILLED,
    PA_ERR_INVALIDSERVER, PA_ERR_MODINITFAILED, PA_ERR_BADSTATE,
    PA_ERR_NODATA, PA_ERR_VERSION, PA_ERR_TOOLARGE, PA_INVALID_INDEX in *.

(** ** The error translator *)

Section TranslateError.

Variable pa : pulse.

(** Every non-negative code has a translation. *)
Lemma translate_error_total (e : Z) :
  0 ≤ e → is_Some (translate_error pa e).
Proof.
  intros He. unfold translate_error.
  destruct (decide (e < 0)) as [Hneg | _]; [lia |].
  destruct (decide (PA_ERR_MAX pa ≤ e)); eauto.
Qed.

(** A code at or beyond [PA_ERR_MAX] is an I/O error. *)
Lemma translate_error_beyond_range (e : Z) :
  0 ≤ e → PA_ERR_MAX pa ≤ e → translate_error pa e = Some CA_ERROR_IO.
Proof.
  intros He Hmax. unfold translate_error.
  destruct (decide (e < 0)); [lia |].
  destruct (decide (PA_ERR_MAX pa ≤ e)); [reflexivity | lia].
Qed.

(** A code in range reads the table. *)
Lemma translate_error_in_range (e : Z) :
  0 ≤ e < PA_ERR_MAX pa → translate_error pa e = Some (table e).
Proof.
  intros [He Hmax]. unfold translate_error.
  destruct (decide (e < 0)); [lia |].
  destruct (decide (PA_ERR_MAX pa ≤ e)); [lia | reflexivity].
Qed.

(** No initialiser names an index above [PA_ERR_TOOLARGE]. *)
Lemma designated_above (e : Z) :
  PA_ERR_TOOLARGE < e → designated table_initialisers e = None.
Proof.
  intros He. unfold table_initialisers. unfold_codes. simpl.
  repeat (destruct (decide _) as [Heq | _]; [lia |]). reflexivity.
Qed.

(** A code in range that the table does not name translates to zero, the
    value of [CA_SUCCESS]. *)
Lemma translate_error_gap (e : Z) :
  PA_ERR_TOOLARGE < e < PA_ERR_MAX pa →
  translate_error pa e = Some CA_SUCCESS.
Proof.
  intros [Hlo Hhi].
  rewrite translate_error_in_range by (unfold_codes; lia).
  unfold table. rewrite designated_above by assumption. reflexivity.
Qed.

End TranslateError.

(** C6.  The error translator gives every server error code a result, and
    sends every code at or beyond the end of the range to the I/O error; a
    code within the range for which the table has no entry, however, reads
    a zero element of the table: with a pulse/def.h that defines codes
    above [PA_ERR_TOOLARGE], code 19 ([PA_ERR_NOTSUPPORTED]) is translated
    to [CA_SUCCESS] and not to [CA_ERROR_IO]. *)
Theorem translate_error_unmapped_code_is_success :
  designated table_initialisers 19 = None ∧
  19 < PA_ERR_MAX Samples.friendly ∧
  translate_error Samples.friendly 19 = Some CA_SUCCESS ∧
  translate_error Samples.friendly 19 ≠ Some CA_ERROR_IO.
Proof.
  split; [reflexivity |]. split; [reflexivity |].
  split; [reflexivity | discriminate].
Qed.

(** ** The property-list bridge *)

Lemma ascii_code_inj (a b : Ascii.ascii) :
  Ascii.nat_of_ascii a = Ascii.nat_of_ascii b → a = b.
Proof.
  intros H. rewrite <- (Ascii.ascii_nat_embedding a).
  rewrite <- (Ascii.ascii_nat_embedding b). now rewrite H.
Qed.

(** When [n] exceeds the length of [s2], [strncmp] decides equality of C
    strings. *)
Lemma strncmp_zero_iff (s1 s2 : string) (n : nat) :
  c_string s1 → c_string s2 → (String.length s2 < n)%nat →
  strncmp s1 s2 n = 0 ↔ s1 = s2.
Proof.
  revert s2 n. induction s1 as [| c1 r1 IH]; intros s2 n H1 H2 Hn.
  - destruct n as [| n]; [lia |]. destruct s2 as [| c2 r2]; simpl.
    + tauto.
    + destruct H2 as [Hc _]. split; [lia | discriminate].
  - destruct n as [| n]; [lia |]. destruct H1 as [Hc1 Hr1].
    destruct s2 as [| c2 r2]; simpl.
    + split; [lia | discriminate].
    + destruct H2 as [Hc2 Hr2]. simpl in Hn.
      destruct (Ascii.eqb_spec c1 c2) as [-> | Hne].
      * rewrite IH by (assumption || lia).
        split; [intros -> | intros [= ->]]; reflexivity.
      * split; [| intros [= ? ?]; contradiction].
        intros H. exfalso. apply Hne, ascii_code_inj. lia.
Qed.

(** The test of line 127 holds for the key ["canberra."] alone. *)
Lemma strip_test_iff (key : string) :
  c_string key → strncmp key "canberra." 12 = 0 ↔ key = "canberra.".
Proof.
  intros Hk. apply strncmp_zero_iff; [assumption | | simpl; lia].
  simpl. repeat split; discriminate.
Qed.

Lemma strip_fold_lookup (ks : list string) (l : pa_proplist) (k : string) :
  foldr strip_step l ks !! k =
  if decide (strncmp k "canberra." 12 = 0 ∧ k ∈ ks) then None else l !! k.
Proof.
  induction ks as [| k' ks IH]; simpl.
  - rewrite decide_False; [reflexivity |].
    intros [_ Hin]. now apply not_elem_of_nil in Hin.
  - unfold strip_step at 1.
    destruct (decide (k' = k)) as [Heq | Hne].
    + subst k'. destruct (decide (strncmp k "canberra." 12 = 0)) as [Hz | Hz].
      * rewrite lookup_delete_eq. rewrite decide_True; [reflexivity |].
        split; [assumption | apply list_elem_of_here].
      * rewrite IH. rewrite !decide_False; [reflexivity | tauto | tauto].
    + assert (Hmem : k ∈ k' :: ks ↔ k ∈ ks).
      { rewrite elem_of_cons. split; [intros [? | ?] | intros ?].
        - congruence.
        - assumption.
        - now right. }
      assert (Hgo : foldr strip_step l ks !! k =
                    if decide (strncmp k "canberra." 12 = 0 ∧ k ∈ k' :: ks)
                    then None else l !! k).
      { rewrite IH. apply decide_ext. now rewrite Hmem. }
      destruct (decide (strncmp k' "canberra." 12 = 0)) as [Hz | Hz].
      * rewrite lookup_delete_ne by assumption. exact Hgo.
      * exact Hgo.
Qed.

(** What [strip_canberra_data] leaves of a property list. *)
Lemma strip_canberra_data_lookup (l : pa_proplist) (k : string) :
  strip_canberra_data l !! k =
  if decide (strncmp k "canberra." 12 = 0) then None else l !! k.
Proof.
  unfold strip_canberra_data. rewrite strip_fold_lookup.
  destruct (decide (strncmp k "canberra." 12 = 0)) as [Hz | Hz].
  - destruct (decide _) as [_ | Hn]; [reflexivity |].
    destruct (l !! k) as [v |] eqn:Hl; [| reflexivity].
    exfalso. apply Hn. split; [assumption |].
    apply list_elem_of_fmap. exists (k, v).
    split; [reflexivity | now apply elem_of_map_to_list].
  - destruct (decide _) as [[? _] | _]; [contradiction | reflexivity].
Qed.

(** Every internal key other than ["canberra."] itself survives. *)
Lemma strip_canberra_data_keeps (l : pa_proplist) (k : string) :
  c_string k → k ≠ "canberra." → strip_canberra_data l !! k = l !! k.
Proof.
  intros Hk Hne. rewrite strip_canberra_data_lookup.
  destruct (decide _) as [Hz | _]; [| reflexivity].
  now apply strip_test_iff in Hz.
Qed.

(** C2.  [strip_canberra_data] is meant to remove every key of the
    ["canberra."] namespace, but it compares twelve characters of the key
    with the nine-character prefix, so that only the key ["canberra."]
    itself is removed: the property list that holds ["canberra.volume"]
    alone, all of whose keys are internal, comes back unchanged and not
    empty. *)
Theorem strip_canberra_data_keeps_internal_key :
  internal_key "canberra.volume" = true ∧
  strip_canberra_data {[ "canberra.volume" := "0" ]}
    = {[ "canberra.volume" := "0" ]} ∧
  strip_canberra_data {[ "canberra.volume" := "0" ]} ≠ ∅.
Proof.
  assert (Hkeep : strip_canberra_data {[ "canberra.volume" := "0" ]}
                  = ({[ "canberra.volume" := "0" ]} : pa_proplist)).
  { apply map_eq. intros k. rewrite strip_canberra_data_lookup.
    destruct (decide _) as [Hz | _]; [| reflexivity].
    destruct (decide (k = "canberra.volume")) as [-> | Hne].
    - vm_compute in Hz. discriminate.
    - rewrite lookup_singleton_ne by congruence. reflexivity. }
  split; [reflexivity |]. split; [exact Hkeep |].
  rewrite Hkeep. intros Hempty.
  apply (f_equal (λ m : pa_proplist, m !! "canberra.volume")) in Hempty.
  rewrite lookup_singleton_eq, lookup_empty in Hempty. discriminate.
Qed.

(** The internal key that [strip_canberra_data] keeps goes out to the
    server with the play request. *)
Lemma driver_play_sends_internal_key :
  ∃ s', driver_play Samples.friendly Context 1
          (Some [("event.id", "bell"); ("canberra.volume", "0")])
          None None Scenes.idle = Ret CA_SUCCESS s' ∧
        trace s'
        = [ EvSignal;
            EvPlaySample "bell" None PA_VOLUME_NORM
              {[ "event.id" := "bell"; "canberra.volume" := "0" ]} ].
Proof.
  eexists. split; vm_compute; reflexivity.
Qed.

(** ** driver_play: argument checks *)

(** C10.  A call of [driver_play] with user data and without a callback
    returns [CA_ERROR_INVALID] and leaves the state as it was: no request is
    allocated, nothing is sent to the server. *)
Theorem driver_play_userdata_without_callback
    (pa : pulse) (c : ca_context_ptr) (id : Z) (proplist : option ca_proplist)
    (u : Z) (s : state) :
  driver_play pa c id proplist None (Some u) s = Ret CA_ERROR_INVALID s.
Proof.
  destruct c; [reflexivity |]. destruct proplist; reflexivity.
Qed.

(** ** Running the driver monad *)

(** The newest event of a trace is its last callback call, if it is one. *)
Lemma callbacks_cons e tr :
  callbacks (e :: tr) = callbacks tr ++
    match e with EvCallback _ _ err _ self _ => [(self, err)] | _ => [] end.
Proof.
  unfold callbacks. rewrite reverse_cons, omap_app. simpl.
  destruct e; reflexivity.
Qed.

(** The newest event of a trace is its last effect, if it is one. *)
Lemma effects_cons e tr :
  effects (e :: tr) = effects tr ++
    match effect_of e with Some x => [x] | None => [] end.
Proof.
  unfold effects. rewrite reverse_cons, omap_app. simpl.
  destruct (effect_of e); reflexivity.
Qed.

Ltac effects_of_trace :=
  repeat (rewrite effects_cons; simpl);
  rewrite ?app_nil_r, <- ?app_assoc; simpl.

(** Removing the head of a list of distinct nodes leaves the tail. *)
Lemma llist_remove_head o rest :
  o ∉ rest → llist_remove o (o :: rest) = rest.
Proof.
  intros Hn. unfold llist_remove.
  rewrite filter_cons_False by (intros H; now apply H).
  induction rest as [| a r IH]; [reflexivity |].
  rewrite filter_cons_True.
  - f_equal. apply IH. intros H. apply Hn. now right.
  - intros ->. apply Hn. left.
Qed.

(** Unfold the monad and its primitives, then compute. *)
Ltac run_m :=
  cbv beta iota delta
    [bind registry_remove registry_prepend get_private set_private load
     store upd call_callback outstanding_free emit ret ca_free set_heap
     registry ask crash_with];
  simpl.

(** Counting the events of a kind, newest event first. *)
Lemma count_cons f e tr :
  count f (e :: tr) = ((if f e then 1 else 0) + count f tr)%nat.
Proof.
  unfold count. destruct (f e) eqn:He.
  - rewrite filter_cons_True by assumption. reflexivity.
  - rewrite filter_cons_False by congruence. reflexivity.
Qed.

(** One round of the drain loop: the head is unlinked, its callback is
    called on the remaining list with its own id and user data, and it is
    released. *)
Lemma drain_step fuel err s p o rest out :
  c_private s = Some p → outstanding_list p = o :: rest → o ∉ rest →
  heap s !! o = Some out →
  ∃ s1, drain_outstanding (S fuel) err s = drain_outstanding fuel err s1 ∧
        c_private s1 = Some (set_outstanding_list p rest) ∧
        heap s1 = delete o (heap s) ∧
        effects (trace s1) = effects (trace s) ++ completion o out err ∧
        count sees_itself_linked (trace s1) = count sees_itself_linked (trace s).
Proof.
  intros Hp Hl Hnotin Hout. unfold completion.
  simpl. run_m. rewrite Hp, Hl. run_m. rewrite Hp. run_m.
  rewrite Hl, llist_remove_head, Hout by assumption.
  destruct (o_callback out) as [cb|]; run_m; rewrite Hout;
    destruct (o_file out) as [f|]; run_m;
      destruct (o_stream out) as [st|]; run_m;
  eexists; (split; [reflexivity|]); simpl;
    effects_of_trace; rewrite ?count_cons; simpl;
    rewrite ?bool_decide_eq_false_2 by assumption; auto.
Qed.

(** Releasing a request outside [l] does not change what completing [l]
    does. *)
Lemma owed_completions_delete h o l err :
  o ∉ l → owed_completions (delete o h) l err = owed_completions h l err.
Proof.
  intros Hn. unfold owed_completions. induction l as [|a l IH]; [reflexivity|].
  csimpl. rewrite lookup_delete_ne by (intros ->; apply Hn; left).
  rewrite IH; [reflexivity|]. intros H. apply Hn. now right.
Qed.

(** Releasing a request outside [l] does not change what [l] is owed. *)
Lemma owed_callbacks_delete h o l err :
  o ∉ l → owed_callbacks (delete o h) l err = owed_callbacks h l err.
Proof.
  intros Hn. unfold owed_callbacks. induction l as [|a l IH]; [reflexivity|].
  csimpl. rewrite lookup_delete_ne by (intros ->; apply Hn; left).
  rewrite IH; [reflexivity|]. intros H. apply Hn. now right.
Qed.

(** The drain loop on a list of distinct live requests, with enough fuel:
    it ends with the list empty, every request of the list completed (its
    callback called when it has one, with the request's own function, id
    and user data; its file closed, its stream disconnected) and released,
    in list order, no callback on a request still linked. *)
Lemma drain_spec l : ∀ fuel err s p,
  c_private s = Some p → outstanding_list p = l → registry_wf (heap s) l →
  (length l ≤ fuel)%nat →
  ∃ s', drain_outstanding fuel err s = Ret tt s' ∧
        c_private s' = Some (set_outstanding_list p []) ∧
        (∀ a, heap s' !! a = if decide (a ∈ l) then None else heap s !! a) ∧
        effects (trace s') = effects (trace s) ++ owed_completions (heap s) l err ∧
        count sees_itself_linked (trace s') = count sees_itself_linked (trace s).
Proof.
  induction l as [|o rest IH]; intros fuel err s p Hp Hl [Hnd Hlive] Hfuel.
  - exists s. split.
    { destruct fuel; simpl; run_m; rewrite Hp, Hl; reflexivity. }
    split. { rewrite Hp, <- Hl. destruct p; reflexivity. }
    split. { intros a. rewrite decide_False; [reflexivity | apply not_elem_of_nil]. }
    split; [| reflexivity].
    unfold owed_completions. simpl. now rewrite app_nil_r.
  - destruct fuel as [|fuel]; [simpl in Hfuel; lia|].
    destruct (Hlive o) as [out Hout]; [left|].
    apply NoDup_cons in Hnd as [Hnotin Hnd].
    destruct (drain_step fuel err s p o rest out Hp Hl Hnotin Hout)
      as (s1 & Hrun & Hp1 & Hh1 & Hcb1 & Hself1).
    destruct (IH fuel err s1 (set_outstanding_list p rest) Hp1 eq_refl)
      as (s' & Hrun' & Hp' & Hh' & Hcb' & Hself').
    { split; [assumption|]. intros a Ha. rewrite Hh1.
      rewrite lookup_delete_ne by (intros ->; contradiction).
      apply Hlive. now right. }
    { simpl in Hfuel. lia. }
    exists s'. split; [now rewrite Hrun|]. split; [exact Hp'|].
    split.
    { intros a. rewrite Hh', Hh1.
      destruct (decide (a = o)) as [->|Hne].
      - rewrite lookup_delete_eq. rewrite (decide_True (P := o ∈ o :: rest)) by left.
        now destruct (decide _).
      - rewrite lookup_delete_ne by congruence.
        apply decide_ext. rewrite elem_of_cons. tauto. }
    split; [| congruence].
    rewrite Hcb', Hcb1, Hh1, owed_completions_delete by assumption.
    rewrite <- app_assoc. f_equal. unfold owed_completions. csimpl.
    now rewrite Hout.
Qed.

(** The drain loop empties the list of an open context. *)
Lemma drain_outstanding_empties_registry (s : state) (p : private) (err : Z) :
  c_private s = Some p → registry_wf (heap s) (outstanding_list p) →
  ∃ s', drain_outstanding (length (outstanding_list p)) err s = Ret tt s' ∧
        c_private s' ≠ None ∧ registry s' = [].
Proof.
  intros Hp Hwf.
  destruct (drain_spec (outstanding_list p) (length (outstanding_list p)) err
              s p Hp eq_refl Hwf (le_n _)) as (s' & Hrun & Hp' & _).
  exists s'. split; [exact Hrun |]. unfold registry. rewrite Hp'.
  split; [discriminate | reflexivity].
Qed.

(** ** driver_destroy *)

Lemma busy_wf :
  registry_wf (heap Further.busy) (outstanding_list Further.busy_private).
Proof.
  split.
  - simpl. repeat (apply NoDup_cons; split);
      [ | | | apply NoDup_nil_2 ];
      intros H; repeat (apply elem_of_cons in H as [H | H]; [discriminate |]);
      now apply not_elem_of_nil in H.
  - intros a Ha. simpl in Ha.
    repeat (apply elem_of_cons in Ha as [-> | Ha]; [vm_compute; eauto |]).
    now apply not_elem_of_nil in Ha.
Qed.

(** C8.  Destroying an open context whose registry holds distinct live
    requests succeeds and completes every request of the registry, in list
    order: the callback of each request that has one is called exactly
    once, as [out->callback (c, out->id, CA_ERROR_DESTROYED,
    out->userdata)] with the request's own function, id and user data; its
    sound file is closed and its stream disconnected.  Nothing else is
    called, closed or disconnected.  Every request of the registry, and no
    other, is released, no registry is left behind, and no callback finds
    its request still linked. *)
Theorem driver_destroy_drains_registry (s : state) (p : private) :
  c_private s = Some p →
  registry_wf (heap s) (outstanding_list p) →
  ∃ s', driver_destroy Context s = Ret CA_SUCCESS s' ∧
        c_private s' = None ∧
        registry s' = [] ∧
        effects (trace s') =
          effects (trace s) ++
          owed_completions (heap s) (outstanding_list p) CA_ERROR_DESTROYED ∧
        (∀ a, a ∈ outstanding_list p → heap s' !! a = None) ∧
        (∀ a, a ∉ outstanding_list p → heap s' !! a = heap s !! a) ∧
        count sees_itself_linked (trace s') =
          count sees_itself_linked (trace s).
Proof.
  intros Hp Hwf. unfold driver_destroy. run_m. rewrite Hp.
  destruct (mainloop p) as [ml |]; run_m;
    match goal with
    | |- context [drain_outstanding ?n ?e ?st] =>
        destruct (drain_spec (outstanding_list p) n e st p)
          as (s1 & Hrun & Hp1 & Hh1 & Hc1 & Hn1);
          [simpl; auto | reflexivity | exact Hwf | lia |]
    end;
    rewrite Hrun; simpl in Hh1, Hc1, Hn1;
    rewrite ?effects_cons in Hc1; rewrite ?count_cons in Hn1;
    simpl in Hc1, Hn1; rewrite ?app_nil_r in Hc1;
    destruct (context p) as [ctx |]; run_m; eexists;
    (split; [reflexivity |]); simpl;
    rewrite ?effects_cons, ?count_cons; simpl; rewrite ?app_nil_r;
    rewrite Hc1, Hn1;
    (repeat split; try reflexivity;
     intros a Ha; rewrite Hh1;
     first [ rewrite decide_True by assumption
           | rewrite decide_False by assumption ];
     reflexivity).
Qed.

Lemma driver_destroy_drains_registry_witness :
  c_private Further.busy = Some Further.busy_private ∧
  registry_wf (heap Further.busy) (outstanding_list Further.busy_private) ∧
  ∃ s', driver_destroy Context Further.busy = Ret CA_SUCCESS s' ∧
        c_private s' = None ∧
        registry s' = [] ∧
        effects (trace s') =
          effects (trace Further.busy) ++
          owed_completions (heap Further.busy)
            (outstanding_list Further.busy_private) CA_ERROR_DESTROYED ∧
        (∀ a, a ∈ outstanding_list Further.busy_private →
              heap s' !! a = None) ∧
        (∀ a, a ∉ outstanding_list Further.busy_private →
              heap s' !! a = heap Further.busy !! a) ∧
        count sees_itself_linked (trace s') =
          count sees_itself_linked (trace Further.busy).
Proof.
  split; [reflexivity |]. split; [exact busy_wf |].
  exact (driver_destroy_drains_registry Further.busy Further.busy_private
           eq_refl busy_wf).
Defined.

(** ** driver_cancel *)

(** [CA_LLIST_REMOVE] leaves no link to the removed node. *)
Lemma llist_remove_unlinks (o : addr) (l : list addr) : o ∉ llist_remove o l.
Proof.
  unfold llist_remove. intros H. apply list_elem_of_filter in H as [H _].
  now apply H.
Qed.

(** C1.  On every path but one the driver unlinks a request before it calls
    the request's callback; [driver_cancel] calls the callback first (line
    829) and unlinks afterwards (line 831).  Cancelling request 1 of a
    registry that holds just that request calls its callback while the
    registry still holds it; destroying the same context calls the callback
    on an empty registry. *)
Theorem driver_cancel_callback_sees_request_linked :
  ∃ s', driver_cancel Samples.friendly Context 1 Scenes.one_request
          = Ret CA_SUCCESS s' ∧
        trace s' = [ EvCallback 1%positive 1 CA_ERROR_CANCELED None
                       5%positive [5%positive];
                     EvKillSinkInput 7 ] ∧
        count sees_itself_linked (trace s') = 1%nat ∧
        registry s' = [] ∧
        count sees_itself_linked
          (trace (final_state (driver_destroy Context Scenes.one_request)))
          = 0%nat.
Proof.
  eexists. split; [vm_compute; reflexivity |].
  repeat split; vm_compute; reflexivity.
Qed.

(** C7.  [driver_cancel] walks the whole registry and completes every
    matching request, but what it returns after a kill that succeeded is
    whatever the unassigned [ret2] holds: with a server that accepts the
    kill and a stack slot that reads [CA_ERROR_IO], cancelling request 1
    completes it with [CA_ERROR_CANCELED], empties the registry, and returns
    [CA_ERROR_IO] although no kill failed. *)
Theorem driver_cancel_returns_indeterminate_value :
  (∀ tr, pa_context_kill_sink_input Scenes.stale_stack tr = OpStarted) ∧
  ∃ s', driver_cancel Scenes.stale_stack Context 1 Scenes.one_request
          = Ret CA_ERROR_IO s' ∧
        CA_ERROR_IO ≠ CA_SUCCESS ∧
        callbacks (trace s') = [(5%positive, CA_ERROR_CANCELED)] ∧
        registry s' = [] ∧
        heap s' !! 5%positive = None.
Proof.
  split; [reflexivity |].
  eexists. split; [vm_compute; reflexivity |].
  split; [discriminate |]. repeat split; vm_compute; reflexivity.
Qed.

(** ** subscribe *)

(** A call on a context that is subscribed returns [CA_SUCCESS] and does
    nothing. *)
Lemma subscribe_again (pa : pulse) (s : state) (p : private) :
  c_private s = Some p → mainloop p ≠ None → context p ≠ None →
  subscribed p = true →
  subscribe pa Context s = Ret CA_SUCCESS s.
Proof.
  intros Hp Hm Hc Hs. unfold subscribe. run_m. rewrite Hp.
  destruct (decide (mainloop p = None)); [contradiction |].
  destruct (decide (context p = None)); [contradiction |].
  now rewrite Hs.
Qed.

(** The first call sends one subscription request and sets the flag,
    whatever the server answers. *)
Lemma subscribe_first (pa : pulse) (s : state) (p : private) :
  c_private s = Some p → mainloop p ≠ None → context p ≠ None →
  subscribed p = false →
  let s' := final_state (subscribe pa Context s) in
  trace s' = EvSubscribe :: trace s ∧
  (pa_context_subscribe pa (EvSubscribe :: trace s) = OpStarted →
   subscribe pa Context s
   = Ret (indeterminate pa (EvSubscribe :: trace s)) s' ∧
   c_private s' = Some (set_subscribed p true)).
Proof.
  intros Hp Hm Hc Hs. unfold subscribe. run_m. rewrite Hp.
  destruct (decide (mainloop p = None)); [contradiction |].
  destruct (decide (context p = None)); [contradiction |].
  rewrite Hs. run_m.
  destruct (pa_context_subscribe pa (EvSubscribe :: trace s)) as [| errno].
  - split; [reflexivity |]. intros _. split; reflexivity.
  - unfold translate. destruct (translate_error pa errno); run_m;
      (split; [reflexivity | discriminate]).
Qed.

(** [subscribe] never clears the flag. *)
Lemma subscribe_flag_monotone (pa : pulse) (c : ca_context_ptr) (s : state)
    (p : private) :
  c_private s = Some p → subscribed p = true →
  ∃ p', c_private (final_state (subscribe pa c s)) = Some p' ∧
        subscribed p' = true.
Proof.
  intros Hp Hs. exists p. unfold subscribe. destruct c; [now split |].
  run_m. rewrite Hp.
  destruct (decide (mainloop p = None)); [now split |].
  destruct (decide (context p = None)); [now split |].
  rewrite Hs. now split.
Qed.

(** The sibling of [subscribe]: when the update request is issued,
    [driver_change_props] returns [CA_SUCCESS], whatever the stack holds. *)
Lemma driver_change_props_issued (pa : pulse) (changed merged : ca_proplist)
    (l : pa_proplist) (s : state) :
  context_open s →
  convert_proplist pa (Some changed) = inr l →
  pa_context_proplist_update pa
    (EvProplistUpdate (strip_canberra_data l) :: trace s) = OpStarted →
  ∃ s', driver_change_props pa Context (Some changed) (Some merged) s
        = Ret CA_SUCCESS s' ∧
        trace s' = EvProplistUpdate (strip_canberra_data l) :: trace s.
Proof.
  intros (p & Hp & Hm & Hc) Hconv Hop. unfold driver_change_props.
  rewrite Hconv. run_m. rewrite Hp.
  destruct (decide (mainloop p = None)); [contradiction |].
  destruct (decide (context p = None)); [contradiction |].
  run_m. rewrite Hop. eexists. split; reflexivity.
Qed.

(** C9.  A second [subscribe] sends nothing and returns [CA_SUCCESS], and
    the flag stays set; the first call, however, returns the unassigned
    [ret] when the subscription request was issued: with a stack slot that
    reads [CA_ERROR_IO] the first call on an idle context sends the request,
    sets the flag and returns [CA_ERROR_IO]. *)
Theorem subscribe_first_call_returns_indeterminate_value :
  (∀ tr, pa_context_subscribe Scenes.stale_stack tr = OpStarted) ∧
  ∃ s', subscribe Scenes.stale_stack Context Scenes.idle = Ret CA_ERROR_IO s' ∧
        CA_ERROR_IO ≠ CA_SUCCESS ∧
        trace s' = [EvSubscribe] ∧
        subscribed <$> c_private s' = Some true ∧
        subscribe Scenes.stale_stack Context s' = Ret CA_SUCCESS s'.
Proof.
  split; [reflexivity |].
  eexists. split; [vm_compute; reflexivity |].
  split; [discriminate |]. repeat split; vm_compute; reflexivity.
Qed.

(** ** driver_cache *)

(** Line 889 compares the string pointer, so that a property that is
    present never takes the exit, whatever it says. *)
Lemma cache_control_test_on_present (ct : string) (cc : ca_cache_control_t) :
  string_ptr_eq_int (Some ct) (cache_control_value cc) = false.
Proof. reflexivity. Qed.

(** C4.  [driver_cache] is meant to refuse a cache-control of "never", but
    line 889 tests the pointer to the property string instead of the parsed
    value: a request for "bell" with cache-control "never" is looked up,
    gets an upload stream and returns [CA_SUCCESS]. *)
Theorem driver_cache_uploads_despite_never :
  ca_parse_cache_control "never" = Some CA_CACHE_CONTROL_NEVER ∧
  ∃ s', driver_cache Samples.friendly Context (Some Scenes.bell_never)
          Scenes.idle = Ret CA_SUCCESS s' ∧
        CA_SUCCESS ≠ CA_ERROR_INVALID ∧
        cache_uploads (trace s') = 1%nat ∧
        count is_lookup_sound (trace s') = 1%nat.
Proof.
  split; [reflexivity |].
  eexists. split; [vm_compute; reflexivity |].
  split; [discriminate |]. split; vm_compute; reflexivity.
Qed.

(** ** driver_play: how much is sent *)

Lemma within_bind {A B} a1 b1 a2 b2 (m : M A) (k : A → M B) :
  within a1 b1 m → (∀ x, within a2 b2 (k x)) → within (a1 + a2) (b1 + b2) (bind m k).
Proof.
  intros Hm Hk s. unfold bind. specialize (Hm s).
  destruct (m s) as [x s1 | w s1]; simpl in *.
  - specialize (Hk x s1). lia.
  - lia.
Qed.

Lemma within_weaken {A} a b a' b' (m : M A) :
  within a b m → (a ≤ a')%nat → (b ≤ b')%nat → within a' b' m.
Proof. intros Hm Ha Hb s. specialize (Hm s). lia. Qed.

Ltac count_events :=
  unfold play_attempts, cache_uploads; simpl;
  repeat (rewrite count_cons; simpl); lia.

Ltac brute :=
  intros ?; run_m;
  repeat (first [ progress run_m | case_match; simplify_eq/= ]);
  simpl; count_events.


Lemma within_zero {A} a b (m : M A) : within 0 0 m → within a b m.
Proof. intros Hm. apply (within_weaken 0 0); [assumption | lia | lia]. Qed.

Lemma within_bind_silent {A B} a b (m : M A) (k : A → M B) :
  within 0 0 m → (∀ x, within a b (k x)) → within a b (bind m k).
Proof. intros Hm Hk. now apply (within_bind 0 0 a b). Qed.

Ltac silent :=
  cbv beta delta [translate set_theme_cache outstanding_free play_sample_cb
                  subscribe];
  brute.

Ltac wstep :=
  lazymatch goal with
  | |- within _ _ (bind ?m _) =>
      apply within_bind_silent; [solve [silent] | intros ?]
  | |- within _ _ (match ?x with _ => _ end) => destruct x
  | |- within _ _ _ => apply within_zero; solve [silent]
  end.

Lemma within_cache_upload pa o items : within 0 1 (cache_upload pa o items).
Proof. unfold cache_upload, translate, set_theme_cache. brute. Qed.

Lemma within_driver_cache pa c proplist : within 0 1 (driver_cache pa c proplist).
Proof.
  unfold driver_cache. repeat wstep.
  apply (within_bind 0 1 0 0); [apply within_cache_upload | intros r].
  repeat wstep.
Qed.

Lemma within_play_prepare pa c items cb : within 0 0 (play_prepare pa c items cb).
Proof. unfold play_prepare. repeat wstep. Qed.

Lemma within_play_stream pa o items pl : within 0 0 (play_stream pa o items pl).
Proof. unfold play_stream. repeat wstep. Qed.

Lemma within_play_finish o cb r : within 0 0 (play_finish o cb r).
Proof. unfold play_finish. repeat wstep. Qed.

Lemma within_play_loop pa c items o pl : ∀ fuel try r,
  within (Z.to_nat (Z.max try 1)) (Z.to_nat (Z.max try 1) - 1)
    (play_loop pa fuel c items o pl try r).
Proof.
  induction fuel as [| fuel IH]; intros try r; simpl.
  - apply within_zero. brute.
  - wstep.
    apply (within_weaken (1 + (Z.to_nat (Z.max try 1) - 1))
             (0 + (Z.to_nat (Z.max try 1) - 1))); [| lia | lia].
    apply within_bind; [brute |]. intros _.
    wstep. wstep; [repeat wstep |].
    wstep. wstep. wstep; [wstep |]. wstep; [wstep |].
    destruct (decide (try - 1 ≤ 0)) as [Hle | Hgt]; [wstep |].
    apply (within_weaken (0 + Z.to_nat (Z.max (try - 1) 1))
             (1 + (Z.to_nat (Z.max (try - 1) 1) - 1))); [| lia | lia].
    apply within_bind; [apply within_driver_cache |]. intros r'.
    destruct (decide (r' < 0)); [wstep |]. apply IH.
Qed.

Lemma within_driver_play pa c id proplist cb userdata :
  within 3 2 (driver_play pa c id proplist cb userdata).
Proof.
  unfold driver_play. repeat wstep.
  apply within_bind_silent; [apply within_play_prepare |]. intros pr.
  destruct pr as [r | pl]; [apply within_zero, within_play_finish |].
  apply (within_bind 3 2 0 0);
    [apply (within_play_loop pa _ _ _ _ _ play_tries) |].
  intros ex. destruct ex as [r |]; [apply within_play_finish |].
  apply within_bind_silent; [apply within_play_stream |]. intros r.
  apply within_play_finish.
Qed.

(** ** driver_play: the retry loop ends *)

Lemma terminates_bind {A B} (m : M A) (k : A → M B) :
  terminates m → (∀ x, terminates (k x)) → terminates (bind m k).
Proof.
  intros Hm Hk s s'. unfold bind.
  destruct (m s) as [x s1 | w s1] eqn:Hrun.
  - apply Hk.
  - intros [= -> ->]. now apply (Hm s s').
Qed.

Ltac term_leaf :=
  cbv beta delta [translate set_theme_cache outstanding_free play_sample_cb
                  subscribe cache_upload];
  intros ? ?; run_m;
  repeat (first [ progress run_m | case_match; simplify_eq/= ]);
  discriminate.

Ltac tstep :=
  lazymatch goal with
  | |- terminates (bind ?m _) =>
      apply terminates_bind; [solve [term_leaf] | intros ?]
  | |- terminates (match ?x with _ => _ end) => destruct x
  | |- terminates _ => solve [term_leaf]
  end.

Lemma terminates_driver_cache pa c proplist :
  terminates (driver_cache pa c proplist).
Proof. unfold driver_cache. repeat tstep. Qed.

Lemma terminates_play_loop pa c items o pl : ∀ fuel try r,
  (Z.to_nat (Z.max try 1) ≤ fuel)%nat →
  terminates (play_loop pa fuel c items o pl try r).
Proof.
  induction fuel as [| fuel IH]; intros try r Hfuel; [lia |]. simpl.
  repeat tstep.
  apply terminates_bind; [apply terminates_driver_cache |]. intros r'.
  tstep; [tstep |]. apply IH. lia.
Qed.

Lemma terminates_driver_play pa c id proplist cb userdata :
  terminates (driver_play pa c id proplist cb userdata).
Proof.
  unfold driver_play. repeat tstep.
  apply terminates_bind; [unfold play_prepare; repeat tstep |]. intros pr.
  destruct pr as [r | pl]; [unfold play_finish; repeat tstep |].
  apply terminates_bind;
    [apply terminates_play_loop; unfold play_tries; lia |].
  intros ex. destruct ex as [r |]; [unfold play_finish; repeat tstep |].
  apply terminates_bind; [unfold play_stream; repeat tstep |]. intros r.
  unfold play_finish; repeat tstep.
Qed.

(** ** driver_play: the rounds of the retry loop *)

Local Arguments count : simpl never.

Ltac exec := repeat (progress (run_m; rewrite ?lookup_insert_eq)).

Ltac count_sends :=
  unfold sends, play_attempts, cache_uploads in *; simpl;
  repeat (rewrite count_cons; simpl); unfold count in *; lia.

Lemma sends_trans a b c a' b' c' s s1 s2 :
  sends a b c s s1 → sends a' b' c' s1 s2 →
  sends (a + a') (b + b') (c + c') s s2.
Proof. unfold sends. lia. Qed.

Lemma final_state_bind {A B} (m : M A) (k : A → M B) (s : state) :
  final_state (bind m k s) =
  match m s with
  | Ret a s1 => final_state (k a s1)
  | Crash _ s1 => s1
  end.
Proof. unfold bind. now destruct (m s). Qed.

Lemma driver_cache_success pa items s :
  uploads_succeed pa items → context_open s →
  ∃ s', driver_cache pa Context (Some items) s = Ret CA_SUCCESS s' ∧
        context_open s' ∧
        c_device s' = c_device s ∧
        next_addr s' = Pos.succ (next_addr s) ∧
        (∀ a, a ≠ next_addr s → heap s' !! a = heap s !! a) ∧
        sends 0 1 1 s s'.
Proof.
  intros ((l & name & ct & cc & Hconv & Hname & Hct & Hcc)
          & Hlk & Hsn & Hcn & Hw) (p & Hp & Hm & Hc).
  unfold driver_cache. run_m. rewrite Hp.
  destruct (decide (mainloop p = None)); [contradiction |].
  destruct (decide (context p = None)); [contradiction |].
  unfold ca_new0_outstanding. exec.
  unfold cache_upload. rewrite Hconv, Hname, Hct, Hcc. simpl. exec.
  match goal with |- context [ca_lookup_sound pa ?tr] =>
    destruct (Hlk tr) as (f & th & ->) end.
  exec. unfold set_theme_cache. exec. rewrite Hp. exec.
  match goal with |- context [pa_stream_new_with_proplist pa ?tr] =>
    destruct (Hsn tr) as (st & ->) end.
  exec. rewrite Hcn.
  match goal with |- context [pa_stream_wait_upload pa ?tr] =>
    destruct (Hw tr) as (w & ->) end.
  destruct w as [e |]; exec;
    (eexists; split; [reflexivity |]); simpl.
  all: split; [exists (set_theme p th); auto |].
  all: split; [reflexivity |]. all: split; [reflexivity |].
  all: split; [| count_sends].
  all: intros a Ha; rewrite lookup_delete_ne by congruence;
       rewrite !lookup_insert_ne by congruence; reflexivity.
Qed.

Local Arguments driver_cache : simpl never.

Lemma play_loop_retry pa fuel items o pl try r s :
  loop_ready o s → uploads_succeed pa items →
  pl_cache_control pl ≠ CA_CACHE_CONTROL_NEVER → 0 < try - 1 →
  not_found pa (pa_context_play_sample_with_proplist pa (play_request pl s)) →
  ∃ s1, play_loop pa (S fuel) Context items o pl try r s
        = play_loop pa fuel Context items o pl (try - 1) CA_SUCCESS s1 ∧
        loop_ready o s1 ∧ c_device s1 = c_device s ∧ sends 1 1 1 s s1.
Proof.
  intros (Hopen & [out Hout] & Hlt) Hup Hcc Htry (errno & Hreply & Herr).
  unfold play_request in Hreply.
  simpl. exec. rewrite Hreply. unfold play_sample_cb, translate.
  repeat (progress (run_m; rewrite ?lookup_insert_eq, ?Hout, ?Herr)).
  rewrite (decide_False (P := pl_cache_control pl = CA_CACHE_CONTROL_NEVER))
    by assumption.
  rewrite (decide_False (P := try - 1 ≤ 0)) by lia.
  match goal with |- context [driver_cache pa Context (Some items) ?st] =>
    destruct (driver_cache_success pa items st Hup)
      as (s1 & Hrun & Hopen1 & Hdev1 & Hnext1 & Hheap1 & Hsent1);
      [destruct Hopen as (p & ? & ? & ?); exists p; auto |]
  end.
  rewrite Hrun. rewrite decide_False by (unfold_codes; lia).
  exists s1. split; [reflexivity |]. simpl in *.
  split.
  { split; [assumption |]. split.
    - rewrite Hheap1 by lia. rewrite lookup_insert_eq. eauto.
    - rewrite Hnext1. lia. }
  split; [assumption |]. revert Hsent1. count_sends.
Qed.

Lemma play_request_attempts pl s :
  play_attempts (play_request pl s) = S (play_attempts (trace s)).
Proof. unfold play_request, play_attempts. now rewrite count_cons. Qed.

Lemma play_loop_exhausted pa fuel items o pl try r s :
  loop_ready o s → try - 1 ≤ 0 →
  not_found pa (pa_context_play_sample_with_proplist pa (play_request pl s)) →
  ∃ s1, play_loop pa (S fuel) Context items o pl try r s = Ret Break s1 ∧
        loop_ready o s1 ∧ sends 1 0 0 s s1.
Proof.
  intros (Hopen & [out Hout] & Hlt) Htry (errno & Hreply & Herr).
  unfold play_request in Hreply.
  simpl. exec. rewrite Hreply. unfold play_sample_cb, translate.
  repeat (progress (run_m; rewrite ?lookup_insert_eq, ?Hout, ?Herr)).
  destruct (decide (pl_cache_control pl = CA_CACHE_CONTROL_NEVER));
    [| rewrite (decide_True (P := try - 1 ≤ 0)) by lia];
    (eexists; split; [reflexivity |]); (split; [| count_sends]);
    (split; [exact Hopen |]); simpl; rewrite lookup_insert_eq; eauto.
Qed.

Lemma play_loop_played pa fuel items o pl try r s :
  loop_ready o s →
  played (pa_context_play_sample_with_proplist pa (play_request pl s)) →
  ∃ s1, play_loop pa (S fuel) Context items o pl try r s
        = Ret (GotoFinish r) s1 ∧
        loop_ready o s1 ∧ sends 1 0 0 s s1.
Proof.
  intros (Hopen & [out Hout] & Hlt) (idx & errno & Hreply & Hidx).
  unfold play_request in Hreply.
  simpl. exec. rewrite Hreply. unfold play_sample_cb.
  rewrite (decide_True (P := idx ≠ PA_INVALID_INDEX)) by assumption.
  repeat (progress (run_m; rewrite ?lookup_insert_eq, ?Hout)).
  eexists; split; [reflexivity |]. split; [| count_sends].
  split; [exact Hopen |]. simpl. rewrite lookup_insert_eq. eauto.
Qed.

(** A named-sample request that the server answers with an error other
    than "not found" leaves the loop with the [ret] it was entered with:
    the error goes into the request, not into [ret]. *)
Lemma play_loop_refused (pa : pulse) (fuel : nat) (items : ca_proplist)
    (o : addr) (pl : play_locals) (try r : Z) (s : state) (errno e : Z) :
  loop_ready o s →
  pa_context_play_sample_with_proplist pa (play_request pl s)
    = PlayDone PA_INVALID_INDEX errno →
  translate_error pa errno = Some e → e ≠ CA_ERROR_NOTFOUND →
  ∃ s1 out, play_loop pa (S fuel) Context items o pl try r s
            = Ret (GotoFinish r) s1 ∧
            heap s1 !! o = Some out ∧ o_error out = e.
Proof.
  intros (Hopen & [out Hout] & Hlt) Hreply Herr Hne.
  unfold play_request in Hreply.
  simpl. exec. rewrite Hreply. unfold play_sample_cb, translate.
  repeat (progress (run_m; rewrite ?lookup_insert_eq, ?Hout, ?Herr)).
  rewrite (decide_True (P := e ≠ CA_ERROR_NOTFOUND)) by assumption.
  eexists _, _. split; [reflexivity |]. simpl.
  rewrite lookup_insert_eq. split; reflexivity.
Qed.

(** The retry loop when the sample stays missing. *)
Lemma play_loop_always_missing pa items o pl r s :
  loop_ready o s → uploads_succeed pa items →
  pl_cache_control pl ≠ CA_CACHE_CONTROL_NEVER →
  (∀ tr, not_found pa (pa_context_play_sample_with_proplist pa tr)) →
  ∃ s', play_loop pa (Z.to_nat play_tries) Context items o pl play_tries r s
        = Ret Break s' ∧
        loop_ready o s' ∧ sends 3 2 2 s s'.
Proof.
  intros Hready Hup Hcc Hnf.
  change (Z.to_nat play_tries) with 3%nat. unfold play_tries.
  destruct (play_loop_retry pa 2 items o pl 3 r s Hready Hup Hcc)
    as (s1 & -> & Hready1 & _ & Hs1); [lia | apply Hnf |].
  destruct (play_loop_retry pa 1 items o pl (3 - 1) CA_SUCCESS s1
              Hready1 Hup Hcc)
    as (s2 & -> & Hready2 & _ & Hs2); [lia | apply Hnf |].
  destruct (play_loop_exhausted pa 0 items o pl (3 - 1 - 1) CA_SUCCESS s2
              Hready2)
    as (s3 & -> & Hready3 & Hs3); [lia | apply Hnf |].
  exists s3. split; [reflexivity |]. split; [assumption |].
  exact (sends_trans _ _ _ _ _ _ _ _ _ (sends_trans _ _ _ _ _ _ _ _ _ Hs1 Hs2)
           Hs3).
Qed.

(** The retry loop when the sample is missing twice and found the third
    time. *)
Lemma play_loop_third_time pa items o pl r s :
  loop_ready o s → uploads_succeed pa items →
  pl_cache_control pl ≠ CA_CACHE_CONTROL_NEVER →
  (∀ tr, (play_attempts tr ≤ play_attempts (trace s) + 2)%nat →
         not_found pa (pa_context_play_sample_with_proplist pa tr)) →
  (∀ tr, play_attempts tr = (play_attempts (trace s) + 3)%nat →
         played (pa_context_play_sample_with_proplist pa tr)) →
  ∃ s', play_loop pa (Z.to_nat play_tries) Context items o pl play_tries r s
        = Ret (GotoFinish CA_SUCCESS) s' ∧
        loop_ready o s' ∧ sends 3 2 2 s s'.
Proof.
  intros Hready Hup Hcc Hnf Hok.
  change (Z.to_nat play_tries) with 3%nat. unfold play_tries.
  destruct (play_loop_retry pa 2 items o pl 3 r s Hready Hup Hcc)
    as (s1 & -> & Hready1 & _ & Hs1);
    [lia | apply Hnf; rewrite play_request_attempts; lia |].
  destruct (play_loop_retry pa 1 items o pl (3 - 1) CA_SUCCESS s1
              Hready1 Hup Hcc)
    as (s2 & -> & Hready2 & _ & Hs2);
    [lia | apply Hnf; rewrite play_request_attempts; unfold sends in Hs1; lia |].
  destruct (play_loop_played pa 0 items o pl (3 - 1 - 1) CA_SUCCESS s2 Hready2)
    as (s3 & -> & Hready3 & Hs3);
    [apply Hok; rewrite play_request_attempts; unfold sends in Hs1, Hs2; lia |].
  exists s3. split; [reflexivity |]. split; [assumption |].
  exact (sends_trans _ _ _ _ _ _ _ _ _ (sends_trans _ _ _ _ _ _ _ _ _ Hs1 Hs2)
           Hs3).
Qed.

(** ** driver_play: from the call to the retry loop and on *)

Local Arguments play_loop : simpl never.
Local Arguments subscribe : simpl never.

(** An accepted request whose properties permit retries reaches the retry
    loop with three tries, having sent nothing. *)
Lemma driver_play_reaches_loop pa id items cb userdata s :
  context_open s → (cb = None → userdata = None) →
  retries_permitted pa items → subscription_settled cb s →
  ∃ pl s1,
    driver_play pa Context id (Some items) cb userdata s =
    (let* ex := play_loop pa (Z.to_nat play_tries) Context items
                  (next_addr s) pl play_tries CA_SUCCESS in
     match ex with
     | GotoFinish r => play_finish (next_addr s) cb r
     | Break =>
         let* r := play_stream pa (next_addr s) items pl in
         play_finish (next_addr s) cb r
     end) s1 ∧
    pl_cache_control pl ≠ CA_CACHE_CONTROL_NEVER ∧
    loop_ready (next_addr s) s1 ∧ sends 0 0 0 s s1.
Proof.
  intros (p & Hp & Hm & Hc) Hud
         (l & name & v & ct & cc & Hconv & Hname & Hvol & Hct & Hparse & Hcc)
         Hsub.
  assert (Hargs : bool_decide (userdata ≠ None) && bool_decide (cb = None)
                  = false).
  { destruct cb as [f |]; [now rewrite andb_false_r |].
    rewrite (Hud eq_refl). reflexivity. }
  unfold driver_play. rewrite Hargs. run_m. rewrite Hp.
  destruct (decide (mainloop p = None)); [contradiction |].
  destruct (decide (context p = None)); [contradiction |].
  unfold ca_new0_outstanding. exec.
  unfold play_prepare. rewrite Hconv, Hname, Hvol, Hct, Hparse. exec.
  assert (Hsubscribe :
            ∀ st, c_private st = Some p →
                  match cb with
                  | Some _ => subscribe pa Context
                  | None => ret CA_SUCCESS
                  end st = Ret CA_SUCCESS st).
  { intros st Hst. destruct cb as [f |]; [| reflexivity].
    destruct Hsub as [[=] | (p' & Hp' & Hsubscribed)].
    apply (subscribe_again pa st p); try assumption. congruence. }
  rewrite Hsubscribe by exact Hp. exec.
  eexists _, _. split; [reflexivity |].
  split; [exact Hcc |]. split; [| count_sends].
  split; [exists p; auto |]. simpl. rewrite lookup_insert_eq.
  split; [eauto | lia].
Qed.

(** Direct streaming starts with one sound-file lookup and sends no
    named-sample request and no upload. *)
Lemma play_stream_sends pa o items pl s :
  is_Some (heap s !! o) →
  sends 0 0 1 s (final_state (play_stream pa o items pl s)).
Proof.
  intros [out Hout]. unfold play_stream, set_theme_cache, translate.
  repeat (progress (run_m; rewrite ?lookup_insert_eq, ?Hout)).
  repeat (first [ progress (run_m; rewrite ?lookup_insert_eq)
                | case_match; simplify_eq/= ]);
    count_sends.
Qed.

(** The [finish] label sends nothing that is counted. *)
Lemma play_finish_sends o cb r s :
  sends 0 0 0 s (final_state (play_finish o cb r s)).
Proof.
  unfold play_finish, outstanding_free.
  repeat (first [ progress run_m | case_match; simplify_eq/= ]);
    count_sends.
Qed.

(** When it returns from an open context, [play_finish] returns the [ret]
    it was given. *)
Lemma play_finish_returns o cb r s :
  loop_ready o s → ∃ s', play_finish o cb r s = Ret r s'.
Proof.
  intros ((p & Hp & _) & [out Hout] & _). unfold play_finish, outstanding_free.
  repeat (progress (run_m; rewrite ?lookup_insert_eq, ?Hout, ?Hp)).
  repeat (first [ progress (run_m; rewrite ?lookup_insert_eq, ?Hout, ?Hp)
                | case_match; simplify_eq/= ]);
    eauto.
Qed.

(** The retry bound.  [driver_play] sends at most three named-sample play
    requests and at most two cache uploads, whatever the server answers,
    and its retry loop never runs on.  When [driver_play] has no
    subscription request to send (no callback, or a context that is
    subscribed already), for a request whose cache control permits retries,
    with uploads that go through: when the server reports "not found" every
    time, [driver_play] makes exactly three attempts and two uploads and
    then turns to direct streaming (a third sound-file lookup); when the
    server reports "not found" twice and plays the sample on the third
    attempt, [driver_play] returns [CA_SUCCESS] after exactly two uploads
    and no further lookup.  Both scenarios are also run for a "bell"
    request with cache-control "volatile" and a callback on a context that
    is not yet subscribed. *)
Theorem driver_play_retry_bound :
  (∀ pa c id proplist cb userdata s,
     (∀ s', driver_play pa c id proplist cb userdata s ≠ Crash OutOfFuel s') ∧
     (play_attempts
        (trace (final_state (driver_play pa c id proplist cb userdata s)))
      ≤ play_attempts (trace s) + 3)%nat ∧
     (cache_uploads
        (trace (final_state (driver_play pa c id proplist cb userdata s)))
      ≤ cache_uploads (trace s) + 2)%nat) ∧
  (∀ pa id items cb userdata s,
     context_open s → (cb = None → userdata = None) →
     retries_permitted pa items → subscription_settled cb s →
     uploads_succeed pa items →
     (∀ tr, not_found pa (pa_context_play_sample_with_proplist pa tr)) →
     let s' := final_state
                 (driver_play pa Context id (Some items) cb userdata s) in
     play_attempts (trace s') = (play_attempts (trace s) + 3)%nat ∧
     cache_uploads (trace s') = (cache_uploads (trace s) + 2)%nat ∧
     count is_lookup_sound (trace s')
     = (count is_lookup_sound (trace s) + 3)%nat) ∧
  (∀ pa id items cb userdata s,
     context_open s → (cb = None → userdata = None) →
     retries_permitted pa items → subscription_settled cb s →
     uploads_succeed pa items →
     (∀ tr, (play_attempts tr ≤ play_attempts (trace s) + 2)%nat →
            not_found pa (pa_context_play_sample_with_proplist pa tr)) →
     (∀ tr, play_attempts tr = (play_attempts (trace s) + 3)%nat →
            played (pa_context_play_sample_with_proplist pa tr)) →
     ∃ s', driver_play pa Context id (Some items) cb userdata s
           = Ret CA_SUCCESS s' ∧
           play_attempts (trace s') = (play_attempts (trace s) + 3)%nat ∧
           cache_uploads (trace s') = (cache_uploads (trace s) + 2)%nat ∧
           count is_lookup_sound (trace s')
           = (count is_lookup_sound (trace s) + 2)%nat) ∧
  (∃ s', driver_play Scenes.sample_missing Context 1
           (Some Scenes.bell_volatile) (Some 4%positive) None Scenes.idle
         = Ret CA_SUCCESS s' ∧
         play_attempts (trace s') = 3%nat ∧
         cache_uploads (trace s') = 2%nat ∧
         count is_connect_playback (trace s') = 1%nat) ∧
  (∃ s', driver_play Scenes.sample_missing_twice Context 1
           (Some Scenes.bell_volatile) (Some 4%positive) None Scenes.idle
         = Ret CA_SUCCESS s' ∧
         play_attempts (trace s') = 3%nat ∧
         cache_uploads (trace s') = 2%nat ∧
         count is_connect_playback (trace s') = 0%nat).
Proof.
  split.
  { intros pa c id proplist cb userdata s. split.
    - intros s'. apply terminates_driver_play.
    - apply within_driver_play. }
  split.
  { intros pa id items cb userdata s Hopen Hud Hperm Hsub Hup Hnf.
    destruct (driver_play_reaches_loop pa id items cb userdata s
                Hopen Hud Hperm Hsub)
      as (pl & s1 & -> & Hcc & Hready & Hs1).
    destruct (play_loop_always_missing pa items (next_addr s) pl CA_SUCCESS
                s1 Hready Hup Hcc Hnf)
      as (s2 & Hloop & Hready2 & Hs2).
    rewrite final_state_bind, Hloop, final_state_bind.
    pose proof (play_stream_sends pa (next_addr s) items pl s2
                  (proj1 (proj2 Hready2))) as Hs3.
    destruct (play_stream pa (next_addr s) items pl s2) as [r s3 | w s3];
      simpl in Hs3.
    - pose proof (play_finish_sends (next_addr s) cb r s3) as Hs4.
      unfold sends in *. lia.
    - unfold sends in *. lia. }
  split.
  { intros pa id items cb userdata s Hopen Hud Hperm Hsub Hup Hnf Hok.
    destruct (driver_play_reaches_loop pa id items cb userdata s
                Hopen Hud Hperm Hsub)
      as (pl & s1 & -> & Hcc & Hready & Hs1).
    assert (Hsame : play_attempts (trace s1) = play_attempts (trace s))
      by (unfold sends in Hs1; lia).
    destruct (play_loop_third_time pa items (next_addr s) pl CA_SUCCESS
                s1 Hready Hup Hcc)
      as (s2 & Hloop & Hready2 & Hs2).
    { intros tr Htr. apply Hnf. lia. }
    { intros tr Htr. apply Hok. lia. }
    unfold bind at 1. rewrite Hloop.
    destruct (play_finish_returns (next_addr s) cb CA_SUCCESS s2 Hready2)
      as (s3 & Hfin).
    pose proof (play_finish_sends (next_addr s) cb CA_SUCCESS s2) as Hs3.
    rewrite Hfin in Hs3. simpl in Hs3.
    exists s3. split; [exact Hfin |]. unfold sends in *. lia. }
  split; eexists; (split; [vm_compute; reflexivity |]);
    repeat split; vm_compute; reflexivity.
Qed.

Lemma driver_play_retry_bound_witness :
  context_open Scenes.ready ∧
  retries_permitted Scenes.sample_missing Scenes.bell_volatile ∧
  subscription_settled (Some 4%positive) Scenes.ready ∧
  uploads_succeed Scenes.sample_missing Scenes.bell_volatile ∧
  (∀ tr, not_found Scenes.sample_missing
           (pa_context_play_sample_with_proplist Scenes.sample_missing tr)) ∧
  let s' := final_state
              (driver_play Scenes.sample_missing Context 1
                 (Some Scenes.bell_volatile) (Some 4%positive) None
                 Scenes.ready) in
  play_attempts (trace s') = (play_attempts (trace Scenes.ready) + 3)%nat ∧
  cache_uploads (trace s') = (cache_uploads (trace Scenes.ready) + 2)%nat ∧
  count is_lookup_sound (trace s')
  = (count is_lookup_sound (trace Scenes.ready) + 3)%nat.
Proof.
  assert (Hopen : context_open Scenes.ready).
  { eexists. split; [reflexivity | split; discriminate]. }
  assert (Hperm : retries_permitted Scenes.sample_missing Scenes.bell_volatile).
  { eexists _, "bell", PA_VOLUME_NORM, "volatile", CA_CACHE_CONTROL_VOLATILE.
    split; [reflexivity |]. repeat split; try (vm_compute; reflexivity).
    discriminate. }
  assert (Hsub : subscription_settled (Some 4%positive) Scenes.ready).
  { right. eexists. split; reflexivity. }
  assert (Hup : uploads_succeed Scenes.sample_missing Scenes.bell_volatile).
  { split.
    - eexists _, "bell", "volatile", CA_CACHE_CONTROL_VOLATILE.
      split; [reflexivity |]. repeat split; vm_compute; reflexivity.
    - repeat split; intros tr; simpl; eauto. }
  assert (Hnf : ∀ tr, not_found Scenes.sample_missing
                        (pa_context_play_sample_with_proplist
                           Scenes.sample_missing tr)).
  { intros tr. exists PA_ERR_NOENTITY. split; reflexivity. }
  split; [exact Hopen |]. split; [exact Hperm |]. split; [exact Hsub |].
  split; [exact Hup |]. split; [exact Hnf |].
  destruct driver_play_retry_bound as (_ & Hmissing & _).
  refine (Hmissing Scenes.sample_missing 1 Scenes.bell_volatile
            (Some 4%positive) None Scenes.ready Hopen _ Hperm Hsub Hup Hnf).
  discriminate.
Defined.


(** C5.  [driver_play] is meant to return the result of the named-sample
    request when that is not "not found", but line 690 jumps to [finish]
    without copying [out->error] to [ret]: when the server refuses the
    request with [PA_ERR_ACCESS], which translates to [CA_ERROR_ACCESS],
    [driver_play] returns [CA_SUCCESS]; nothing is played and nothing is
    registered. *)
Theorem driver_play_drops_server_error :
  translate_error Scenes.sample_refused PA_ERR_ACCESS = Some CA_ERROR_ACCESS ∧
  ∃ s', driver_play Scenes.sample_refused Context 1 (Some Scenes.bell)
          None None Scenes.idle = Ret CA_SUCCESS s' ∧
        CA_SUCCESS ≠ CA_ERROR_ACCESS ∧
        play_attempts (trace s') = 1%nat ∧
        count is_connect_playback (trace s') = 0%nat ∧
        registry s' = [].
Proof.
  split; [reflexivity |].
  eexists. split; [vm_compute; reflexivity |].
  split; [discriminate |]. repeat split; vm_compute; reflexivity.
Qed.

(** ** The other completion paths unlink first *)

Ltac unlinked_first :=
  repeat (first [ progress run_m | case_match; simplify_eq/= ]);
  simpl; repeat (rewrite count_cons; simpl);
  rewrite ?bool_decide_eq_false_2 by apply llist_remove_unlinks;
  reflexivity.

(** [stream_state_cb] calls no callback on a request that is linked. *)
Lemma stream_state_cb_unlinks_first (pa : pulse) (o : addr)
    (st : pa_stream_state_t) (errno : Z) (s : state) :
  count sees_itself_linked
    (trace (final_state (stream_state_cb pa o st errno s)))
  = count sees_itself_linked (trace s).
Proof.
  unfold stream_state_cb, translate, outstanding_free. unlinked_first.
Qed.

(** [stream_drain_cb] calls no callback on a request that is linked. *)
Lemma stream_drain_cb_unlinks_first (pa : pulse) (o : addr) (success : bool)
    (errno : Z) (s : state) :
  count sees_itself_linked
    (trace (final_state (stream_drain_cb pa o success errno s)))
  = count sees_itself_linked (trace s).
Proof.
  unfold stream_drain_cb, translate, outstanding_free. unlinked_first.
Qed.

(** [stream_write_cb] calls no callback on a request that is linked. *)
Lemma stream_write_cb_unlinks_first (pa : pulse) (o : addr) (st : handle)
    (bytes : Z) (w : write_answers) (s : state) :
  count sees_itself_linked
    (trace (final_state (stream_write_cb pa o st bytes w s)))
  = count sees_itself_linked (trace s).
Proof.
  unfold stream_write_cb, write_body, translate, outstanding_free.
  unlinked_first.
Qed.

(** [context_state_cb] calls no callback on a request that is linked. *)
Lemma context_state_cb_unlinks_first (pa : pulse) (st : pa_context_state_t)
    (errno : Z) (s : state) (p : private) :
  c_private s = Some p → registry_wf (heap s) (outstanding_list p) →
  count sees_itself_linked
    (trace (final_state (context_state_cb pa st errno s)))
  = count sees_itself_linked (trace s).
Proof.
  intros Hp Hwf. unfold context_state_cb, translate. run_m. rewrite Hp.
  assert (Hdrain : ∀ err,
            count sees_itself_linked
              (trace (final_state
                 ((let* _ := drain_outstanding
                               (length (outstanding_list p)) err in
                   emit EvSignal) s)))
            = count sees_itself_linked (trace s)).
  { intros err.
    destruct (drain_spec (outstanding_list p) (length (outstanding_list p))
                err s p Hp eq_refl Hwf (le_n _))
      as (s1 & Hrun & _ & _ & _ & Hn).
    unfold bind. rewrite Hrun. run_m. now rewrite count_cons. }
  destruct st; try (run_m; now rewrite count_cons);
    (destruct (translate_error pa errno) as [err |];
     [apply (Hdrain err) | reflexivity]).
Qed.

Lemma not_elem_of_llist_remove (a o : addr) (l : list addr) :
  a ∉ l → a ∉ llist_remove o l.
Proof.
  intros Ha H. apply Ha. unfold llist_remove in H.
  now apply list_elem_of_filter in H as [_ H].
Qed.

(** What [subscribe_collect] moves to its local list is no longer linked,
    and it calls nothing. *)
Lemma subscribe_collect_unlinks (idx : Z) (todo : list addr) :
  ∀ (l : list addr) (s : state),
    (∀ a, a ∈ l → a ∉ registry s) →
    match subscribe_collect idx todo l s with
    | Ret l' s' => (∀ a, a ∈ l' → a ∉ registry s') ∧ trace s' = trace s
    | Crash _ s' => trace s' = trace s
    end.
Proof.
  induction todo as [| o n IH]; intros l s Hl; [now split |].
  simpl. run_m. destruct (heap s !! o) as [out |]; [| reflexivity].
  destruct (bool_decide (o_type out ≠ OUTSTANDING_SAMPLE)
            || bool_decide (o_sink_input out ≠ idx)); [now apply IH |].
  run_m. destruct (c_private s) as [p |] eqn:Hp; [| reflexivity]. run_m.
  match goal with
  | |- context [subscribe_collect idx n (o :: l) ?st] =>
      specialize (IH (o :: l) st)
  end.
  destruct (subscribe_collect idx n (o :: l) _) as [l' s' | w s'];
    apply IH; intros a Ha; unfold registry; simpl;
    (apply elem_of_cons in Ha as [-> | Ha];
     [apply llist_remove_unlinks
     | apply not_elem_of_llist_remove; specialize (Hl a Ha);
       unfold registry in Hl; now rewrite Hp in Hl]).
Qed.

(** Completing requests that are not linked calls no callback on a linked
    request. *)
Lemma subscribe_complete_unlinked (l : list addr) :
  ∀ s, (∀ a, a ∈ l → a ∉ registry s) →
       count sees_itself_linked (trace (final_state (subscribe_complete l s)))
       = count sees_itself_linked (trace s).
Proof.
  induction l as [| o rest IH]; intros s Hl; [reflexivity |].
  assert (Ho : o ∉ registry s) by (apply Hl; left).
  assert (Hrest : ∀ a, a ∈ rest → a ∉ registry s)
    by (intros a Ha; apply Hl; now right).
  simpl. unfold outstanding_free. run_m.
  destruct (heap s !! o) as [out |] eqn:Hout; [| reflexivity].
  destruct (o_callback out) as [cb |]; run_m; rewrite Hout; run_m;
    destruct (o_file out) as [f |]; run_m;
    destruct (o_stream out) as [st |]; run_m;
    rewrite IH by exact Hrest; simpl;
    repeat (rewrite count_cons; simpl);
    rewrite ?bool_decide_eq_false_2 by exact Ho; reflexivity.
Qed.

(** [context_subscribe_cb] calls no callback on a request that is linked. *)
Lemma context_subscribe_cb_unlinks_first (t idx : Z) (s : state) :
  count sees_itself_linked
    (trace (final_state (context_subscribe_cb t idx s)))
  = count sees_itself_linked (trace s).
Proof.
  unfold context_subscribe_cb.
  destruct (decide _); [reflexivity |]. run_m.
  destruct (c_private s) as [p |]; [| reflexivity].
  pose proof (subscribe_collect_unlinks idx (outstanding_list p) [] s) as Hc.
  destruct (subscribe_collect idx (outstanding_list p) [] s) as [l s' | w s'].
  - destruct Hc as [Hl Htr];
      [intros a Ha; now apply not_elem_of_nil in Ha |].
    rewrite subscribe_complete_unlinked by exact Hl. now rewrite Htr.
  - simpl. rewrite Hc; [reflexivity |].
    intros a Ha. now apply not_elem_of_nil in Ha.
Qed.

(** ** driver_cancel in general *)

Lemma llist_remove_middle o kept n :
  NoDup (kept ++ o :: n) → llist_remove o (kept ++ o :: n) = kept ++ n.
Proof.
  intros Hnd. apply NoDup_app in Hnd as (Hk & Hdisj & Hon).
  apply NoDup_cons in Hon as [Hon Hn].
  assert (Hkeep : ∀ l : list addr, o ∉ l → llist_remove o l = l).
  { intros l Hl. unfold llist_remove. induction l as [| a l IH]; [reflexivity |].
    rewrite filter_cons_True by (intros ->; apply Hl; left).
    f_equal. apply IH. intros H. apply Hl. now right. }
  unfold llist_remove. rewrite filter_app.
  rewrite filter_cons_False by (intros H; now apply H).
  fold (llist_remove o kept). fold (llist_remove o n).
  rewrite !Hkeep; [reflexivity | assumption |].
  intros H. apply (Hdisj o H). left.
Qed.

Lemma filter_target_delete h id o (n : list addr) b :
  o ∉ n →
  filter (λ a, cancel_target (delete o h) id a = b) n
  = filter (λ a, cancel_target h id a = b) n.
Proof.
  intros Hn. induction n as [| a n IH]; [reflexivity |].
  assert (Ha : cancel_target (delete o h) id a = cancel_target h id a).
  { unfold cancel_target. rewrite lookup_delete_ne; [reflexivity |].
    intros ->. apply Hn. left. }
  assert (Hn' : o ∉ n) by (intros H; apply Hn; now right).
  destruct (decide (cancel_target h id a = b)) as [Hb | Hb].
  - rewrite !filter_cons_True by congruence. f_equal. now apply IH.
  - rewrite !filter_cons_False by congruence. now apply IH.
Qed.

(** The loop of [driver_cancel] on a list of distinct live requests:
    every request the test selects is completed with [CA_ERROR_CANCELED],
    unlinked and released, whether or not an earlier kill failed; the
    others stay; and every callback call finds its own request still
    linked. *)
Lemma cancel_loop_spec pa id : kill_errors_valid pa → ∀ todo kept r s p,
  c_private s = Some p → outstanding_list p = kept ++ todo →
  NoDup (kept ++ todo) → (∀ a, a ∈ todo → is_Some (heap s !! a)) →
  ∃ r' s', cancel_loop pa id todo r s = Ret r' s' ∧
    c_private s' = Some (set_outstanding_list p
      (kept ++ filter (λ a, cancel_target (heap s) id a = false) todo)) ∧
    (∀ a, heap s' !! a =
          if decide (a ∈ todo ∧ cancel_target (heap s) id a = true)
          then None else heap s !! a) ∧
    callbacks (trace s') = callbacks (trace s) ++
      owed_callbacks (heap s)
        (filter (λ a, cancel_target (heap s) id a = true) todo)
        CA_ERROR_CANCELED ∧
    count sees_itself_linked (trace s') =
    (count sees_itself_linked (trace s) +
     length (owed_callbacks (heap s)
               (filter (λ a, cancel_target (heap s) id a = true) todo)
               CA_ERROR_CANCELED))%nat.
Proof.
  intros Hkill. induction todo as [| o n IH]; intros kept r s p Hp Hl Hnd Hlive.
  - exists r, s. split; [reflexivity |]. rewrite app_nil_r in *.
    split; [rewrite Hp, <- Hl; now destruct p |].
    split. { intros a. rewrite decide_False; [reflexivity |].
             intros [Ha _]. now apply not_elem_of_nil in Ha. }
    unfold owed_callbacks. simpl. rewrite app_nil_r. split; [reflexivity | lia].
  - destruct (Hlive o) as [out Hout]; [left |].
    assert (Hon : o ∉ n).
    { apply NoDup_app in Hnd as (_ & _ & Hnd).
      now apply NoDup_cons in Hnd as [? _]. }
    simpl. run_m. rewrite Hout.
    destruct (cancel_target (heap s) id o) eqn:Htarget.
    + unfold cancel_target in Htarget. rewrite Hout in Htarget.
      apply negb_true_iff in Htarget. rewrite Htarget. run_m.
      assert (Htarget' : cancel_target (heap s) id o = true).
      { unfold cancel_target. rewrite Hout. now apply negb_true_iff. }
      assert (Hret2 : ∃ ret2, ∀ st,
                match pa_context_kill_sink_input pa
                        (EvKillSinkInput (o_sink_input out) :: trace s) with
                | OpStarted => λ s0 : state, Ret (indeterminate pa (trace s0)) s0
                | OpNull errno => translate pa errno
                end st = Ret (ret2 st) st).
      { destruct (pa_context_kill_sink_input pa _) as [| errno] eqn:Hk.
        - exists (λ st, indeterminate pa (trace st)). reflexivity.
        - destruct (translate_error_total pa errno (Hkill _ _ Hk)) as [e He].
          exists (λ _, e). intros st. unfold translate. now rewrite He. }
      destruct Hret2 as (ret2 & ->).
      rewrite filter_cons_False by congruence.
      rewrite filter_cons_True by exact Htarget'.
      unfold owed_callbacks at 1 2. csimpl. rewrite Hout.
      fold (owed_callbacks (heap s)
              (filter (λ a, cancel_target (heap s) id a = true) n)
              CA_ERROR_CANCELED).
      assert (Hin : o ∈ kept ++ o :: n)
        by (apply elem_of_app; right; left).
      destruct (o_callback out) as [cb |]; run_m; rewrite Hp; run_m;
        rewrite Hl, (llist_remove_middle o kept n Hnd), Hout; run_m;
        destruct (o_file out) as [f |]; run_m;
        destruct (o_stream out) as [st |]; run_m;
        match goal with
        | |- context [cancel_loop pa id n ?r1 ?s1] =>
            destruct (IH kept r1 s1 (set_outstanding_list p (kept ++ n)))
              as (r' & s' & Hrun & Hp' & Hh' & Hcb' & Hn');
              [ reflexivity | reflexivity
              | apply NoDup_app in Hnd as (Hk1 & Hk2 & Hk3);
                apply NoDup_cons in Hk3 as [_ Hk3];
                apply NoDup_app; repeat split; try assumption;
                intros x Hx Hx'; apply (Hk2 x Hx); now right
              | intros a Ha; simpl;
                rewrite lookup_delete_ne by (intros ->; contradiction);
                apply Hlive; now right
              | ]
        end;
        exists r', s'; (split; [exact Hrun |]);
        simpl in Hp', Hh', Hcb', Hn';
        rewrite (filter_target_delete _ _ _ _ false Hon) in Hp';
        rewrite (filter_target_delete _ _ _ _ true Hon) in Hcb', Hn';
        rewrite (owed_callbacks_delete _ _ _ _) in Hcb', Hn'
          by (intros Hx; apply list_elem_of_filter in Hx as [_ Hx];
              contradiction);
        rewrite ?callbacks_cons in Hcb'; rewrite ?count_cons in Hn';
        simpl in Hcb', Hn'; rewrite ?app_nil_r in Hcb';
        rewrite ?bool_decide_eq_true_2 in Hn' by exact Hin;
        (split; [exact Hp' |]);
        (split; [| split; [rewrite Hcb', <- ?app_assoc; reflexivity
                          | rewrite Hn'; simpl; lia]]);
        intros a; rewrite Hh'; simpl;
        (destruct (decide (a = o)) as [-> | Hne];
         [ rewrite lookup_delete_eq;
           rewrite (decide_True (P := o ∈ o :: n ∧ _))
             by (split; [left | exact Htarget']);
           now destruct (decide _)
         | rewrite lookup_delete_ne by congruence;
           apply decide_ext; rewrite elem_of_cons;
           unfold cancel_target; rewrite lookup_delete_ne by congruence;
           tauto ]).
    + unfold cancel_target in Htarget. rewrite Hout in Htarget.
      apply negb_false_iff in Htarget. rewrite Htarget.
      destruct (IH (kept ++ [o]) r s p Hp) as (r' & s' & Hrun & Hp' & Hh' & Hcb' & Hn').
      { now rewrite <- app_assoc. }
      { now rewrite <- app_assoc. }
      { intros a Ha. apply Hlive. now right. }
      assert (Htarget' : cancel_target (heap s) id o = false).
      { unfold cancel_target. rewrite Hout. now apply negb_false_iff. }
      exists r', s'. split; [exact Hrun |].
      rewrite filter_cons_True by exact Htarget'.
      rewrite filter_cons_False by congruence.
      split; [now rewrite Hp', <- app_assoc |].
      split; [| split; assumption].
      intros a. rewrite Hh'. apply decide_ext. rewrite elem_of_cons.
      split; [tauto |]. intros [[-> | Ha] Ht]; [congruence | tauto].
Qed.

(** [driver_cancel] completes every request it selects. *)
Lemma driver_cancel_completes_every_match (pa : pulse) (id : Z) (s : state)
    (p : private) :
  kill_errors_valid pa →
  c_private s = Some p → mainloop p ≠ None → context p ≠ None →
  registry_wf (heap s) (outstanding_list p) →
  ∃ r s', driver_cancel pa Context id s = Ret r s' ∧
    registry s'
    = filter (λ a, cancel_target (heap s) id a = false) (outstanding_list p) ∧
    (∀ a, a ∈ outstanding_list p → cancel_target (heap s) id a = true →
          heap s' !! a = None) ∧
    callbacks (trace s') = callbacks (trace s) ++
      owed_callbacks (heap s)
        (filter (λ a, cancel_target (heap s) id a = true) (outstanding_list p))
        CA_ERROR_CANCELED ∧
    count sees_itself_linked (trace s') =
    (count sees_itself_linked (trace s) +
     length (owed_callbacks (heap s)
               (filter (λ a, cancel_target (heap s) id a = true)
                  (outstanding_list p))
               CA_ERROR_CANCELED))%nat.
Proof.
  intros Hkill Hp Hm Hc [Hnd Hlive]. unfold driver_cancel. run_m. rewrite Hp.
  destruct (decide (mainloop p = None)); [contradiction |].
  destruct (decide (context p = None)); [contradiction |].
  destruct (cancel_loop_spec pa id Hkill (outstanding_list p) [] CA_SUCCESS
              s p Hp eq_refl Hnd Hlive)
    as (r & s' & Hrun & Hp' & Hh' & Hcb' & Hn').
  exists r, s'. split; [exact Hrun |].
  split; [unfold registry; now rewrite Hp' |].
  split; [| split; assumption].
  intros a Ha Ht. rewrite Hh'. now rewrite decide_True.
Qed.

(** * Further properties *)

Local Arguments play_loop : simpl nomatch.

(** Sample registries are well formed. *)
Lemma two_requests_wf :
  registry_wf (heap Scenes.two_requests)
    (outstanding_list Scenes.two_requests_private).
Proof.
  split.
  - simpl. apply NoDup_cons. split; [| apply NoDup_singleton].
    intros H. apply elem_of_cons in H as [H | H]; [discriminate |].
    now apply not_elem_of_nil in H.
  - intros a Ha. simpl in Ha.
    apply elem_of_cons in Ha as [-> | Ha]; [vm_compute; eauto |].
    apply elem_of_cons in Ha as [-> | Ha]; [vm_compute; eauto |].
    now apply not_elem_of_nil in Ha.
Qed.

Lemma kill_always_starts : kill_errors_valid Samples.friendly.
Proof. intros tr errno. discriminate. Qed.

(** ** translate_error *)

Lemma designated_cases (e : Z) (v : Z) :
  designated table_initialisers e = Some v →
  0 ≤ e ≤ PA_ERR_TOOLARGE ∧ v ≤ 0 ∧ CA_ERROR_IO ≤ v ∧ (v = 0 → e = PA_OK).
Proof.
  unfold table_initialisers. unfold_codes. simpl.
  repeat (destruct (decide _) as [<- | _]; [intros [= <-]; lia |]).
  discriminate.
Qed.

(** X1.  Whatever [translate_error] returns is a libcanberra code, from
    [CA_ERROR_IO] to [CA_SUCCESS], and its argument was not negative; it
    returns [CA_SUCCESS] for [PA_OK] and for the codes above
    [PA_ERR_TOOLARGE] that the table has room for, and for no other code. *)
Theorem translate_error_result (pa : pulse) (e r : Z) :
  translate_error pa e = Some r →
  0 ≤ e ∧ CA_ERROR_IO ≤ r ≤ CA_SUCCESS ∧
  (r = CA_SUCCESS → e = PA_OK ∨ PA_ERR_TOOLARGE < e < PA_ERR_MAX pa).
Proof.
  unfold translate_error.
  destruct (decide (e < 0)); [discriminate |].
  destruct (decide (PA_ERR_MAX pa ≤ e)).
  - intros [= <-]. unfold_codes. lia.
  - intros [= <-]. unfold table.
    destruct (designated table_initialisers e) as [v |] eqn:Hd.
    + apply designated_cases in Hd. unfold_codes. lia.
    + split; [lia |]. split; [unfold_codes; lia |]. intros _.
      destruct (decide (e ≤ PA_ERR_TOOLARGE)) as [Hle | Hgt]; [| lia].
      exfalso. revert Hd. unfold table_initialisers. unfold_codes. simpl.
      repeat (destruct (decide _) as [? | ?]; [discriminate |]). lia.
Qed.

Lemma translate_error_result_witness :
  translate_error Samples.friendly PA_ERR_ACCESS = Some CA_ERROR_ACCESS ∧
  0 ≤ PA_ERR_ACCESS ∧ CA_ERROR_IO ≤ CA_ERROR_ACCESS ≤ CA_SUCCESS ∧
  (CA_ERROR_ACCESS = CA_SUCCESS →
   PA_ERR_ACCESS = PA_OK ∨
   PA_ERR_TOOLARGE < PA_ERR_ACCESS < PA_ERR_MAX Samples.friendly).
Proof.
  split; [reflexivity |].
  apply (translate_error_result Samples.friendly PA_ERR_ACCESS CA_ERROR_ACCESS).
  reflexivity.
Defined.

(** ** convert_proplist and strip_canberra_data *)

(** [convert_items] adds the items from the left, so that a later value of
    a key replaces an earlier one, and stops at the first invalid key. *)
Lemma convert_items_spec pa (items : ca_proplist) : ∀ (acc l : pa_proplist),
  convert_items pa items acc = Some l →
  Forall (λ kv, pa_proplist_key_valid pa kv.1 = true) items ∧
  l = list_to_map (reverse items) ∪ acc.
Proof.
  induction items as [| [k v] items IH]; intros acc l; simpl.
  - intros [= <-]. split; [constructor |]. now rewrite (left_id_L ∅ (∪)).
  - destruct (pa_proplist_key_valid pa k) eqn:Hk; [| discriminate].
    intros H. apply IH in H as [Hall ->]. split; [constructor; assumption |].
    rewrite reverse_cons, list_to_map_app.
    rewrite <- (assoc_L (∪)). f_equal.
    change (list_to_map [(k, v)]) with (<[k:=v]> (∅ : pa_proplist)).
    now rewrite <- insert_union_l, (left_id_L ∅ (∪)).
Qed.

Lemma convert_items_valid pa (items : ca_proplist) : ∀ acc,
  Forall (λ kv, pa_proplist_key_valid pa kv.1 = true) items →
  is_Some (convert_items pa items acc).
Proof.
  induction items as [| [k v] items IH]; intros acc H; simpl; [eauto |].
  apply Forall_cons in H as [Hk H]. simpl in Hk. rewrite Hk. now apply IH.
Qed.

(** X2.  A property list whose keys are valid and distinct converts, and the
    converted list holds exactly its items: a key reads as a value if and
    only if the pair is an item. *)
Theorem convert_proplist_round_trip (pa : pulse) (items : ca_proplist) :
  Forall (λ kv, pa_proplist_key_valid pa kv.1 = true) items →
  NoDup (items.*1) →
  ∃ l, convert_proplist pa (Some items) = inr l ∧
       ∀ k v, pa_proplist_gets l k = Some v ↔ (k, v) ∈ items.
Proof.
  intros Hvalid Hnd. unfold convert_proplist.
  destruct (convert_items_valid pa items ∅ Hvalid) as [l Hl]. rewrite Hl.
  exists l. split; [reflexivity |]. intros k v.
  apply convert_items_spec in Hl as [_ ->].
  rewrite (right_id_L ∅ (∪)). unfold pa_proplist_gets.
  rewrite <- elem_of_list_to_map
    by (rewrite fmap_reverse, reverse_Permutation; assumption).
  apply elem_of_reverse.
Qed.

Lemma convert_proplist_round_trip_witness :
  Forall (λ kv, pa_proplist_key_valid Samples.friendly kv.1 = true)
    Scenes.bell_volatile ∧
  NoDup (Scenes.bell_volatile.*1) ∧
  ∃ l, convert_proplist Samples.friendly (Some Scenes.bell_volatile) = inr l ∧
       ∀ k v, pa_proplist_gets l k = Some v ↔ (k, v) ∈ Scenes.bell_volatile.
Proof.
  assert (Hvalid : Forall (λ kv, pa_proplist_key_valid Samples.friendly kv.1
                                 = true) Scenes.bell_volatile)
    by (repeat constructor).
  assert (Hnd : NoDup (Scenes.bell_volatile.*1)).
  { simpl. apply NoDup_cons. split; [| apply NoDup_singleton].
    intros H. apply elem_of_cons in H as [H | H]; [discriminate |].
    now apply not_elem_of_nil in H. }
  split; [exact Hvalid |]. split; [exact Hnd |].
  exact (convert_proplist_round_trip Samples.friendly Scenes.bell_volatile
           Hvalid Hnd).
Defined.

(** X3.  One item with a key that PulseAudio does not accept makes the
    conversion of the whole list fail with [CA_ERROR_INVALID], wherever the
    item stands. *)
Theorem convert_proplist_invalid_key (pa : pulse) (items : ca_proplist)
    (k v : string) :
  (k, v) ∈ items → pa_proplist_key_valid pa k = false →
  convert_proplist pa (Some items) = inl CA_ERROR_INVALID.
Proof.
  intros Hin Hk. unfold convert_proplist.
  destruct (convert_items pa items ∅) as [l |] eqn:Hl; [| reflexivity].
  apply convert_items_spec in Hl as [Hall _].
  rewrite Forall_forall in Hall. specialize (Hall _ Hin). simpl in Hall.
  congruence.
Qed.

Lemma convert_proplist_invalid_key_witness :
  ("", "x") ∈ [("event.id", "bell"); ("", "x")] ∧
  pa_proplist_key_valid Further.picky "" = false ∧
  convert_proplist Further.picky (Some [("event.id", "bell"); ("", "x")])
  = inl CA_ERROR_INVALID.
Proof.
  assert (Hin : ("", "x") ∈ [("event.id", "bell"); ("", "x")])
    by (right; left).
  split; [exact Hin |]. split; [reflexivity |].
  exact (convert_proplist_invalid_key Further.picky
           [("event.id", "bell"); ("", "x")] "" "x" Hin eq_refl).
Defined.

(** X4.  [strip_canberra_data] only removes: what it returns is part of the
    list it was given; stripping a second time changes nothing; and the
    event id is never removed. *)
Theorem strip_canberra_data_shrinks (l : pa_proplist) :
  strip_canberra_data l ⊆ l ∧
  strip_canberra_data (strip_canberra_data l) = strip_canberra_data l ∧
  pa_proplist_gets (strip_canberra_data l) CA_PROP_EVENT_ID
  = pa_proplist_gets l CA_PROP_EVENT_ID.
Proof.
  split; [| split].
  - apply map_subseteq_spec. intros k v. rewrite strip_canberra_data_lookup.
    now destruct (decide _).
  - apply map_eq. intros k. rewrite !strip_canberra_data_lookup.
    now destruct (decide _).
  - unfold pa_proplist_gets. rewrite strip_canberra_data_lookup.
    destruct (decide _) as [Hz | _]; [| reflexivity].
    vm_compute in Hz. discriminate.
Qed.

(** ** What driver_play and driver_cache leave alone *)

Lemma preserves_bind {A B C} (f : state → C) (m : M A) (k : A → M B) :
  preserves f m → (∀ x, preserves f (k x)) → preserves f (bind m k).
Proof.
  intros Hm Hk s. rewrite final_state_bind. specialize (Hm s).
  destruct (m s) as [x s1 | w s1]; simpl in Hm; [| assumption].
  now rewrite Hk.
Qed.

Ltac pres_close :=
  unfold registry, calls; simpl;
  repeat (rewrite callbacks_cons; simpl); rewrite ?app_nil_r;
  repeat match goal with
         | H : c_private _ = _ |- _ => rewrite H
         end;
  simpl; try reflexivity; try congruence.

Ltac pres_leaf :=
  cbv beta delta [translate set_theme_cache outstanding_free play_sample_cb
                  subscribe cache_upload ca_new0_outstanding];
  intros ?; run_m;
  repeat (first [ progress run_m | case_match; simplify_eq/= ]);
  pres_close.

Ltac pstep :=
  lazymatch goal with
  | |- preserves _ (bind ?m _) =>
      apply preserves_bind; [solve [pres_leaf] | intros ?]
  | |- preserves _ (match ?x with _ => _ end) => destruct x
  | |- preserves _ _ => solve [pres_leaf]
  end.

Lemma driver_cache_keeps_registry pa c proplist :
  preserves registry (driver_cache pa c proplist).
Proof. unfold driver_cache. repeat pstep. Qed.

Lemma driver_cache_calls_nothing pa c proplist :
  preserves calls (driver_cache pa c proplist).
Proof. unfold driver_cache. repeat pstep. Qed.

Lemma play_loop_keeps_registry pa c items o pl : ∀ fuel try r,
  preserves registry (play_loop pa fuel c items o pl try r).
Proof.
  induction fuel as [| fuel IH]; intros try r; cbn [play_loop];
    [pres_leaf |].
  repeat pstep.
  apply preserves_bind; [apply driver_cache_keeps_registry |]. intros r'.
  pstep; [pstep | apply IH].
Qed.

Lemma play_loop_calls_nothing pa c items o pl : ∀ fuel try r,
  preserves calls (play_loop pa fuel c items o pl try r).
Proof.
  induction fuel as [| fuel IH]; intros try r; cbn [play_loop];
    [pres_leaf |].
  repeat pstep.
  apply preserves_bind; [apply driver_cache_calls_nothing |]. intros r'.
  pstep; [pstep | apply IH].
Qed.

(** X5.  [driver_play] and [driver_cache] call no completion callback
    themselves, whatever their arguments, the state and the server's
    answers: the callback calls recorded in the trace are the same before
    and after. *)
Theorem driver_play_calls_no_callback (pa : pulse) (c : ca_context_ptr)
    (id : Z) (proplist : option ca_proplist) (cb : option fnptr)
    (userdata : option Z) (s : state) :
  callbacks (trace (final_state (driver_play pa c id proplist cb userdata s)))
  = callbacks (trace s) ∧
  callbacks (trace (final_state (driver_cache pa c proplist s)))
  = callbacks (trace s).
Proof.
  split; [| apply (driver_cache_calls_nothing pa c proplist s)].
  revert s. change (preserves calls (driver_play pa c id proplist cb userdata)).
  unfold driver_play. repeat pstep.
  apply preserves_bind; [unfold play_prepare; repeat pstep |]. intros pr.
  destruct pr as [r | pl]; [unfold play_finish; repeat pstep |].
  apply preserves_bind; [apply play_loop_calls_nothing |]. intros ex.
  destruct ex as [r |]; [unfold play_finish; repeat pstep |].
  apply preserves_bind; [unfold play_stream; repeat pstep |]. intros r.
  unfold play_finish; repeat pstep.
Qed.

Lemma registers_bind {A} (m : M A) (k : A → M Z) :
  preserves registry m → (∀ x, registers_on_success_only (k x)) →
  registers_on_success_only (bind m k).
Proof.
  intros Hm Hk s r s'. unfold bind. specialize (Hm s).
  destruct (m s) as [x s1 | w s1]; simpl in Hm; [| discriminate].
  intros Hrun Hr. rewrite <- Hm. now apply (Hk x s1 r s').
Qed.

Lemma registers_pure (m : M Z) :
  preserves registry m → registers_on_success_only m.
Proof.
  intros Hm s r s' Hrun _. specialize (Hm s). now rewrite Hrun in Hm.
Qed.

Lemma play_finish_registers o cb r :
  registers_on_success_only (play_finish o cb r).
Proof.
  intros s r' s'. unfold play_finish, outstanding_free. run_m.
  repeat (first [ progress run_m | case_match; simplify_eq/= ]);
    intros; simplify_eq/=; try contradiction;
    try match goal with
        | H : bool_decide (?r = CA_SUCCESS) && _ = true |- _ =>
            apply andb_true_iff in H as [H _];
            apply bool_decide_eq_true in H; contradiction
        end;
    pres_close.
Qed.

(** X6.  A [driver_play] that returns an error has registered nothing: the
    registry is the one it found.  Only a successful play adds a request. *)
Theorem driver_play_error_registers_nothing (pa : pulse) (c : ca_context_ptr)
    (id : Z) (proplist : option ca_proplist) (cb : option fnptr)
    (userdata : option Z) (s s' : state) (r : Z) :
  driver_play pa c id proplist cb userdata s = Ret r s' →
  r ≠ CA_SUCCESS →
  registry s' = registry s.
Proof.
  revert s r s'.
  change (registers_on_success_only (driver_play pa c id proplist cb userdata)).
  unfold driver_play.
  destruct c; [apply registers_pure; pres_leaf |].
  destruct proplist as [items |]; [| apply registers_pure; pres_leaf].
  destruct (_ && _); [apply registers_pure; pres_leaf |].
  apply registers_bind; [pres_leaf |]. intros p.
  destruct p as [p |]; [| apply registers_pure; pres_leaf].
  destruct (decide _); [apply registers_pure; pres_leaf |].
  destruct (decide _); [apply registers_pure; pres_leaf |].
  apply registers_bind; [pres_leaf |]. intros o.
  apply registers_bind; [pres_leaf |]. intros _.
  apply registers_bind; [unfold play_prepare; repeat pstep |]. intros pr.
  destruct pr as [r | pl]; [apply play_finish_registers |].
  apply registers_bind; [apply play_loop_keeps_registry |]. intros ex.
  destruct ex as [r |]; [apply play_finish_registers |].
  apply registers_bind; [unfold play_stream; repeat pstep |]. intros r.
  apply play_finish_registers.
Qed.

Lemma driver_play_error_registers_nothing_witness :
  let run := driver_play Scenes.sample_refused Context 2
               (Some [("media.role", "event")]) (Some 4%positive) None
               Scenes.one_request in
  run = Ret CA_ERROR_INVALID (final_state run) ∧
  CA_ERROR_INVALID ≠ CA_SUCCESS ∧
  registry (final_state run) = registry Scenes.one_request.
Proof.
  intros run.
  assert (Hrun : run = Ret CA_ERROR_INVALID (final_state run))
    by (vm_compute; reflexivity).
  assert (Herr : CA_ERROR_INVALID ≠ CA_SUCCESS) by discriminate.
  split; [exact Hrun |]. split; [exact Herr |].
  exact (driver_play_error_registers_nothing Scenes.sample_refused Context 2
           (Some [("media.role", "event")]) (Some 4%positive) None
           Scenes.one_request (final_state run) CA_ERROR_INVALID Hrun Herr).
Defined.

Lemma driver_cache_heap pa c proplist s r s' :
  driver_cache pa c proplist s = Ret r s' →
  (heap s' = heap s ∨ heap s' !! next_addr s = None) ∧
  ∀ a, a ≠ next_addr s → heap s' !! a = heap s !! a.
Proof.
  unfold driver_cache, cache_upload, translate, set_theme_cache,
    outstanding_free, ca_new0_outstanding.
  run_m.
  repeat (first [ progress run_m | case_match; simplify_eq/= ]);
    intros; simplify_eq/=;
    (split;
     [ first [ left; reflexivity | right; apply lookup_delete_eq ]
     | intros ? ?; rewrite ?lookup_delete_ne by congruence;
       rewrite ?lookup_insert_ne by congruence; reflexivity ]).
Qed.

(** X7.  [driver_cache] releases the request it allocates on every return:
    when the allocator hands out a fresh address, the heap and the registry
    after the call are those before it, whether the upload went through or
    not. *)
Theorem driver_cache_leaves_nothing (pa : pulse) (c : ca_context_ptr)
    (proplist : option ca_proplist) (s s' : state) (r : Z) :
  driver_cache pa c proplist s = Ret r s' →
  heap s !! next_addr s = None →
  heap s' = heap s ∧ registry s' = registry s.
Proof.
  intros Hrun Hfresh. split.
  - destruct (driver_cache_heap pa c proplist s r s' Hrun) as [[Hh | Hh] Hrest];
      [exact Hh |].
    apply map_eq. intros a. destruct (decide (a = next_addr s)) as [-> | Hne].
    + now rewrite Hh, Hfresh.
    + now apply Hrest.
  - pose proof (driver_cache_keeps_registry pa c proplist s) as Hreg.
    now rewrite Hrun in Hreg.
Qed.

Lemma driver_cache_leaves_nothing_witness :
  let run := driver_cache Samples.friendly Context (Some Scenes.bell_volatile)
               Scenes.one_request in
  run = Ret CA_SUCCESS (final_state run) ∧
  heap Scenes.one_request !! next_addr Scenes.one_request = None ∧
  heap (final_state run) = heap Scenes.one_request ∧
  registry (final_state run) = registry Scenes.one_request.
Proof.
  intros run.
  assert (Hrun : run = Ret CA_SUCCESS (final_state run))
    by (vm_compute; reflexivity).
  assert (Hfresh : heap Scenes.one_request !! next_addr Scenes.one_request
                   = None) by (vm_compute; reflexivity).
  split; [exact Hrun |]. split; [exact Hfresh |].
  exact (driver_cache_leaves_nothing Samples.friendly Context
           (Some Scenes.bell_volatile) Scenes.one_request (final_state run)
           CA_SUCCESS Hrun Hfresh).
Defined.

Lemma within_bind_post {A B} (Q : A → Prop) a1 b1 a2 b2 (m : M A)
    (k : A → M B) :
  within a1 b1 m → (∀ s x s', m s = Ret x s' → Q x) →
  (∀ x, Q x → within a2 b2 (k x)) →
  within (a1 + a2) (b1 + b2) (bind m k).
Proof.
  intros Hm HQ Hk s. unfold bind. specialize (Hm s). specialize (HQ s).
  destruct (m s) as [x s1 | w s1]; simpl in *.
  - specialize (Hk x (HQ x s1 eq_refl) s1). lia.
  - lia.
Qed.

Lemma play_prepare_cache_control pa c items cb s pl s' :
  uploads_excluded pa items →
  play_prepare pa c items cb s = Ret (inr pl) s' →
  pl_cache_control pl = CA_CACHE_CONTROL_NEVER.
Proof.
  intros Hex. unfold play_prepare.
  destruct (convert_proplist pa (Some items)) as [e | l] eqn:Hconv;
    [discriminate |].
  pose proof (λ ct, Hex l ct Hconv) as Hex'. clear Hex.
  destruct (pa_proplist_gets l CA_PROP_EVENT_ID); [| discriminate].
  destruct (match pa_proplist_gets l CA_PROP_CANBERRA_VOLUME with
            | Some vol => volume_from_string pa vol
            | None => Some PA_VOLUME_NORM
            end); [| discriminate].
  destruct (pa_proplist_gets l CA_PROP_CANBERRA_CACHE_CONTROL) as [ct |].
  - destruct (Hex' ct eq_refl) as [Hp Hv].
    destruct (ca_parse_cache_control ct) as [[| |] |]; try congruence;
      try discriminate.
    unfold bind.
    match goal with
    | |- context [match ?m s with Ret _ _ => _ | Crash _ _ => _ end] =>
        destruct (m s) as [r s1 | w s1]; [| discriminate]
    end.
    destruct (decide (r < 0)); [discriminate |]. now intros [= <- _].
  - unfold bind.
    match goal with
    | |- context [match ?m s with Ret _ _ => _ | Crash _ _ => _ end] =>
        destruct (m s) as [r s1 | w s1]; [| discriminate]
    end.
    destruct (decide (r < 0)); [discriminate |]. now intros [= <- _].
Qed.

Lemma within_play_loop_never pa c items o pl fuel try r :
  pl_cache_control pl = CA_CACHE_CONTROL_NEVER →
  within 1 0 (play_loop pa fuel c items o pl try r).
Proof.
  intros Hcc. destruct fuel as [| fuel]; cbn [play_loop].
  - apply within_zero. brute.
  - wstep.
    apply (within_bind 1 0 0 0); [brute |]. intros _.
    wstep. wstep; [repeat wstep |].
    wstep. wstep. wstep; [wstep |].
    rewrite decide_True by exact Hcc. wstep.
Qed.

(** X8.  Without a cache control that permits an upload (the property is
    absent, or it is "never"), [driver_play] sends at most one named-sample
    request and uploads nothing, whatever the server answers. *)
Theorem driver_play_without_cache_control (pa : pulse) (c : ca_context_ptr)
    (id : Z) (items : ca_proplist) (cb : option fnptr)
    (userdata : option Z) :
  uploads_excluded pa items →
  within 1 0 (driver_play pa c id (Some items) cb userdata).
Proof.
  intros Hex. unfold driver_play. repeat wstep.
  apply (within_bind_post
           (λ pr, match pr with
                  | inl _ => True
                  | inr pl => pl_cache_control pl = CA_CACHE_CONTROL_NEVER
                  end) 0 0 1 0).
  - apply within_play_prepare.
  - intros s pr s' Hrun. destruct pr as [r | pl]; [exact I |].
    eapply play_prepare_cache_control; eassumption.
  - intros [r | pl] Hcc; [apply within_zero, within_play_finish |].
    apply (within_bind 1 0 0 0); [now apply within_play_loop_never |].
    intros ex. destruct ex as [r |]; [apply within_play_finish |].
    apply within_bind_silent; [apply within_play_stream |]. intros r.
    apply within_play_finish.
Qed.

Lemma driver_play_without_cache_control_witness :
  uploads_excluded Scenes.sample_missing Scenes.bell ∧
  within 1 0 (driver_play Scenes.sample_missing Context 1 (Some Scenes.bell)
                None None).
Proof.
  assert (Hex : uploads_excluded Scenes.sample_missing Scenes.bell).
  { intros l ct [= <-] Hct. vm_compute in Hct. discriminate. }
  split; [exact Hex |].
  exact (driver_play_without_cache_control Scenes.sample_missing Context 1
           Scenes.bell None None Hex).
Defined.

(** ** The guards of the operations *)

(** X9.  On a context that is not open (no private data, no main loop or no
    PulseAudio context) play, cache, cancel, change-props and subscribe all
    return [CA_ERROR_STATE] and leave the state untouched. *)
Theorem operations_need_open_context (pa : pulse) (s : state) (id : Z)
    (items merged : ca_proplist) (cb : option fnptr) :
  ¬ context_open s →
  driver_play pa Context id (Some items) cb None s = Ret CA_ERROR_STATE s ∧
  driver_cache pa Context (Some items) s = Ret CA_ERROR_STATE s ∧
  driver_cancel pa Context id s = Ret CA_ERROR_STATE s ∧
  driver_change_props pa Context (Some items) (Some merged) s
  = Ret CA_ERROR_STATE s ∧
  subscribe pa Context s = Ret CA_ERROR_STATE s.
Proof.
  intros Hclosed.
  assert (Hcases : c_private s = None ∨
                   ∃ p, c_private s = Some p ∧
                        (mainloop p = None ∨
                         (mainloop p ≠ None ∧ context p = None))).
  { destruct (c_private s) as [p |] eqn:Hp; [right | now left].
    exists p. split; [reflexivity |].
    destruct (decide (mainloop p = None)); [now left | right].
    split; [assumption |].
    destruct (decide (context p = None)); [assumption |].
    exfalso. apply Hclosed. exists p. auto. }
  unfold driver_play, driver_cache, driver_cancel, driver_change_props,
    subscribe.
  destruct Hcases as [Hp | (p & Hp & [Hm | [Hm Hc]])]; run_m; rewrite Hp;
    repeat split; try reflexivity;
    repeat (destruct (decide _)); try reflexivity; contradiction.
Qed.

Lemma operations_need_open_context_witness :
  ¬ context_open Further.closed ∧
  driver_play Samples.friendly Context 1 (Some Scenes.bell) (Some 4%positive)
    None Further.closed = Ret CA_ERROR_STATE Further.closed ∧
  driver_cache Samples.friendly Context (Some Scenes.bell) Further.closed
  = Ret CA_ERROR_STATE Further.closed ∧
  driver_cancel Samples.friendly Context 1 Further.closed
  = Ret CA_ERROR_STATE Further.closed ∧
  driver_change_props Samples.friendly Context (Some Scenes.bell)
    (Some Scenes.bell_never) Further.closed
  = Ret CA_ERROR_STATE Further.closed ∧
  subscribe Samples.friendly Context Further.closed
  = Ret CA_ERROR_STATE Further.closed.
Proof.
  assert (Hclosed : ¬ context_open Further.closed)
    by (intros (p & Hp & _); discriminate).
  split; [exact Hclosed |].
  exact (operations_need_open_context Samples.friendly Further.closed 1
           Scenes.bell Scenes.bell_never (Some 4%positive) Hclosed).
Defined.

(** X10.  A play request whose properties are rejected (an invalid key, no
    event id, a volume or a cache control that does not parse) returns
    [CA_ERROR_INVALID] before anything is sent: the trace and the private
    data are unchanged, and the request that was allocated is released. *)
Theorem driver_play_rejects_properties (pa : pulse) (id : Z)
    (items : ca_proplist) (cb : option fnptr) (userdata : option Z)
    (s : state) :
  context_open s → (cb = None → userdata = None) →
  properties_rejected pa items →
  ∃ s', driver_play pa Context id (Some items) cb userdata s
        = Ret CA_ERROR_INVALID s' ∧
        trace s' = trace s ∧
        c_private s' = c_private s ∧
        heap s' !! next_addr s = None ∧
        ∀ a, a ≠ next_addr s → heap s' !! a = heap s !! a.
Proof.
  intros (p & Hp & Hm & Hc) Hud Hrej.
  assert (Hargs : bool_decide (userdata ≠ None) && bool_decide (cb = None)
                  = false).
  { destruct cb as [f |]; [now rewrite andb_false_r |].
    rewrite (Hud eq_refl). reflexivity. }
  assert (Hprep : ∀ st, play_prepare pa Context items cb st
                        = Ret (inl CA_ERROR_INVALID) st).
  { intros st. unfold play_prepare, properties_rejected in *.
    destruct (convert_proplist pa (Some items)) as [e | l] eqn:Hconv.
    - unfold convert_proplist in Hconv.
      destruct (convert_items pa items ∅); [discriminate |].
      now injection Hconv as <-.
    - destruct Hrej as [-> | [(vol & -> & ->) | (ct & -> & ->)]];
        [reflexivity | |].
      + now destruct (pa_proplist_gets l CA_PROP_EVENT_ID).
      + destruct (pa_proplist_gets l CA_PROP_EVENT_ID); [| reflexivity].
        now destruct (match pa_proplist_gets l CA_PROP_CANBERRA_VOLUME with
                      | Some vol => volume_from_string pa vol
                      | None => Some PA_VOLUME_NORM
                      end). }
  unfold driver_play. rewrite Hargs. run_m. rewrite Hp.
  destruct (decide (mainloop p = None)); [contradiction |].
  destruct (decide (context p = None)); [contradiction |].
  unfold ca_new0_outstanding. exec. rewrite Hprep.
  unfold play_finish, outstanding_free. exec.
  destruct cb as [f |]; exec; (eexists; split; [reflexivity |]); simpl;
    (split; [reflexivity |]); (split; [congruence |]);
    (split; [apply lookup_delete_eq |]);
    intros a Ha; rewrite lookup_delete_ne by congruence;
    rewrite !lookup_insert_ne by congruence; reflexivity.
Qed.

Lemma driver_play_rejects_properties_witness :
  context_open Scenes.idle ∧
  (Some 4%positive = None → @None Z = None) ∧
  properties_rejected Samples.friendly [("media.role", "event")] ∧
  ∃ s', driver_play Samples.friendly Context 1
          (Some [("media.role", "event")]) (Some 4%positive) None Scenes.idle
        = Ret CA_ERROR_INVALID s' ∧
        trace s' = trace Scenes.idle ∧
        c_private s' = c_private Scenes.idle ∧
        heap s' !! next_addr Scenes.idle = None ∧
        ∀ a, a ≠ next_addr Scenes.idle →
             heap s' !! a = heap Scenes.idle !! a.
Proof.
  assert (Hopen : context_open Scenes.idle).
  { eexists. split; [reflexivity | split; discriminate]. }
  assert (Hud : Some 4%positive = None → @None Z = None) by reflexivity.
  assert (Hrej : properties_rejected Samples.friendly
                   [("media.role", "event")])
    by (left; vm_compute; reflexivity).
  split; [exact Hopen |]. split; [exact Hud |]. split; [exact Hrej |].
  exact (driver_play_rejects_properties Samples.friendly 1
           [("media.role", "event")] (Some 4%positive) None Scenes.idle
           Hopen Hud Hrej).
Defined.

(** ** subscribe and driver_change_props *)

(** X11.  A [subscribe] that returns from an open context has sent at most
    one subscription request, has set the flag, has touched neither the
    heap nor the registry, and a second call returns [CA_SUCCESS] without
    doing anything: the subscription is requested once for a context. *)
Theorem subscribe_is_one_time (pa : pulse) (s s1 : state) (r : Z) :
  context_open s →
  subscribe pa Context s = Ret r s1 →
  (trace s1 = trace s ∨ trace s1 = EvSubscribe :: trace s) ∧
  (∃ p1, c_private s1 = Some p1 ∧ subscribed p1 = true) ∧
  heap s1 = heap s ∧ registry s1 = registry s ∧
  subscribe pa Context s1 = Ret CA_SUCCESS s1.
Proof.
  intros (p & Hp & Hm & Hc). unfold subscribe at 1. run_m. rewrite Hp.
  destruct (decide (mainloop p = None)); [contradiction |].
  destruct (decide (context p = None)); [contradiction |].
  destruct (subscribed p) eqn:Hs.
  - intros [= <- <-]. split; [now left |]. split; [eauto |].
    split; [reflexivity |]. split; [now rewrite Hp |].
    now apply (subscribe_again pa s p).
  - run_m. unfold translate.
    destruct (pa_context_subscribe pa (EvSubscribe :: trace s)) as [| errno];
      [| destruct (translate_error pa errno)]; run_m;
      intros Hrun; simplify_eq/=;
      (split; [now right |]); (split; [eauto |]);
      (split; [reflexivity |]);
      (split; [reflexivity |]);
      (apply (subscribe_again pa _ (set_subscribed p true));
       [reflexivity | exact Hm | exact Hc | reflexivity]).
Qed.

Lemma subscribe_is_one_time_witness :
  let run := subscribe Samples.friendly Context Scenes.idle in
  context_open Scenes.idle ∧
  run = Ret CA_SUCCESS (final_state run) ∧
  (trace (final_state run) = trace Scenes.idle ∨
   trace (final_state run) = EvSubscribe :: trace Scenes.idle) ∧
  (∃ p1, c_private (final_state run) = Some p1 ∧ subscribed p1 = true) ∧
  heap (final_state run) = heap Scenes.idle ∧
  registry (final_state run) = registry Scenes.idle ∧
  subscribe Samples.friendly Context (final_state run)
  = Ret CA_SUCCESS (final_state run).
Proof.
  intros run.
  assert (Hopen : context_open Scenes.idle).
  { eexists. split; [reflexivity | split; discriminate]. }
  assert (Hrun : run = Ret CA_SUCCESS (final_state run))
    by (vm_compute; reflexivity).
  split; [exact Hopen |]. split; [exact Hrun |].
  exact (subscribe_is_one_time Samples.friendly Scenes.idle (final_state run)
           CA_SUCCESS Hopen Hrun).
Defined.

(** X12.  [driver_change_props] sends the changed properties to the server
    after [strip_canberra_data], in one update request, and returns
    [CA_SUCCESS] when the request is issued and the translated server error
    when it is not; it changes nothing else. *)
Theorem driver_change_props_sends_stripped (pa : pulse)
    (changed merged : ca_proplist) (l : pa_proplist) (s : state) :
  context_open s →
  convert_proplist pa (Some changed) = inr l →
  let sent := final_state (emit (EvProplistUpdate (strip_canberra_data l)) s) in
  driver_change_props pa Context (Some changed) (Some merged) s =
  match pa_context_proplist_update pa (trace sent) with
  | OpStarted => Ret CA_SUCCESS sent
  | OpNull errno => translate pa errno sent
  end.
Proof.
  intros (p & Hp & Hm & Hc) Hconv sent. subst sent.
  unfold driver_change_props. rewrite Hconv. run_m. rewrite Hp.
  destruct (decide (mainloop p = None)); [contradiction |].
  destruct (decide (context p = None)); [contradiction |].
  run_m. rewrite <- Hp.
  destruct (pa_context_proplist_update pa _); reflexivity.
Qed.

Lemma driver_change_props_sends_stripped_witness :
  context_open Scenes.idle ∧
  convert_proplist Samples.friendly (Some Scenes.bell)
  = inr {[ "event.id" := "bell" ]} ∧
  let sent := final_state
                (emit (EvProplistUpdate
                         (strip_canberra_data {[ "event.id" := "bell" ]}))
                   Scenes.idle) in
  driver_change_props Samples.friendly Context (Some Scenes.bell)
    (Some Scenes.bell_never) Scenes.idle =
  match pa_context_proplist_update Samples.friendly (trace sent) with
  | OpStarted => Ret CA_SUCCESS sent
  | OpNull errno => translate Samples.friendly errno sent
  end.
Proof.
  assert (Hopen : context_open Scenes.idle).
  { eexists. split; [reflexivity | split; discriminate]. }
  assert (Hconv : convert_proplist Samples.friendly (Some Scenes.bell)
                  = inr {[ "event.id" := "bell" ]})
    by (vm_compute; reflexivity).
  split; [exact Hopen |]. split; [exact Hconv |].
  exact (driver_change_props_sends_stripped Samples.friendly Scenes.bell
           Scenes.bell_never {[ "event.id" := "bell" ]} Scenes.idle
           Hopen Hconv).
Defined.

(** ** driver_cancel and driver_destroy *)

Lemma cancel_loop_skips pa id : ∀ todo r s,
  (∀ a, a ∈ todo → is_Some (heap s !! a)) →
  (∀ a, a ∈ todo → cancel_target (heap s) id a = false) →
  cancel_loop pa id todo r s = Ret r s.
Proof.
  induction todo as [| o n IH]; intros r s Hlive Hskip; [reflexivity |].
  destruct (Hlive o) as [out Hout]; [left |].
  pose proof (Hskip o (list_elem_of_here _ _)) as Ho.
  unfold cancel_target in Ho. rewrite Hout in Ho.
  apply negb_false_iff in Ho.
  simpl. run_m. rewrite Hout, Ho.
  apply IH; intros a Ha; [apply Hlive | apply Hskip]; now right.
Qed.

(** X13.  A cancel that selects no request (no live request has the id, or
    those that have it are uploads or have no sink input yet) returns
    [CA_SUCCESS] and leaves the state exactly as it was: nothing is sent,
    no callback is called. *)
Theorem driver_cancel_without_target (pa : pulse) (id : Z) (s : state)
    (p : private) :
  c_private s = Some p → mainloop p ≠ None → context p ≠ None →
  (∀ a, a ∈ outstanding_list p → is_Some (heap s !! a)) →
  (∀ a, a ∈ outstanding_list p → cancel_target (heap s) id a = false) →
  driver_cancel pa Context id s = Ret CA_SUCCESS s.
Proof.
  intros Hp Hm Hc Hlive Hskip. unfold driver_cancel. run_m. rewrite Hp.
  destruct (decide (mainloop p = None)); [contradiction |].
  destruct (decide (context p = None)); [contradiction |].
  now apply cancel_loop_skips.
Qed.

Lemma driver_cancel_without_target_witness :
  c_private Scenes.two_requests = Some Scenes.two_requests_private ∧
  mainloop Scenes.two_requests_private ≠ None ∧
  context Scenes.two_requests_private ≠ None ∧
  (∀ a, a ∈ outstanding_list Scenes.two_requests_private →
        is_Some (heap Scenes.two_requests !! a)) ∧
  (∀ a, a ∈ outstanding_list Scenes.two_requests_private →
        cancel_target (heap Scenes.two_requests) 3 a = false) ∧
  driver_cancel Samples.friendly Context 3 Scenes.two_requests
  = Ret CA_SUCCESS Scenes.two_requests.
Proof.
  assert (Hm : mainloop Scenes.two_requests_private ≠ None) by discriminate.
  assert (Hc : context Scenes.two_requests_private ≠ None) by discriminate.
  assert (Hlive : ∀ a, a ∈ outstanding_list Scenes.two_requests_private →
                       is_Some (heap Scenes.two_requests !! a))
    by apply two_requests_wf.
  assert (Hskip : ∀ a, a ∈ outstanding_list Scenes.two_requests_private →
                       cancel_target (heap Scenes.two_requests) 3 a = false).
  { intros a Ha. simpl in Ha.
    apply elem_of_cons in Ha as [-> | Ha]; [vm_compute; reflexivity |].
    apply elem_of_cons in Ha as [-> | Ha]; [vm_compute; reflexivity |].
    now apply not_elem_of_nil in Ha. }
  split; [reflexivity |]. split; [exact Hm |]. split; [exact Hc |].
  split; [exact Hlive |]. split; [exact Hskip |].
  exact (driver_cancel_without_target Samples.friendly 3 Scenes.two_requests
           Scenes.two_requests_private eq_refl Hm Hc Hlive Hskip).
Defined.

(** What the loop of [driver_cancel] does outside the driver, on distinct
    live requests: it completes the requests the test selects, in list
    order, each with [CA_ERROR_CANCELED] and with its own callback, id and
    user data. *)
Lemma cancel_loop_effects pa id : kill_errors_valid pa → ∀ todo r s,
  c_private s ≠ None → NoDup todo →
  (∀ a, a ∈ todo → is_Some (heap s !! a)) →
  effects (trace (final_state (cancel_loop pa id todo r s))) =
  effects (trace s) ++
  owed_completions (heap s)
    (filter (λ a, cancel_target (heap s) id a = true) todo)
    CA_ERROR_CANCELED.
Proof.
  intros Hkill. induction todo as [| o n IH]; intros r s Hpriv Hnd Hlive.
  - simpl. unfold owed_completions. simpl. now rewrite app_nil_r.
  - destruct (Hlive o) as [out Hout]; [left |].
    apply NoDup_cons in Hnd as [Hon Hnd].
    destruct (c_private s) as [p |] eqn:Hp; [| congruence].
    simpl. run_m. rewrite Hout.
    destruct (cancel_target (heap s) id o) eqn:Htarget.
    + unfold cancel_target in Htarget. rewrite Hout in Htarget.
      apply negb_true_iff in Htarget. rewrite Htarget. run_m.
      assert (Htarget' : cancel_target (heap s) id o = true).
      { unfold cancel_target. rewrite Hout. now apply negb_true_iff. }
      assert (Hret2 : ∃ ret2, ∀ st,
                match pa_context_kill_sink_input pa
                        (EvKillSinkInput (o_sink_input out) :: trace s) with
                | OpStarted => λ s0 : state, Ret (indeterminate pa (trace s0)) s0
                | OpNull errno => translate pa errno
                end st = Ret (ret2 st) st).
      { destruct (pa_context_kill_sink_input pa _) as [| errno] eqn:Hk.
        - exists (λ st, indeterminate pa (trace st)). reflexivity.
        - destruct (translate_error_total pa errno (Hkill _ _ Hk)) as [e He].
          exists (λ _, e). intros st. unfold translate. now rewrite He. }
      destruct Hret2 as (ret2 & ->).
      rewrite filter_cons_True by exact Htarget'.
      unfold owed_completions at 1. csimpl. rewrite Hout.
      fold (owed_completions (heap s)
              (filter (λ a, cancel_target (heap s) id a = true) n)
              CA_ERROR_CANCELED).
      unfold completion.
      destruct (o_callback out) as [cb |]; run_m; rewrite Hp; run_m;
        rewrite Hout; run_m;
        destruct (o_file out) as [f |]; run_m;
        destruct (o_stream out) as [st |]; run_m;
        match goal with
        | |- context [cancel_loop pa id n ?r1 ?s1] =>
            rewrite (IH r1 s1);
              [ | discriminate | exact Hnd
                | intros a Ha; simpl;
                  rewrite lookup_delete_ne by (intros ->; contradiction);
                  apply Hlive; now right ]
        end;
        simpl;
        rewrite (filter_target_delete _ _ _ _ true Hon);
        rewrite owed_completions_delete
          by (intros Hx; apply list_elem_of_filter in Hx as [_ Hx];
              contradiction);
        effects_of_trace; reflexivity.
    + unfold cancel_target in Htarget. rewrite Hout in Htarget.
      apply negb_false_iff in Htarget. rewrite Htarget.
      assert (Htarget' : cancel_target (heap s) id o = false).
      { unfold cancel_target. rewrite Hout. now apply negb_false_iff. }
      rewrite filter_cons_False by congruence.
      apply IH; [now rewrite Hp | exact Hnd |].
      intros a Ha. apply Hlive. now right.
Qed.

(** X14.  [driver_cancel] on a registry of distinct live requests: the
    requests it selects leave the registry and the heap, and the others
    stay where they are, in their order.  Each selected request is
    completed, in registry order: its callback, when it has one, is called
    once as [out->callback (c, out->id, CA_ERROR_CANCELED, out->userdata)]
    with the request's own function, id and user data, its sound file is
    closed and its stream disconnected; no other callback is called and
    nothing else is closed or disconnected.  This holds whether or not a
    kill request fails. *)
Theorem driver_cancel_cancels_every_target (pa : pulse) (id : Z) (s : state)
    (p : private) :
  kill_errors_valid pa →
  c_private s = Some p → mainloop p ≠ None → context p ≠ None →
  registry_wf (heap s) (outstanding_list p) →
  ∃ r s', driver_cancel pa Context id s = Ret r s' ∧
    registry s'
    = filter (λ a, cancel_target (heap s) id a = false) (outstanding_list p) ∧
    (∀ a, heap s' !! a =
          if decide (a ∈ outstanding_list p ∧ cancel_target (heap s) id a = true)
          then None else heap s !! a) ∧
    effects (trace s') = effects (trace s) ++
      owed_completions (heap s)
        (filter (λ a, cancel_target (heap s) id a = true) (outstanding_list p))
        CA_ERROR_CANCELED.
Proof.
  intros Hkill Hp Hm Hc [Hnd Hlive].
  pose proof (cancel_loop_effects pa id Hkill (outstanding_list p) CA_SUCCESS s)
    as Heff.
  unfold driver_cancel. run_m. rewrite Hp.
  destruct (decide (mainloop p = None)); [contradiction |].
  destruct (decide (context p = None)); [contradiction |].
  destruct (cancel_loop_spec pa id Hkill (outstanding_list p) [] CA_SUCCESS
              s p Hp eq_refl Hnd Hlive)
    as (r & s' & Hrun & Hp' & Hh' & _).
  rewrite Hrun in Heff. simpl in Heff.
  exists r, s'. split; [exact Hrun |].
  split; [unfold registry; now rewrite Hp' |]. split; [exact Hh' |].
  apply Heff; [congruence | exact Hnd | exact Hlive].
Qed.

Lemma driver_cancel_cancels_every_target_witness :
  kill_errors_valid Samples.friendly ∧
  c_private Further.busy = Some Further.busy_private ∧
  mainloop Further.busy_private ≠ None ∧
  context Further.busy_private ≠ None ∧
  registry_wf (heap Further.busy) (outstanding_list Further.busy_private) ∧
  ∃ r s', driver_cancel Samples.friendly Context 1 Further.busy = Ret r s' ∧
    registry s'
    = filter (λ a, cancel_target (heap Further.busy) 1 a = false)
        (outstanding_list Further.busy_private) ∧
    (∀ a, heap s' !! a =
          if decide (a ∈ outstanding_list Further.busy_private ∧
                     cancel_target (heap Further.busy) 1 a = true)
          then None else heap Further.busy !! a) ∧
    effects (trace s') = effects (trace Further.busy) ++
      owed_completions (heap Further.busy)
        (filter (λ a, cancel_target (heap Further.busy) 1 a = true)
           (outstanding_list Further.busy_private))
        CA_ERROR_CANCELED.
Proof.
  assert (Hm : mainloop Further.busy_private ≠ None) by discriminate.
  assert (Hc : context Further.busy_private ≠ None) by discriminate.
  split; [exact kill_always_starts |]. split; [reflexivity |].
  split; [exact Hm |]. split; [exact Hc |]. split; [exact busy_wf |].
  exact (driver_cancel_cancels_every_target Samples.friendly 1
           Further.busy Further.busy_private
           kill_always_starts eq_refl Hm Hc busy_wf).
Defined.

(** X15.  After a [driver_destroy] the context is closed for good: a second
    [driver_destroy] and a [driver_cancel] return [CA_ERROR_STATE] and
    change nothing. *)
Theorem driver_destroy_twice (pa : pulse) (s : state) (p : private) (id : Z) :
  c_private s = Some p →
  registry_wf (heap s) (outstanding_list p) →
  ∃ s1, driver_destroy Context s = Ret CA_SUCCESS s1 ∧
        driver_destroy Context s1 = Ret CA_ERROR_STATE s1 ∧
        driver_cancel pa Context id s1 = Ret CA_ERROR_STATE s1.
Proof.
  intros Hp Hwf. unfold driver_destroy at 1. run_m. rewrite Hp.
  destruct (mainloop p) as [ml |]; run_m;
    match goal with
    | |- context [drain_outstanding ?n ?e ?st] =>
        destruct (drain_spec (outstanding_list p) n e st p)
          as (s1 & Hrun & Hp1 & _);
          [simpl; auto | reflexivity | exact Hwf | lia |]
    end;
    rewrite Hrun; destruct (context p) as [ctx |]; run_m;
    (eexists; split; [reflexivity |]); split; reflexivity.
Qed.

Lemma driver_destroy_twice_witness :
  c_private Scenes.two_requests = Some Scenes.two_requests_private ∧
  registry_wf (heap Scenes.two_requests)
    (outstanding_list Scenes.two_requests_private) ∧
  ∃ s1, driver_destroy Context Scenes.two_requests = Ret CA_SUCCESS s1 ∧
        driver_destroy Context s1 = Ret CA_ERROR_STATE s1 ∧
        driver_cancel Samples.friendly Context 1 s1 = Ret CA_ERROR_STATE s1.
Proof.
  split; [reflexivity |]. split; [exact two_requests_wf |].
  exact (driver_destroy_twice Samples.friendly Scenes.two_requests
           Scenes.two_requests_private 1 eq_refl two_requests_wf).
Defined.

(** ** The stream callbacks *)

Ltac by_cases out Hout :=
  destruct (o_callback out) as [cb |]; run_m; rewrite ?Hout; run_m;
  destruct (o_file out) as [f |]; run_m;
  destruct (o_stream out) as [st' |]; run_m.

Ltac completed :=
  (eexists; split; [reflexivity |]); simpl;
  effects_of_trace; auto.

(** X16.  When the stream of a registered request fails or terminates,
    [stream_state_cb] takes the request out of the registry and completes
    it: its callback, when it has one, is called once as [out->callback
    (out->context, out->id, err, out->userdata)] with the request's own
    function, id and user data, where [err] is the translated server error
    for a failed stream and [CA_ERROR_DESTROYED] for a terminated one; its
    sound file is closed, its stream disconnected, and it is released.
    Nothing else is called, closed or disconnected. *)
Theorem stream_state_cb_completes (pa : pulse) (o : addr)
    (st : pa_stream_state_t) (errno err : Z) (s : state) (p : private)
    (out : outstanding) :
  c_private s = Some p → heap s !! o = Some out → o_clean_up out = true →
  match st with
  | PA_STREAM_FAILED => translate_error pa errno
  | PA_STREAM_TERMINATED => Some CA_ERROR_DESTROYED
  | _ => None
  end = Some err →
  ∃ s', stream_state_cb pa o st errno s = Ret tt s' ∧
        registry s' = llist_remove o (outstanding_list p) ∧
        heap s' = delete o (heap s) ∧
        effects (trace s') = effects (trace s) ++ completion o out err.
Proof.
  intros Hp Hout Hclean Herr. unfold stream_state_cb, translate,
    outstanding_free, completion.
  run_m. rewrite Hout, Hclean.
  destruct st; try discriminate; run_m; rewrite Hp; run_m;
    [rewrite Herr | injection Herr as <-]; run_m;
    by_cases out Hout; completed.
Qed.

Lemma stream_state_cb_completes_witness :
  c_private Further.streaming = Some Further.streaming_private ∧
  heap Further.streaming !! 5%positive = Some Further.streaming_request ∧
  o_clean_up Further.streaming_request = true ∧
  translate_error Samples.friendly PA_ERR_KILLED = Some CA_ERROR_DESTROYED ∧
  ∃ s', stream_state_cb Samples.friendly 5%positive PA_STREAM_FAILED
          PA_ERR_KILLED Further.streaming = Ret tt s' ∧
        registry s'
        = llist_remove 5%positive (outstanding_list Further.streaming_private) ∧
        heap s' = delete 5%positive (heap Further.streaming) ∧
        effects (trace s') = effects (trace Further.streaming) ++
          completion 5%positive Further.streaming_request CA_ERROR_DESTROYED.
Proof.
  split; [reflexivity |]. split; [reflexivity |]. split; [reflexivity |].
  split; [reflexivity |].
  exact (stream_state_cb_completes Samples.friendly 5%positive
           PA_STREAM_FAILED PA_ERR_KILLED CA_ERROR_DESTROYED
           Further.streaming Further.streaming_private
           Further.streaming_request eq_refl eq_refl eq_refl eq_refl).
Defined.

(** X17.  [stream_drain_cb] completes a registered request: it takes it out
    of the registry; its callback, when it has one, is called once as
    [out->callback (out->context, out->id, err, out->userdata)] with the
    request's own function, id and user data, where [err] is [CA_SUCCESS]
    when the drain succeeded and the translated server error when it did
    not; its sound file is closed, its stream disconnected, and it is
    released.  Nothing else is called, closed or disconnected. *)
Theorem stream_drain_cb_completes (pa : pulse) (o : addr) (success : bool)
    (errno err : Z) (s : state) (p : private) (out : outstanding) :
  c_private s = Some p → heap s !! o = Some out → o_clean_up out = true →
  (if success then Some CA_SUCCESS else translate_error pa errno) = Some err →
  ∃ s', stream_drain_cb pa o success errno s = Ret tt s' ∧
        registry s' = llist_remove o (outstanding_list p) ∧
        heap s' = delete o (heap s) ∧
        effects (trace s') = effects (trace s) ++ completion o out err.
Proof.
  intros Hp Hout Hclean Herr. unfold stream_drain_cb, translate,
    outstanding_free, completion.
  repeat (progress (run_m; rewrite ?lookup_insert_eq, ?Hout, ?Hclean, ?Hp)).
  destruct (o_callback out) as [cb |]; run_m;
    [destruct success; [injection Herr as <- | rewrite Herr]; run_m |];
    rewrite ?lookup_insert_eq; run_m;
    destruct (o_file out) as [f |]; run_m;
    destruct (o_stream out) as [st' |]; run_m;
    (eexists; split; [reflexivity |]); simpl;
    effects_of_trace;
    (split; [reflexivity |]);
    (split; [| reflexivity]);
    apply map_eq; intros a; destruct (decide (a = o)) as [-> | Hne];
    rewrite ?lookup_delete_eq, ?lookup_delete_ne, ?lookup_insert_ne
      by congruence; reflexivity.
Qed.

Lemma stream_drain_cb_completes_witness :
  c_private Further.streaming = Some Further.streaming_private ∧
  heap Further.streaming !! 5%positive = Some Further.streaming_request ∧
  o_clean_up Further.streaming_request = true ∧
  (if false then Some CA_SUCCESS
   else translate_error Samples.friendly PA_ERR_TIMEOUT) = Some CA_ERROR_IO ∧
  ∃ s', stream_drain_cb Samples.friendly 5%positive false PA_ERR_TIMEOUT
          Further.streaming = Ret tt s' ∧
        registry s'
        = llist_remove 5%positive (outstanding_list Further.streaming_private) ∧
        heap s' = delete 5%positive (heap Further.streaming) ∧
        effects (trace s') = effects (trace Further.streaming) ++
          completion 5%positive Further.streaming_request CA_ERROR_IO.
Proof.
  split; [reflexivity |]. split; [reflexivity |]. split; [reflexivity |].
  split; [reflexivity |].
  exact (stream_drain_cb_completes Samples.friendly 5%positive false
           PA_ERR_TIMEOUT CA_ERROR_IO Further.streaming
           Further.streaming_private Further.streaming_request
           eq_refl eq_refl eq_refl eq_refl).
Defined.

(** X18.  At the end of the sound file [stream_write_cb] completes nothing
    itself: for an upload it finishes the upload and signals the waiting
    [driver_cache]; for a playback stream it starts the drain, whose
    callback will complete the request.  The registry is untouched and no
    callback is called. *)
Theorem stream_write_cb_end_of_file (pa : pulse) (o : addr) (st : handle)
    (bytes : Z) (w : write_answers) (s : state) (out : outstanding) :
  0 < bytes → wa_malloc w = true → wa_read w = ReadBytes 0 →
  heap s !! o = Some out →
  wa_finish_upload w = None → wa_drain w = OpStarted →
  ∃ s', stream_write_cb pa o st bytes w s = Ret tt s' ∧
        c_private s' = c_private s ∧
        callbacks (trace s') = callbacks (trace s) ∧
        if decide (o_type out = OUTSTANDING_UPLOAD)
        then trace s' = EvSignal :: EvFinishUpload st :: trace s ∧
             heap s' = heap s
        else trace s' = EvStreamDrain st :: trace s ∧
             heap s' = <[o := with_type OUTSTANDING_STREAM out]> (heap s).
Proof.
  intros Hb Hmem Hr Hout Hfin Hdrain. unfold stream_write_cb, write_body.
  rewrite decide_False by lia. rewrite Hmem, Hr. run_m. rewrite Hout. run_m.
  destruct (decide (o_type out = OUTSTANDING_UPLOAD)); run_m.
  - rewrite Hfin. run_m. eexists. split; [reflexivity |]. simpl.
    rewrite !callbacks_cons. simpl. rewrite !app_nil_r. auto.
  - rewrite Hout. run_m. rewrite Hout. run_m. rewrite Hdrain. run_m.
    eexists. split; [reflexivity |]. simpl.
    rewrite !callbacks_cons. simpl. rewrite !app_nil_r. auto.
Qed.

Lemma stream_write_cb_end_of_file_witness :
  0 < 4096 ∧ wa_malloc Further.at_end = true ∧
  wa_read Further.at_end = ReadBytes 0 ∧
  heap Further.streaming !! 5%positive = Some Further.streaming_request ∧
  wa_finish_upload Further.at_end = None ∧
  wa_drain Further.at_end = OpStarted ∧
  ∃ s', stream_write_cb Samples.friendly 5%positive 1%positive 4096
          Further.at_end Further.streaming = Ret tt s' ∧
        c_private s' = c_private Further.streaming ∧
        callbacks (trace s') = callbacks (trace Further.streaming) ∧
        if decide (o_type Further.streaming_request = OUTSTANDING_UPLOAD)
        then trace s' = EvSignal :: EvFinishUpload 1%positive
                          :: trace Further.streaming ∧
             heap s' = heap Further.streaming
        else trace s' = EvStreamDrain 1%positive :: trace Further.streaming ∧
             heap s' = <[5%positive := with_type OUTSTANDING_STREAM
                                         Further.streaming_request]>
                         (heap Further.streaming).
Proof.
  assert (Hb : 0 < 4096) by lia.
  split; [exact Hb |]. split; [reflexivity |]. split; [reflexivity |].
  split; [reflexivity |]. split; [reflexivity |]. split; [reflexivity |].
  exact (stream_write_cb_end_of_file Samples.friendly 5%positive 1%positive
           4096 Further.at_end Further.streaming Further.streaming_request
           Hb eq_refl eq_refl eq_refl eq_refl eq_refl).
Defined.

(** X19.  When [stream_write_cb] cannot get memory or cannot read the sound
    file, a registered request is taken out of the registry and completed
    with that error: its callback, when it has one, is called once as
    [out->callback (out->context, out->id, ret, out->userdata)] with the
    request's own function, id and user data, its sound file is closed, its
    stream disconnected, and it is released.  A request that [driver_play]
    or [driver_cache] is still waiting on is left in place with the error
    stored in it, its stream disconnected and the waiting thread
    signalled. *)
Theorem stream_write_cb_failure (pa : pulse) (o : addr) (st : handle)
    (bytes : Z) (w : write_answers) (r : Z) (s : state) (p : private)
    (out : outstanding) :
  0 < bytes → write_fails_with w r →
  c_private s = Some p → heap s !! o = Some out →
  ∃ s', stream_write_cb pa o st bytes w s = Ret tt s' ∧
        if o_clean_up out
        then registry s' = llist_remove o (outstanding_list p) ∧
             heap s' = delete o (heap s) ∧
             effects (trace s') = effects (trace s) ++ completion o out r
        else registry s' = registry s ∧
             heap s' = <[o := with_error r out]> (heap s) ∧
             trace s' = EvSignal :: EvStreamDisconnect st :: trace s.
Proof.
  intros Hb Hfail Hp Hout.
  assert (Hbody : write_body pa o st w s = Ret (Some r) s).
  { unfold write_body.
    destruct Hfail as [[-> ->] | (-> & e & -> & ->)]; reflexivity. }
  unfold stream_write_cb, outstanding_free, completion.
  rewrite decide_False by lia. unfold bind at 1. rewrite Hbody.
  run_m. rewrite Hout. run_m.
  destruct (o_clean_up out); run_m; rewrite ?Hp, ?Hout; run_m.
  - by_cases out Hout; completed.
  - rewrite Hout. run_m. eexists. split; [reflexivity |]. simpl.
    unfold registry. simpl. auto.
Qed.

Lemma stream_write_cb_failure_witness :
  0 < 4096 ∧ write_fails_with Further.unreadable CA_ERROR_CORRUPT ∧
  c_private Further.streaming = Some Further.streaming_private ∧
  heap Further.streaming !! 5%positive = Some Further.streaming_request ∧
  ∃ s', stream_write_cb Samples.friendly 5%positive 1%positive 4096
          Further.unreadable Further.streaming = Ret tt s' ∧
        if o_clean_up Further.streaming_request
        then registry s'
             = llist_remove 5%positive
                 (outstanding_list Further.streaming_private) ∧
             heap s' = delete 5%positive (heap Further.streaming) ∧
             effects (trace s') = effects (trace Further.streaming) ++
               completion 5%positive Further.streaming_request
                 CA_ERROR_CORRUPT
        else registry s' = registry Further.streaming ∧
             heap s' = <[5%positive := with_error CA_ERROR_CORRUPT
                                         Further.streaming_request]>
                         (heap Further.streaming) ∧
             trace s' = EvSignal :: EvStreamDisconnect 1%positive
                          :: trace Further.streaming.
Proof.
  assert (Hb : 0 < 4096) by lia.
  assert (Hfail : write_fails_with Further.unreadable CA_ERROR_CORRUPT).
  { right. split; [reflexivity |]. exists 7%positive. split; reflexivity. }
  split; [exact Hb |]. split; [exact Hfail |]. split; [reflexivity |].
  split; [reflexivity |].
  exact (stream_write_cb_failure Samples.friendly 5%positive 1%positive 4096
           Further.unreadable CA_ERROR_CORRUPT Further.streaming
           Further.streaming_private Further.streaming_request
           Hb Hfail eq_refl eq_refl).
Defined.

(** X20.  When [pa_stream_write] fails, [stream_write_cb] passes its
    negative return value to [translate_error], whose assertion
    [error >= 0] fails: the callback does not reach [finish], and the
    request is neither completed nor marked with an error. *)
Theorem stream_write_cb_write_failure_asserts (pa : pulse) (o : addr)
    (st : handle) (bytes n : Z) (w : write_answers) (s : state) :
  0 < bytes → wa_malloc w = true → wa_read w = ReadBytes n → 0 < n →
  wa_write w < 0 →
  ∃ s', stream_write_cb pa o st bytes w s = Crash AssertionFailed s' ∧
        trace s' = EvStreamWrite st n :: trace s ∧
        heap s' = heap s ∧ c_private s' = c_private s.
Proof.
  intros Hb Hmem Hr Hn Hw. unfold stream_write_cb, write_body, translate,
    translate_error.
  rewrite decide_False by lia. rewrite Hmem, Hr. simpl.
  rewrite (decide_True (P := 0 < n)) by exact Hn. run_m.
  rewrite (decide_True (P := wa_write w < 0)) by exact Hw.
  rewrite (decide_True (P := wa_write w < 0)) by exact Hw. run_m.
  eexists. split; [reflexivity |]. auto.
Qed.

Lemma stream_write_cb_write_failure_asserts_witness :
  0 < 4096 ∧ wa_malloc Further.unwritable = true ∧
  wa_read Further.unwritable = ReadBytes 512 ∧ 0 < 512 ∧
  wa_write Further.unwritable < 0 ∧
  ∃ s', stream_write_cb Samples.friendly 5%positive 1%positive 4096
          Further.unwritable Further.streaming = Crash AssertionFailed s' ∧
        trace s' = EvStreamWrite 1%positive 512 :: trace Further.streaming ∧
        heap s' = heap Further.streaming ∧
        c_private s' = c_private Further.streaming.
Proof.
  assert (Hb : 0 < 4096) by lia.
  assert (Hn : 0 < 512) by lia.
  assert (Hw : wa_write Further.unwritable < 0) by (simpl; lia).
  split; [exact Hb |]. split; [reflexivity |]. split; [reflexivity |].
  split; [exact Hn |]. split; [exact Hw |].
  exact (stream_write_cb_write_failure_asserts Samples.friendly 5%positive
           1%positive 4096 512 Further.unwritable Further.streaming
           Hb eq_refl eq_refl Hn Hw).
Defined.

(** X21.  A registered playback request is completed exactly once at the
    end of its file: [stream_write_cb] at the end of the file followed by
    the drain callback takes the request out of the registry and completes
    it, and does nothing else outside the driver: its callback, when it has
    one, is called once as [out->callback (out->context, out->id,
    CA_SUCCESS, out->userdata)] with the request's own function, id and
    user data, its sound file is closed, its stream disconnected, and it is
    released. *)
Theorem playback_ends_with_one_callback (pa : pulse) (o : addr) (st : handle)
    (bytes : Z) (w : write_answers) (errno : Z) (s : state) (p : private)
    (out : outstanding) :
  0 < bytes → wa_malloc w = true → wa_read w = ReadBytes 0 →
  wa_drain w = OpStarted →
  c_private s = Some p → heap s !! o = Some out →
  o_type out = OUTSTANDING_STREAM → o_clean_up out = true →
  ∃ s', (let* _ := stream_write_cb pa o st bytes w in
         stream_drain_cb pa o true errno) s = Ret tt s' ∧
        registry s' = llist_remove o (outstanding_list p) ∧
        heap s' = delete o (heap s) ∧
        effects (trace s') = effects (trace s) ++ completion o out CA_SUCCESS.
Proof.
  intros Hb Hmem Hr Hdrain Hp Hout Htype Hclean.
  unfold stream_write_cb, write_body, completion.
  rewrite decide_False by lia. rewrite Hmem, Hr. run_m. rewrite Hout. run_m.
  rewrite decide_False by (rewrite Htype; discriminate).
  run_m. rewrite Hout. run_m. rewrite Hout. run_m. rewrite Hdrain. run_m.
  unfold stream_drain_cb, outstanding_free.
  repeat (progress (run_m; rewrite ?lookup_insert_eq, ?Hclean, ?Hp)).
  destruct (o_callback out) as [cb |]; run_m;
    rewrite ?lookup_insert_eq; run_m;
    destruct (o_file out) as [f |]; run_m;
    destruct (o_stream out) as [st' |]; run_m;
    (eexists; split; [reflexivity |]); simpl;
    effects_of_trace;
    (split; [reflexivity |]);
    (split; [| reflexivity]);
    apply map_eq; intros a; destruct (decide (a = o)) as [-> | Hne];
    rewrite ?lookup_delete_eq, ?lookup_delete_ne, ?lookup_insert_ne
      by congruence; reflexivity.
Qed.

Lemma playback_ends_with_one_callback_witness :
  0 < 4096 ∧ wa_malloc Further.at_end = true ∧
  wa_read Further.at_end = ReadBytes 0 ∧
  wa_drain Further.at_end = OpStarted ∧
  c_private Further.streaming = Some Further.streaming_private ∧
  heap Further.streaming !! 5%positive = Some Further.streaming_request ∧
  o_type Further.streaming_request = OUTSTANDING_STREAM ∧
  o_clean_up Further.streaming_request = true ∧
  ∃ s', (let* _ := stream_write_cb Samples.friendly 5%positive 1%positive
                     4096 Further.at_end in
         stream_drain_cb Samples.friendly 5%positive true PA_OK)
          Further.streaming = Ret tt s' ∧
        registry s'
        = llist_remove 5%positive (outstanding_list Further.streaming_private) ∧
        heap s' = delete 5%positive (heap Further.streaming) ∧
        effects (trace s') = effects (trace Further.streaming) ++
          completion 5%positive Further.streaming_request CA_SUCCESS.
Proof.
  assert (Hb : 0 < 4096) by lia.
  split; [exact Hb |]. split; [reflexivity |]. split; [reflexivity |].
  split; [reflexivity |]. split; [reflexivity |]. split; [reflexivity |].
  split; [reflexivity |]. split; [reflexivity |].
  exact (playback_ends_with_one_callback Samples.friendly 5%positive
           1%positive 4096 Further.at_end PA_OK Further.streaming
           Further.streaming_private Further.streaming_request
           Hb eq_refl eq_refl eq_refl eq_refl eq_refl eq_refl eq_refl).
Defined.

(** ** The callbacks of the context *)

(** X22.  When the connection fails or terminates, [context_state_cb] fails
    every outstanding request: on a registry of distinct live requests it
    empties the registry and completes every request of it, in registry
    order, and does nothing else outside the driver: the callback of each
    request that has one is called once as [out->callback (c, out->id, ret,
    out->userdata)] with the request's own function, id and user data and
    the translated server error, its sound file is closed, its stream
    disconnected.  Every request of the registry, and no other, is
    released; the private data stays. *)
Theorem context_state_cb_fails_every_request (pa : pulse)
    (st : pa_context_state_t) (errno err : Z) (s : state) (p : private) :
  c_private s = Some p → registry_wf (heap s) (outstanding_list p) →
  st = PA_CONTEXT_FAILED ∨ st = PA_CONTEXT_TERMINATED →
  translate_error pa errno = Some err →
  ∃ s', context_state_cb pa st errno s = Ret tt s' ∧
        c_private s' = Some (set_outstanding_list p []) ∧
        (∀ a, heap s' !! a =
              if decide (a ∈ outstanding_list p) then None else heap s !! a) ∧
        effects (trace s') =
          effects (trace s) ++
          owed_completions (heap s) (outstanding_list p) err.
Proof.
  intros Hp Hwf Hst Herr.
  destruct (drain_spec (outstanding_list p) (length (outstanding_list p))
              err s p Hp eq_refl Hwf (le_n _))
    as (s1 & Hrun & Hp1 & Hh1 & Hc1 & _).
  unfold context_state_cb, translate. run_m. rewrite Hp.
  destruct Hst as [-> | ->]; rewrite Herr; run_m; rewrite Hrun; run_m;
    (eexists; split; [reflexivity |]); simpl;
    rewrite effects_cons; simpl; rewrite app_nil_r; auto.
Qed.

Lemma context_state_cb_fails_every_request_witness :
  c_private Further.busy = Some Further.busy_private ∧
  registry_wf (heap Further.busy) (outstanding_list Further.busy_private) ∧
  (PA_CONTEXT_FAILED = PA_CONTEXT_FAILED ∨
   PA_CONTEXT_FAILED = PA_CONTEXT_TERMINATED) ∧
  translate_error Samples.friendly PA_ERR_CONNECTIONTERMINATED
  = Some CA_ERROR_IO ∧
  ∃ s', context_state_cb Samples.friendly PA_CONTEXT_FAILED
          PA_ERR_CONNECTIONTERMINATED Further.busy = Ret tt s' ∧
        c_private s' = Some (set_outstanding_list Further.busy_private []) ∧
        (∀ a, heap s' !! a =
              if decide (a ∈ outstanding_list Further.busy_private)
              then None else heap Further.busy !! a) ∧
        effects (trace s') =
          effects (trace Further.busy) ++
          owed_completions (heap Further.busy)
            (outstanding_list Further.busy_private) CA_ERROR_IO.
Proof.
  assert (Hst : PA_CONTEXT_FAILED = PA_CONTEXT_FAILED ∨
                PA_CONTEXT_FAILED = PA_CONTEXT_TERMINATED) by now left.
  split; [reflexivity |]. split; [exact busy_wf |].
  split; [exact Hst |]. split; [reflexivity |].
  exact (context_state_cb_fails_every_request Samples.friendly
           PA_CONTEXT_FAILED PA_ERR_CONNECTIONTERMINATED CA_ERROR_IO
           Further.busy Further.busy_private
           eq_refl busy_wf Hst eq_refl).
Defined.

Lemma subscribe_collect_spec (idx : Z) (todo : list addr) :
  ∀ (kept l : list addr) (s : state) (p : private),
    c_private s = Some p → outstanding_list p = kept ++ todo →
    NoDup (kept ++ todo) → (∀ a, a ∈ todo → is_Some (heap s !! a)) →
    ∃ s', subscribe_collect idx todo l s
          = Ret (reverse (filter (λ a, removal_target (heap s) idx a = true)
                            todo) ++ l) s' ∧
          c_private s' = Some (set_outstanding_list p
            (kept ++ filter (λ a, removal_target (heap s) idx a = false)
                       todo)) ∧
          heap s' = heap s ∧ trace s' = trace s.
Proof.
  induction todo as [| o n IH]; intros kept l s p Hp Hl Hnd Hlive.
  - exists s. split; [reflexivity |]. rewrite app_nil_r in *.
    split; [rewrite Hp, <- Hl; now destruct p | auto].
  - destruct (Hlive o) as [out Hout]; [left |].
    assert (Hlive' : ∀ a, a ∈ n → is_Some (heap s !! a))
      by (intros a Ha; apply Hlive; now right).
    simpl. run_m. rewrite Hout. run_m.
    destruct (bool_decide (o_type out ≠ OUTSTANDING_SAMPLE)
              || bool_decide (o_sink_input out ≠ idx)) eqn:Htest.
    + assert (Ht : removal_target (heap s) idx o = false)
        by (unfold removal_target; rewrite Hout, Htest; reflexivity).
      destruct (IH (kept ++ [o]) l s p Hp) as (s' & Hrun & Hp' & Hh & Htr);
        [now rewrite <- app_assoc | now rewrite <- app_assoc | exact Hlive' |].
      exists s'. rewrite Hrun.
      rewrite filter_cons_False by congruence.
      rewrite filter_cons_True by exact Ht.
      split; [reflexivity |]. rewrite Hp', <- app_assoc. auto.
    + assert (Ht : removal_target (heap s) idx o = true)
        by (unfold removal_target; rewrite Hout, Htest; reflexivity).
      rewrite Hp. run_m.
      match goal with
      | |- context [subscribe_collect idx n (o :: l) ?st] =>
          destruct (IH kept (o :: l) st
                      (set_outstanding_list p
                         (llist_remove o (outstanding_list p))))
            as (s' & Hrun & Hp' & Hh & Htr)
      end.
      * reflexivity.
      * destruct p; simpl in *. rewrite Hl. now apply llist_remove_middle.
      * apply NoDup_app in Hnd as (Hk & Hdisj & Hon).
        apply NoDup_cons in Hon as [_ Hn].
        apply NoDup_app. split; [exact Hk |]. split; [| exact Hn].
        intros a Ha Han. apply (Hdisj a Ha). now right.
      * exact Hlive'.
      * exists s'. simpl in Hrun, Hh, Htr. rewrite Hrun.
        rewrite filter_cons_True by exact Ht.
        rewrite filter_cons_False by congruence.
        rewrite reverse_cons, <- app_assoc.
        split; [reflexivity |]. rewrite Hp'. destruct p; simpl. auto.
Qed.

(** The second loop of [context_subscribe_cb], on distinct live requests:
    each is completed with [CA_SUCCESS], in list order. *)
Lemma subscribe_complete_spec (l : list addr) :
  ∀ s, NoDup l → (∀ a, a ∈ l → is_Some (heap s !! a)) →
       ∃ s', subscribe_complete l s = Ret tt s' ∧
             c_private s' = c_private s ∧
             (∀ a, heap s' !! a =
                   if decide (a ∈ l) then None else heap s !! a) ∧
             effects (trace s') =
               effects (trace s) ++ owed_completions (heap s) l CA_SUCCESS.
Proof.
  induction l as [| o rest IH]; intros s Hnd Hlive.
  - exists s. split; [reflexivity |]. split; [reflexivity |].
    split. { intros a. rewrite decide_False; [reflexivity | apply not_elem_of_nil]. }
    unfold owed_completions. simpl. now rewrite app_nil_r.
  - destruct (Hlive o) as [out Hout]; [left |].
    apply NoDup_cons in Hnd as [Hnotin Hnd].
    assert (Hstep : ∃ s1,
      (let* out := load o in
       let* _ := call_callback o out CA_SUCCESS in
       outstanding_free o) s = Ret tt s1 ∧
      c_private s1 = c_private s ∧ heap s1 = delete o (heap s) ∧
      effects (trace s1) = effects (trace s) ++ completion o out CA_SUCCESS).
    { unfold outstanding_free, call_callback, completion.
      run_m. rewrite Hout. run_m.
      destruct (o_callback out) as [cb |]; run_m; rewrite Hout; run_m;
        destruct (o_file out) as [f |]; run_m;
        destruct (o_stream out) as [st |]; run_m;
        (eexists; split; [reflexivity |]); simpl;
        effects_of_trace; auto. }
    destruct Hstep as (s1 & Hrun1 & Hp1 & Hh1 & Hc1).
    destruct (IH s1 Hnd) as (s' & Hrun & Hp' & Hh' & Hc').
    { intros a Ha. rewrite Hh1, lookup_delete_ne; [apply Hlive; now right |].
      intros ->. contradiction. }
    exists s'. split.
    { simpl. revert Hrun1. unfold bind.
      destruct (load o s) as [x sx | w sx]; [| discriminate].
      destruct (call_callback o x CA_SUCCESS sx) as [[] sy | w sy];
        [| discriminate].
      intros ->. exact Hrun. }
    split; [congruence |]. split.
    + intros a. rewrite Hh', Hh1.
      destruct (decide (a = o)) as [-> | Hne].
      * rewrite lookup_delete_eq. rewrite (decide_True (P := o ∈ o :: rest)) by left.
        now destruct (decide (o ∈ rest)).
      * rewrite lookup_delete_ne by congruence.
        destruct (decide (a ∈ rest)) as [Hin | Hnin].
        -- rewrite decide_True by now right. reflexivity.
        -- rewrite decide_False; [reflexivity |].
           intros H. apply elem_of_cons in H as [-> | H]; contradiction.
    + rewrite Hc', Hc1, Hh1, owed_completions_delete by exact Hnotin.
      rewrite <- app_assoc. f_equal. unfold owed_completions. csimpl.
      now rewrite Hout.
Qed.

(** The removal of sink input [idx], on a registry of distinct live
    requests. *)
Lemma sink_input_removed (idx : Z) (s : state) (p : private) :
  c_private s = Some p → registry_wf (heap s) (outstanding_list p) →
  ∃ s', context_subscribe_cb
          (Z.lor PA_SUBSCRIPTION_EVENT_SINK_INPUT PA_SUBSCRIPTION_EVENT_REMOVE)
          idx s = Ret tt s' ∧
        c_private s' = Some (set_outstanding_list p
          (filter (λ a, removal_target (heap s) idx a = false)
             (outstanding_list p))) ∧
        (∀ a, heap s' !! a =
              if decide (a ∈ outstanding_list p ∧
                         removal_target (heap s) idx a = true)
              then None else heap s !! a) ∧
        effects (trace s') =
          effects (trace s) ++
          owed_completions (heap s)
            (reverse (filter (λ a, removal_target (heap s) idx a = true)
                        (outstanding_list p)))
            CA_SUCCESS.
Proof.
  intros Hp [Hnd Hlive]. unfold context_subscribe_cb.
  rewrite decide_False by (intros H; now apply H).
  run_m. rewrite Hp.
  destruct (subscribe_collect_spec idx (outstanding_list p) [] [] s p Hp
              eq_refl Hnd Hlive) as (s1 & Hrun1 & Hp1 & Hh1 & Htr1).
  rewrite Hrun1. rewrite app_nil_r in *. simpl in Hp1.
  set (l := reverse (filter (λ a, removal_target (heap s) idx a = true)
                       (outstanding_list p))) in *.
  assert (Hin : ∀ a, a ∈ l ↔ a ∈ outstanding_list p ∧
                              removal_target (heap s) idx a = true).
  { intros a. unfold l. rewrite elem_of_reverse, list_elem_of_filter. tauto. }
  destruct (subscribe_complete_spec l s1) as (s' & Hrun & Hp' & Hh' & Hc').
  { unfold l. rewrite reverse_Permutation. now apply NoDup_filter. }
  { intros a Ha. rewrite Hh1. apply Hlive. now apply Hin. }
  exists s'. split; [exact Hrun |]. split; [congruence |]. split.
  - intros a. rewrite Hh', Hh1.
    destruct (decide (a ∈ l)) as [Ha | Ha].
    + rewrite decide_True by now apply Hin. reflexivity.
    + rewrite decide_False; [reflexivity |]. intros H. apply Ha. now apply Hin.
  - now rewrite Hc', Htr1, Hh1.
Qed.

(** X23.  When the server reports that sink input [idx] was removed,
    [context_subscribe_cb] completes the named-sample requests that play on
    it and no other: they leave the registry and the heap, and the other
    requests stay in their order.  The matching requests are completed one
    after the other, the one nearest the end of the registry first: the
    callback of each that has one is called once as [out->callback (c,
    out->id, CA_SUCCESS, out->userdata)] with the request's own function, id
    and user data, its sound file is closed and its stream disconnected.
    Nothing else is called, closed or disconnected. *)
Theorem context_subscribe_cb_completes (idx : Z) (s : state) (p : private) :
  c_private s = Some p → registry_wf (heap s) (outstanding_list p) →
  ∃ s', context_subscribe_cb
          (Z.lor PA_SUBSCRIPTION_EVENT_SINK_INPUT PA_SUBSCRIPTION_EVENT_REMOVE)
          idx s = Ret tt s' ∧
        c_private s' = Some (set_outstanding_list p
          (filter (λ a, removal_target (heap s) idx a = false)
             (outstanding_list p))) ∧
        (∀ a, heap s' !! a =
              if decide (a ∈ outstanding_list p ∧
                         removal_target (heap s) idx a = true)
              then None else heap s !! a) ∧
        effects (trace s') =
          effects (trace s) ++
          owed_completions (heap s)
            (reverse (filter (λ a, removal_target (heap s) idx a = true)
                        (outstanding_list p)))
            CA_SUCCESS.
Proof.
  exact (sink_input_removed idx s p).
Qed.

Lemma context_subscribe_cb_completes_witness :
  c_private Further.busy = Some Further.busy_private ∧
  registry_wf (heap Further.busy) (outstanding_list Further.busy_private) ∧
  ∃ s', context_subscribe_cb
          (Z.lor PA_SUBSCRIPTION_EVENT_SINK_INPUT PA_SUBSCRIPTION_EVENT_REMOVE)
          7 Further.busy = Ret tt s' ∧
        c_private s' = Some (set_outstanding_list Further.busy_private
          (filter (λ a, removal_target (heap Further.busy) 7 a = false)
             (outstanding_list Further.busy_private))) ∧
        (∀ a, heap s' !! a =
              if decide (a ∈ outstanding_list Further.busy_private ∧
                         removal_target (heap Further.busy) 7 a = true)
              then None else heap Further.busy !! a) ∧
        effects (trace s') =
          effects (trace Further.busy) ++
          owed_completions (heap Further.busy)
            (reverse (filter (λ a, removal_target (heap Further.busy) 7 a
                                   = true)
                        (outstanding_list Further.busy_private)))
            CA_SUCCESS.
Proof.
  split; [reflexivity |]. split; [exact busy_wf |].
  exact (context_subscribe_cb_completes 7 Further.busy Further.busy_private
           eq_refl busy_wf).
Defined.

(** X24.  The callbacks that PulseAudio calls ([stream_state_cb],
    [stream_drain_cb], [stream_write_cb], [context_state_cb] and
    [context_subscribe_cb]) unlink a request before they call its
    completion callback: none of them adds a callback call that finds its
    own request in the registry. *)
Theorem server_callbacks_unlink_first (pa : pulse) (s : state) (p : private) :
  c_private s = Some p → registry_wf (heap s) (outstanding_list p) →
  (∀ o st errno,
     count sees_itself_linked
       (trace (final_state (stream_state_cb pa o st errno s)))
     = count sees_itself_linked (trace s)) ∧
  (∀ o success errno,
     count sees_itself_linked
       (trace (final_state (stream_drain_cb pa o success errno s)))
     = count sees_itself_linked (trace s)) ∧
  (∀ o st bytes w,
     count sees_itself_linked
       (trace (final_state (stream_write_cb pa o st bytes w s)))
     = count sees_itself_linked (trace s)) ∧
  (∀ st errno,
     count sees_itself_linked
       (trace (final_state (context_state_cb pa st errno s)))
     = count sees_itself_linked (trace s)) ∧
  (∀ t idx,
     count sees_itself_linked
       (trace (final_state (context_subscribe_cb t idx s)))
     = count sees_itself_linked (trace s)).
Proof.
  intros Hp Hwf.
  split; [intros; apply stream_state_cb_unlinks_first |].
  split; [intros; apply stream_drain_cb_unlinks_first |].
  split; [intros; apply stream_write_cb_unlinks_first |].
  split; [intros; now apply (context_state_cb_unlinks_first pa _ _ s p) |].
  intros. apply context_subscribe_cb_unlinks_first.
Qed.

Lemma server_callbacks_unlink_first_witness :
  c_private Scenes.two_requests = Some Scenes.two_requests_private ∧
  registry_wf (heap Scenes.two_requests)
    (outstanding_list Scenes.two_requests_private) ∧
  (∀ o st errno,
     count sees_itself_linked
       (trace (final_state
                 (stream_state_cb Samples.friendly o st errno
                    Scenes.two_requests)))
     = count sees_itself_linked (trace Scenes.two_requests)) ∧
  (∀ o success errno,
     count sees_itself_linked
       (trace (final_state
                 (stream_drain_cb Samples.friendly o success errno
                    Scenes.two_requests)))
     = count sees_itself_linked (trace Scenes.two_requests)) ∧
  (∀ o st bytes w,
     count sees_itself_linked
       (trace (final_state
                 (stream_write_cb Samples.friendly o st bytes w
                    Scenes.two_requests)))
     = count sees_itself_linked (trace Scenes.two_requests)) ∧
  (∀ st errno,
     count sees_itself_linked
       (trace (final_state
                 (context_state_cb Samples.friendly st errno
                    Scenes.two_requests)))
     = count sees_itself_linked (trace Scenes.two_requests)) ∧
  (∀ t idx,
     count sees_itself_linked
       (trace (final_state (context_subscribe_cb t idx Scenes.two_requests)))
     = count sees_itself_linked (trace Scenes.two_requests)).
Proof.
  split; [reflexivity |]. split; [exact two_requests_wf |].
  exact (server_callbacks_unlink_first Samples.friendly Scenes.two_requests
           Scenes.two_requests_private eq_refl two_requests_wf).
Defined.

(** ** driver_open *)

(** The [driver_destroy] that [driver_open] runs on failure, on the private
    data it has built so far. *)
Lemma open_fail_closes (r : Z) (s : state) (p : private) :
  c_private s = Some p → outstanding_list p = [] →
  ∃ s', open_fail r s = Ret r s' ∧ c_private s' = None ∧
        heap s' = heap s ∧ callbacks (trace s') = callbacks (trace s).
Proof.
  intros Hp Hl. unfold open_fail, driver_destroy. run_m. rewrite Hp.
  destruct (mainloop p) as [ml |]; run_m; rewrite Hl; simpl; run_m;
    rewrite ?Hp, Hl; run_m;
    destruct (context p) as [ctx |]; run_m;
    (eexists; split; [reflexivity |]); simpl;
    repeat (rewrite callbacks_cons; simpl); rewrite ?app_nil_r; auto.
Qed.

Ltac open_failed :=
  match goal with
  | |- context [open_fail ?r ?st] =>
      let s1 := fresh "s1" in
      let Hrun := fresh "Hrun" in
      let Hp := fresh "Hp" in
      let Hh := fresh "Hh" in
      let Hc := fresh "Hc" in
      edestruct (open_fail_closes r st) as (s1 & Hrun & Hp & Hh & Hc);
      [reflexivity | reflexivity |];
      rewrite Hrun; simpl in Hh, Hc
  end.

Lemma open_wait_outcome (pa : pulse) (errno : Z) (states : list pa_context_state_t) :
  ∀ (s : state) (p : private) (r : Z) (s' : state),
    c_private s = Some p → outstanding_list p = [] →
    open_wait pa states errno s = Ret r s' →
    heap s' = heap s ∧ callbacks (trace s') = callbacks (trace s) ∧
    (c_private s' = None ∨ r = CA_SUCCESS ∧ s' = s).
Proof.
  induction states as [| st rest IH]; intros s p r s' Hp Hl; [discriminate |].
  destruct st; simpl; try (now apply (IH s p)).
  - intros [= <- <-]. auto.
  - unfold translate. run_m.
    destruct (translate_error pa errno) as [e |]; [| discriminate]. run_m.
    destruct (open_fail_closes e s p Hp Hl) as (s1 & Hrun & Hp1 & Hh & Hc).
    rewrite Hrun. intros [= <- <-]. auto.
  - discriminate.
Qed.

(** X25.  [driver_open] on a closed context is all or nothing: when it
    returns, either the context is closed again (no private data left
    behind), or the result is [CA_SUCCESS] and the private data holds the
    mutex, the main loop and the PulseAudio context, an empty registry and
    no subscription.  The heap is untouched and no callback is called. *)
Theorem driver_open_all_or_nothing (pa : pulse) (driver : option string)
    (a : open_answers) (s : state) (r : Z) (s' : state) :
  c_private s = None →
  driver_open pa Context driver a s = Ret r s' →
  heap s' = heap s ∧ callbacks (trace s') = callbacks (trace s) ∧
  (c_private s' = None ∨
   r = CA_SUCCESS ∧ trace s' = trace s ∧
   ∃ mx ml ctx, c_private s' = Some (opened mx ml ctx)).
Proof.
  intros Hp. unfold driver_open, translate.
  destruct (match driver with Some d => _ | None => _ end);
    [intros [= <- <-]; auto |].
  run_m. rewrite Hp.
  destruct (oa_private a); simpl; [| intros [= <- <-]; auto].
  run_m.
  destruct (oa_mutex a) as [mx |];
    [| open_failed; intros [= <- <-]; auto].
  run_m.
  destruct (oa_mainloop a) as [ml |];
    [| open_failed; intros [= <- <-]; auto].
  run_m.
  destruct (convert_items pa (c_props s) ∅) as [l |];
    [| open_failed; intros [= <- <-]; auto].
  destruct (oa_context a) as [ctx |];
    [| open_failed; intros [= <- <-]; auto].
  run_m.
  destruct (oa_connect a) as [errno |].
  { destruct (translate_error pa errno) as [e |]; [| discriminate]. run_m.
    open_failed. intros [= <- <-]. auto. }
  destruct (oa_start a); simpl;
    [| open_failed; intros [= <- <-]; auto].
  intros Hrun.
  eapply open_wait_outcome in Hrun as (Hh & Hc & Hres);
    [| reflexivity | reflexivity].
  simpl in Hh, Hc. split; [exact Hh |]. split; [exact Hc |].
  destruct Hres as [Hn | [-> ->]]; [now left |].
  right. split; [reflexivity |]. split; [reflexivity |].
  exists mx, ml, ctx. reflexivity.
Qed.

Lemma driver_open_all_or_nothing_witness :
  let run := driver_open Samples.friendly Context (Some "pulse")
               Further.answers Further.closed in
  c_private Further.closed = None ∧
  run = Ret CA_SUCCESS (final_state run) ∧
  heap (final_state run) = heap Further.closed ∧
  callbacks (trace (final_state run)) = callbacks (trace Further.closed) ∧
  (c_private (final_state run) = None ∨
   CA_SUCCESS = CA_SUCCESS ∧
   trace (final_state run) = trace Further.closed ∧
   ∃ mx ml ctx, c_private (final_state run) = Some (opened mx ml ctx)).
Proof.
  intros run.
  assert (Hrun : run = Ret CA_SUCCESS (final_state run))
    by (vm_compute; reflexivity).
  split; [reflexivity |]. split; [exact Hrun |].
  exact (driver_open_all_or_nothing Samples.friendly (Some "pulse")
           Further.answers Further.closed CA_SUCCESS (final_state run)
           eq_refl Hrun).
Defined.

Lemma open_wait_ready (pa : pulse) (errno : Z)
    (waiting rest : list pa_context_state_t) (s : state) :
  Forall still_connecting waiting →
  open_wait pa (waiting ++ PA_CONTEXT_READY :: rest) errno s
  = Ret CA_SUCCESS s.
Proof.
  induction 1 as [| st waiting (Hr & Hf & Ht) _ IH]; [reflexivity |].
  destruct st; try congruence; exact IH.
Qed.

(** X26.  [driver_open] succeeds when the driver name is unset or "pulse",
    the context is closed, the properties of the context convert, every
    allocation and call succeeds and the context becomes ready after any
    number of intermediate states: it returns [CA_SUCCESS] and leaves an
    open context with an empty registry; nothing else changes. *)
Theorem driver_open_succeeds (pa : pulse) (driver : option string)
    (a : open_answers) (s : state) (mx ml ctx : handle)
    (waiting rest : list pa_context_state_t) :
  c_private s = None →
  driver = None ∨ driver = Some "pulse" →
  Forall (λ kv, pa_proplist_key_valid pa kv.1 = true) (c_props s) →
  oa_private a = true → oa_mutex a = Some mx → oa_mainloop a = Some ml →
  oa_context a = Some ctx → oa_connect a = None → oa_start a = true →
  oa_states a = waiting ++ PA_CONTEXT_READY :: rest →
  Forall still_connecting waiting →
  ∃ s', driver_open pa Context driver a s = Ret CA_SUCCESS s' ∧
        c_private s' = Some (opened mx ml ctx) ∧
        context_open s' ∧ registry s' = [] ∧
        heap s' = heap s ∧ trace s' = trace s.
Proof.
  intros Hp Hd Hvalid Hpriv Hmx Hml Hctx Hconn Hstart Hstates Hwait.
  unfold driver_open.
  assert (Hdrv : match driver with
                 | Some d => negb (bool_decide (d = "pulse"))
                 | None => false
                 end = false) by (destruct Hd as [-> | ->]; reflexivity).
  rewrite Hdrv. run_m. rewrite Hp, Hpriv. simpl. run_m.
  rewrite Hmx. run_m. rewrite Hml. run_m.
  destruct (convert_items_valid pa (c_props s) ∅ Hvalid) as [l Hl].
  unfold convert_proplist. rewrite Hl, Hctx. run_m.
  rewrite Hconn, Hstart. simpl. rewrite Hstates, open_wait_ready by exact Hwait.
  eexists. split; [reflexivity |]. simpl. split; [reflexivity |].
  split; [| auto].
  eexists. split; [reflexivity |]. split; discriminate.
Qed.

Lemma driver_open_succeeds_witness :
  c_private Further.closed = None ∧
  (Some "pulse" = None ∨ Some "pulse" = Some "pulse") ∧
  Forall (λ kv, pa_proplist_key_valid Samples.friendly kv.1 = true)
    (c_props Further.closed) ∧
  oa_private Further.answers = true ∧
  oa_mutex Further.answers = Some 3%positive ∧
  oa_mainloop Further.answers = Some 1%positive ∧
  oa_context Further.answers = Some 2%positive ∧
  oa_connect Further.answers = None ∧ oa_start Further.answers = true ∧
  oa_states Further.answers
  = [PA_CONTEXT_CONNECTING; PA_CONTEXT_AUTHORIZING; PA_CONTEXT_SETTING_NAME]
    ++ PA_CONTEXT_READY :: [] ∧
  Forall still_connecting
    [PA_CONTEXT_CONNECTING; PA_CONTEXT_AUTHORIZING; PA_CONTEXT_SETTING_NAME] ∧
  ∃ s', driver_open Samples.friendly Context (Some "pulse") Further.answers
          Further.closed = Ret CA_SUCCESS s' ∧
        c_private s' = Some (opened 3%positive 1%positive 2%positive) ∧
        context_open s' ∧ registry s' = [] ∧
        heap s' = heap Further.closed ∧ trace s' = trace Further.closed.
Proof.
  assert (Hd : Some "pulse" = None ∨ Some "pulse" = Some "pulse")
    by now right.
  assert (Hvalid : Forall (λ kv, pa_proplist_key_valid Samples.friendly kv.1
                                 = true) (c_props Further.closed))
    by (repeat constructor).
  assert (Hwait : Forall still_connecting
                    [PA_CONTEXT_CONNECTING; PA_CONTEXT_AUTHORIZING;
                     PA_CONTEXT_SETTING_NAME])
    by (repeat constructor; discriminate).
  split; [reflexivity |]. split; [exact Hd |]. split; [exact Hvalid |].
  split; [reflexivity |]. split; [reflexivity |]. split; [reflexivity |].
  split; [reflexivity |]. split; [reflexivity |]. split; [reflexivity |].
  split; [reflexivity |]. split; [exact Hwait |].
  exact (driver_open_succeeds Samples.friendly (Some "pulse") Further.answers
           Further.closed 3%positive 1%positive 2%positive
           [PA_CONTEXT_CONNECTING; PA_CONTEXT_AUTHORIZING;
            PA_CONTEXT_SETTING_NAME] []
           eq_refl Hd Hvalid eq_refl eq_refl eq_refl eq_refl eq_refl eq_refl
           eq_refl Hwait).
Defined.

(** X27.  When [pa_context_connect] fails, [driver_open] returns the
    translation of the server's error code and closes the context again
    (main loop stopped, context disconnected, private data gone).  For an
    error code above [PA_ERR_TOOLARGE] that the table has room for, the
    translation is [CA_SUCCESS]: [driver_open] then reports success although
    the context is closed. *)
Theorem driver_open_connect_failure (pa : pulse) (driver : option string)
    (a : open_answers) (s : state) (mx ml ctx : handle) (errno : Z) :
  c_private s = None →
  driver = None ∨ driver = Some "pulse" →
  Forall (λ kv, pa_proplist_key_valid pa kv.1 = true) (c_props s) →
  oa_private a = true → oa_mutex a = Some mx → oa_mainloop a = Some ml →
  oa_context a = Some ctx → oa_connect a = Some errno → 0 ≤ errno →
  ∃ r s', driver_open pa Context driver a s = Ret r s' ∧
          translate_error pa errno = Some r ∧
          c_private s' = None ∧ heap s' = heap s ∧
          trace s' = EvContextDisconnect :: EvMainloopStop :: trace s ∧
          (PA_ERR_TOOLARGE < errno < PA_ERR_MAX pa → r = CA_SUCCESS).
Proof.
  intros Hp Hd Hvalid Hpriv Hmx Hml Hctx Hconn Herrno.
  destruct (translate_error_total pa errno Herrno) as [r Hr].
  unfold driver_open.
  assert (Hdrv : match driver with
                 | Some d => negb (bool_decide (d = "pulse"))
                 | None => false
                 end = false) by (destruct Hd as [-> | ->]; reflexivity).
  rewrite Hdrv. run_m. rewrite Hp, Hpriv. simpl. run_m.
  rewrite Hmx. run_m. rewrite Hml. run_m.
  destruct (convert_items_valid pa (c_props s) ∅ Hvalid) as [l Hl].
  unfold convert_proplist. rewrite Hl, Hctx. run_m.
  rewrite Hconn. unfold translate. run_m. rewrite Hr. run_m.
  unfold open_fail, driver_destroy. run_m.
  exists r. eexists. split; [reflexivity |]. simpl.
  split; [reflexivity |]. split; [reflexivity |]. split; [reflexivity |].
  split; [reflexivity |].
  intros Hgap. apply translate_error_gap in Hgap. congruence.
Qed.

Lemma driver_open_connect_failure_witness :
  c_private Further.closed = None ∧
  (Some "pulse" = None ∨ Some "pulse" = Some "pulse") ∧
  Forall (λ kv, pa_proplist_key_valid Samples.friendly kv.1 = true)
    (c_props Further.closed) ∧
  oa_private Further.refused = true ∧
  oa_mutex Further.refused = Some 3%positive ∧
  oa_mainloop Further.refused = Some 1%positive ∧
  oa_context Further.refused = Some 2%positive ∧
  oa_connect Further.refused = Some 19 ∧ 0 ≤ 19 ∧
  ∃ r s', driver_open Samples.friendly Context (Some "pulse")
            Further.refused Further.closed = Ret r s' ∧
          translate_error Samples.friendly 19 = Some r ∧
          c_private s' = None ∧ heap s' = heap Further.closed ∧
          trace s' = EvContextDisconnect :: EvMainloopStop
                       :: trace Further.closed ∧
          (PA_ERR_TOOLARGE < 19 < PA_ERR_MAX Samples.friendly →
           r = CA_SUCCESS).
Proof.
  assert (Hd : Some "pulse" = None ∨ Some "pulse" = Some "pulse")
    by now right.
  assert (Hvalid : Forall (λ kv, pa_proplist_key_valid Samples.friendly kv.1
                                 = true) (c_props Further.closed))
    by (repeat constructor).
  assert (Herrno : 0 ≤ 19) by lia.
  split; [reflexivity |]. split; [exact Hd |]. split; [exact Hvalid |].
  split; [reflexivity |]. split; [reflexivity |]. split; [reflexivity |].
  split; [reflexivity |]. split; [reflexivity |]. split; [exact Herrno |].
  exact (driver_open_connect_failure Samples.friendly (Some "pulse")
           Further.refused Further.closed 3%positive 1%positive 2%positive 19
           eq_refl Hd Hvalid eq_refl eq_refl eq_refl eq_refl eq_refl Herrno).
Defined.

(** X28.  Opening and then destroying a context is a round trip: after a
    successful [driver_open], [driver_destroy] returns [CA_SUCCESS], stops
    the main loop, disconnects the context and leaves the context closed,
    with the heap as before the open and no callback called. *)
Theorem driver_open_then_destroy (pa : pulse) (driver : option string)
    (a : open_answers) (s : state) (mx ml ctx : handle)
    (waiting rest : list pa_context_state_t) :
  c_private s = None →
  driver = None ∨ driver = Some "pulse" →
  Forall (λ kv, pa_proplist_key_valid pa kv.1 = true) (c_props s) →
  oa_private a = true → oa_mutex a = Some mx → oa_mainloop a = Some ml →
  oa_context a = Some ctx → oa_connect a = None → oa_start a = true →
  oa_states a = waiting ++ PA_CONTEXT_READY :: rest →
  Forall still_connecting waiting →
  ∃ s', (let* r := driver_open pa Context driver a in
         if decide (r = CA_SUCCESS) then driver_destroy Context
         else ret r) s = Ret CA_SUCCESS s' ∧
        c_private s' = None ∧ heap s' = heap s ∧
        calls s' = calls s ∧
        trace s' = EvContextDisconnect :: EvMainloopStop :: trace s.
Proof.
  intros Hp Hd Hvalid Hpriv Hmx Hml Hctx Hconn Hstart Hstates Hwait.
  unfold driver_open.
  assert (Hdrv : match driver with
                 | Some d => negb (bool_decide (d = "pulse"))
                 | None => false
                 end = false) by (destruct Hd as [-> | ->]; reflexivity).
  rewrite Hdrv. run_m. rewrite Hp, Hpriv. simpl. run_m.
  rewrite Hmx. run_m. rewrite Hml. run_m.
  destruct (convert_items_valid pa (c_props s) ∅ Hvalid) as [l Hl].
  unfold convert_proplist. rewrite Hl, Hctx. run_m.
  rewrite Hconn, Hstart. simpl. rewrite Hstates, open_wait_ready by exact Hwait.
  simpl. unfold driver_destroy. run_m.
  eexists. split; [reflexivity |]. simpl. unfold calls. simpl.
  repeat (rewrite callbacks_cons; simpl). rewrite ?app_nil_r. auto.
Qed.

Lemma driver_open_then_destroy_witness :
  c_private Further.closed = None ∧
  (Some "pulse" = None ∨ Some "pulse" = Some "pulse") ∧
  Forall (λ kv, pa_proplist_key_valid Samples.friendly kv.1 = true)
    (c_props Further.closed) ∧
  oa_private Further.answers = true ∧
  oa_mutex Further.answers = Some 3%positive ∧
  oa_mainloop Further.answers = Some 1%positive ∧
  oa_context Further.answers = Some 2%positive ∧
  oa_connect Further.answers = None ∧ oa_start Further.answers = true ∧
  oa_states Further.answers
  = [PA_CONTEXT_CONNECTING; PA_CONTEXT_AUTHORIZING; PA_CONTEXT_SETTING_NAME]
    ++ PA_CONTEXT_READY :: [] ∧
  Forall still_connecting
    [PA_CONTEXT_CONNECTING; PA_CONTEXT_AUTHORIZING; PA_CONTEXT_SETTING_NAME] ∧
  ∃ s', (let* r := driver_open Samples.friendly Context (Some "pulse")
                     Further.answers in
         if decide (r = CA_SUCCESS) then driver_destroy Context
         else ret r) Further.closed = Ret CA_SUCCESS s' ∧
        c_private s' = None ∧ heap s' = heap Further.closed ∧
        calls s' = calls Further.closed ∧
        trace s' = EvContextDisconnect :: EvMainloopStop
                     :: trace Further.closed.
Proof.
  assert (Hd : Some "pulse" = None ∨ Some "pulse" = Some "pulse")
    by now right.
  assert (Hvalid : Forall (λ kv, pa_proplist_key_valid Samples.friendly kv.1
                                 = true) (c_props Further.closed))
    by (repeat constructor).
  assert (Hwait : Forall still_connecting
                    [PA_CONTEXT_CONNECTING; PA_CONTEXT_AUTHORIZING;
                     PA_CONTEXT_SETTING_NAME])
    by (repeat constructor; discriminate).
  split; [reflexivity |]. split; [exact Hd |]. split; [exact Hvalid |].
  split; [reflexivity |]. split; [reflexivity |]. split; [reflexivity |].
  split; [reflexivity |]. split; [reflexivity |]. split; [reflexivity |].
  split; [reflexivity |]. split; [exact Hwait |].
  exact (driver_open_then_destroy Samples.friendly (Some "pulse")
           Further.answers Further.closed 3%positive 1%positive 2%positive
           [PA_CONTEXT_CONNECTING; PA_CONTEXT_AUTHORIZING;
            PA_CONTEXT_SETTING_NAME] []
           eq_refl Hd Hvalid eq_refl eq_refl eq_refl eq_refl eq_refl eq_refl
           eq_refl Hwait).
Defined.

(** ** driver_play when the sample plays *)

(** The run of [driver_play] when the server plays the sample at the first
    request and [driver_play] has no subscription request to send. *)
Lemma driver_play_sample_played (pa : pulse) (id : Z) (items : ca_proplist)
    (cb : option fnptr) (userdata : option Z) (s : state) (p : private)
    (idx : Z) :
  c_private s = Some p → mainloop p ≠ None → context p ≠ None →
  (cb = None → userdata = None) →
  properties_accepted pa items → subscription_settled cb s →
  sample_plays_on pa idx →
  ∃ s', driver_play pa Context id (Some items) cb userdata s
        = Ret CA_SUCCESS s' ∧
        effects (trace s') = effects (trace s) ∧
        play_attempts (trace s') = S (play_attempts (trace s)) ∧
        cache_uploads (trace s') = cache_uploads (trace s) ∧
        match cb with
        | Some _ =>
            c_private s' = Some (set_outstanding_list p
                                   (next_addr s :: outstanding_list p)) ∧
            heap s' = <[next_addr s := playing_request id idx cb userdata]>
                        (heap s)
        | None =>
            c_private s' = Some p ∧ heap s' = delete (next_addr s) (heap s)
        end.
Proof.
  intros Hp Hm Hc Hud (l & name & v & cc & Hconv & Hname & Hvol & Hcc)
         Hsub [Hidx Hplay].
  assert (Hargs : bool_decide (userdata ≠ None) && bool_decide (cb = None)
                  = false).
  { destruct cb as [f |]; [now rewrite andb_false_r |].
    rewrite (Hud eq_refl). reflexivity. }
  unfold driver_play. rewrite Hargs. run_m. rewrite Hp.
  destruct (decide (mainloop p = None)); [contradiction |].
  destruct (decide (context p = None)); [contradiction |].
  unfold ca_new0_outstanding. exec.
  unfold play_prepare. rewrite Hconv, Hname, Hvol, Hcc. exec.
  assert (Hsubscribe :
            ∀ st, c_private st = Some p →
                  match cb with
                  | Some _ => subscribe pa Context
                  | None => ret CA_SUCCESS
                  end st = Ret CA_SUCCESS st).
  { intros st Hst. destruct cb as [f |]; [| reflexivity].
    destruct Hsub as [[=] | (p' & Hp' & Hsubscribed)].
    apply (subscribe_again pa st p); try assumption. congruence. }
  rewrite Hsubscribe by exact Hp. exec.
  change (Z.to_nat play_tries) with 3%nat.
  cbn [play_loop]. exec.
  match goal with
  | |- context [pa_context_play_sample_with_proplist pa ?tr] =>
      destruct (Hplay tr) as [errno ->]
  end.
  unfold play_sample_cb.
  rewrite (decide_True (P := idx ≠ PA_INVALID_INDEX)) by assumption.
  exec. unfold play_finish. exec.
  destruct cb as [f |]; simpl; exec.
  - rewrite Hp. exec. eexists. split; [reflexivity |]. simpl.
    effects_of_trace.
    split; [reflexivity |]. split; [count_events |]. split; [count_events |].
    split; [reflexivity |].
    rewrite !insert_insert_eq. reflexivity.
  - unfold outstanding_free. exec. eexists. split; [reflexivity |]. simpl.
    effects_of_trace.
    split; [reflexivity |]. split; [count_events |]. split; [count_events |].
    split; [now destruct p |].
    rewrite !delete_insert_eq. reflexivity.
Qed.

(** X29.  When [driver_play] has no subscription request to send (it is
    given no callback, or the context is subscribed already) and the server
    plays the named sample at the first request, [driver_play] returns
    [CA_SUCCESS] after that one request, without an upload, and calls,
    closes and disconnects nothing.  With a callback the request is kept: it
    is put at the head of the registry, marked for clean-up, with the id,
    the callback and the user data of the call and the sink input the
    server named.  Without a callback the request is released and the
    registry is unchanged. *)
Theorem driver_play_registers_played_sample (pa : pulse) (id : Z)
    (items : ca_proplist) (cb : option fnptr) (userdata : option Z)
    (s : state) (p : private) (idx : Z) :
  c_private s = Some p → mainloop p ≠ None → context p ≠ None →
  (cb = None → userdata = None) →
  properties_accepted pa items → subscription_settled cb s →
  sample_plays_on pa idx →
  ∃ s', driver_play pa Context id (Some items) cb userdata s
        = Ret CA_SUCCESS s' ∧
        effects (trace s') = effects (trace s) ∧
        play_attempts (trace s') = S (play_attempts (trace s)) ∧
        cache_uploads (trace s') = cache_uploads (trace s) ∧
        match cb with
        | Some _ =>
            c_private s' = Some (set_outstanding_list p
                                   (next_addr s :: outstanding_list p)) ∧
            heap s' = <[next_addr s := playing_request id idx cb userdata]>
                        (heap s)
        | None =>
            c_private s' = Some p ∧ heap s' = delete (next_addr s) (heap s)
        end.
Proof.
  exact (driver_play_sample_played pa id items cb userdata s p idx).
Qed.

Lemma driver_play_registers_played_sample_witness :
  c_private Scenes.ready = Some (Samples.open_private true []) ∧
  mainloop (Samples.open_private true []) ≠ None ∧
  context (Samples.open_private true []) ≠ None ∧
  (Some 4%positive = None → Some 11 = None) ∧
  properties_accepted Samples.friendly Scenes.bell ∧
  subscription_settled (Some 4%positive) Scenes.ready ∧
  sample_plays_on Samples.friendly 7 ∧
  ∃ s', driver_play Samples.friendly Context 1 (Some Scenes.bell)
          (Some 4%positive) (Some 11) Scenes.ready = Ret CA_SUCCESS s' ∧
        effects (trace s') = effects (trace Scenes.ready) ∧
        play_attempts (trace s') = S (play_attempts (trace Scenes.ready)) ∧
        cache_uploads (trace s') = cache_uploads (trace Scenes.ready) ∧
        c_private s'
        = Some (set_outstanding_list (Samples.open_private true [])
                  (next_addr Scenes.ready
                   :: outstanding_list (Samples.open_private true []))) ∧
        heap s' = <[next_addr Scenes.ready :=
                      playing_request 1 7 (Some 4%positive) (Some 11)]>
                    (heap Scenes.ready).
Proof.
  assert (Hm : mainloop (Samples.open_private true []) ≠ None)
    by discriminate.
  assert (Hc : context (Samples.open_private true []) ≠ None)
    by discriminate.
  assert (Hud : Some 4%positive = None → Some 11 = None) by discriminate.
  assert (Hacc : properties_accepted Samples.friendly Scenes.bell).
  { eexists _, "bell", PA_VOLUME_NORM, CA_CACHE_CONTROL_NEVER.
    split; [reflexivity |]. repeat split; vm_compute; reflexivity. }
  assert (Hsub : subscription_settled (Some 4%positive) Scenes.ready).
  { right. eexists. split; reflexivity. }
  assert (Hplays : sample_plays_on Samples.friendly 7).
  { split; [discriminate |]. intros tr. exists PA_OK. reflexivity. }
  split; [reflexivity |]. split; [exact Hm |]. split; [exact Hc |].
  split; [exact Hud |]. split; [exact Hacc |]. split; [exact Hsub |].
  split; [exact Hplays |].
  exact (driver_play_registers_played_sample Samples.friendly 1 Scenes.bell
           (Some 4%positive) (Some 11) Scenes.ready
           (Samples.open_private true []) 7
           eq_refl Hm Hc Hud Hacc Hsub Hplays).
Defined.

Lemma filter_none {A} (P : A → Prop) `{∀ x, Decision (P x)} (l : list A) :
  (∀ a, a ∈ l → ¬ P a) → filter P l = [].
Proof.
  induction l as [| a l IH]; intros Hl; [reflexivity |].
  rewrite filter_cons_False by (apply Hl; left).
  apply IH. intros b Hb. apply Hl. now right.
Qed.

Lemma filter_all {A} (P : A → Prop) `{∀ x, Decision (P x)} (l : list A) :
  (∀ a, a ∈ l → P a) → filter P l = l.
Proof.
  induction l as [| a l IH]; intros Hl; [reflexivity |].
  rewrite filter_cons_True by (apply Hl; left).
  f_equal. apply IH. intros b Hb. apply Hl. now right.
Qed.

(** X30.  Playing and completing is a round trip: on a subscribed context
    with a fresh allocator, a [driver_play] with callback [f] and user data
    [userdata] whose sample plays on sink input [idx], followed by the
    server's report that [idx] was removed, leaves the registry and the
    heap as they were, and the one thing it does outside the driver besides
    the play request is the call [f (c, id, CA_SUCCESS, userdata)] for the
    new request; no other request (none of which plays on [idx]) is
    touched. *)
Theorem play_then_removal_calls_back (pa : pulse) (id : Z)
    (items : ca_proplist) (f : fnptr) (userdata : option Z)
    (s : state) (p : private) (idx : Z) :
  c_private s = Some p → mainloop p ≠ None → context p ≠ None →
  subscribed p = true →
  registry_wf (heap s) (outstanding_list p) → heap s !! next_addr s = None →
  (∀ a, a ∈ outstanding_list p → removal_target (heap s) idx a = false) →
  properties_accepted pa items → sample_plays_on pa idx →
  ∃ s', (let* _ := driver_play pa Context id (Some items) (Some f) userdata in
         context_subscribe_cb
           (Z.lor PA_SUBSCRIPTION_EVENT_SINK_INPUT
                  PA_SUBSCRIPTION_EVENT_REMOVE) idx) s = Ret tt s' ∧
        c_private s' = Some p ∧ heap s' = heap s ∧
        effects (trace s') =
          effects (trace s) ++ [Called f id CA_SUCCESS userdata (next_addr s)].
Proof.
  intros Hp Hm Hc Hsub [Hnd Hlive] Hfresh Hothers Hacc Hplays.
  destruct (driver_play_sample_played pa id items (Some f) userdata s p idx)
    as (s1 & Hrun1 & Hc1 & _ & _ & Hp1 & Hh1); try assumption.
  { discriminate. }
  { right. eauto. }
  set (o := next_addr s) in *.
  assert (Ho : o ∉ outstanding_list p).
  { intros Hin. destruct (Hlive o Hin) as [x Hx]. congruence. }
  assert (Htarget : removal_target (heap s1) idx o = true).
  { unfold removal_target. rewrite Hh1, lookup_insert_eq. simpl.
    rewrite !bool_decide_eq_false_2 by (intros H; now apply H). reflexivity. }
  assert (Hrest : ∀ a, a ∈ outstanding_list p →
                       removal_target (heap s1) idx a = false).
  { intros a Ha. unfold removal_target. rewrite Hh1, lookup_insert_ne
      by (intros ->; contradiction). now apply Hothers. }
  destruct (sink_input_removed idx s1 _ Hp1) as (s' & Hrun & Hp' & Hh' & Hc').
  { destruct p; simpl in *. split; [now apply NoDup_cons |].
    intros a Ha. rewrite Hh1. apply elem_of_cons in Ha as [-> | Ha].
    - rewrite lookup_insert_eq. eauto.
    - rewrite lookup_insert_ne by (intros ->; contradiction). now apply Hlive. }
  exists s'. split; [unfold bind; rewrite Hrun1; exact Hrun |].
  assert (Hlist : outstanding_list
                    (set_outstanding_list p (o :: outstanding_list p))
                  = o :: outstanding_list p) by now destruct p.
  rewrite Hlist in *.
  rewrite filter_cons_False in Hp' by congruence.
  rewrite filter_all in Hp' by exact Hrest.
  rewrite filter_cons_True in Hc' by exact Htarget.
  rewrite filter_none in Hc' by (intros a Ha; rewrite Hrest by exact Ha; discriminate).
  split; [rewrite Hp'; now destruct p |]. split.
  - apply map_eq. intros a. rewrite Hh'.
    destruct (decide (a = o)) as [-> | Hne].
    + rewrite decide_True by (split; [left | exact Htarget]). now rewrite Hfresh.
    + rewrite decide_False.
      * rewrite Hh1. now rewrite lookup_insert_ne by congruence.
      * intros [Ha Ht]. apply elem_of_cons in Ha as [-> | Ha]; [congruence |].
        rewrite Hrest in Ht by exact Ha. discriminate.
  - rewrite Hc', Hc1. f_equal. unfold owed_completions. csimpl.
    rewrite Hh1, lookup_insert_eq. reflexivity.
Qed.

Lemma play_then_removal_calls_back_witness :
  c_private Further.busy = Some Further.busy_private ∧
  mainloop Further.busy_private ≠ None ∧
  context Further.busy_private ≠ None ∧
  subscribed Further.busy_private = true ∧
  registry_wf (heap Further.busy) (outstanding_list Further.busy_private) ∧
  heap Further.busy !! next_addr Further.busy = None ∧
  (∀ a, a ∈ outstanding_list Further.busy_private →
        removal_target (heap Further.busy) 3 a = false) ∧
  properties_accepted (Samples.with_play_sample (λ _, PlayDone 3 PA_OK)
                         Samples.friendly) Scenes.bell ∧
  sample_plays_on (Samples.with_play_sample (λ _, PlayDone 3 PA_OK)
                     Samples.friendly) 3 ∧
  ∃ s', (let* _ := driver_play
                     (Samples.with_play_sample (λ _, PlayDone 3 PA_OK)
                        Samples.friendly)
                     Context 3 (Some Scenes.bell) (Some 4%positive)
                     (Some 30) in
         context_subscribe_cb
           (Z.lor PA_SUBSCRIPTION_EVENT_SINK_INPUT
                  PA_SUBSCRIPTION_EVENT_REMOVE) 3) Further.busy
        = Ret tt s' ∧
        c_private s' = Some Further.busy_private ∧
        heap s' = heap Further.busy ∧
        effects (trace s')
        = effects (trace Further.busy)
          ++ [Called 4%positive 3 CA_SUCCESS (Some 30)
                (next_addr Further.busy)].
Proof.
  assert (Hm : mainloop Further.busy_private ≠ None) by discriminate.
  assert (Hc : context Further.busy_private ≠ None) by discriminate.
  assert (Hfresh : heap Further.busy !! next_addr Further.busy = None)
    by (vm_compute; reflexivity).
  assert (Hothers : ∀ a, a ∈ outstanding_list Further.busy_private →
                         removal_target (heap Further.busy) 3 a = false).
  { intros a Ha. simpl in Ha.
    repeat (apply elem_of_cons in Ha as [-> | Ha]; [vm_compute; reflexivity |]).
    now apply not_elem_of_nil in Ha. }
  assert (Hacc : properties_accepted
                   (Samples.with_play_sample (λ _, PlayDone 3 PA_OK)
                      Samples.friendly) Scenes.bell).
  { eexists _, "bell", PA_VOLUME_NORM, CA_CACHE_CONTROL_NEVER.
    split; [reflexivity |]. repeat split; vm_compute; reflexivity. }
  assert (Hplays : sample_plays_on
                     (Samples.with_play_sample (λ _, PlayDone 3 PA_OK)
                        Samples.friendly) 3).
  { split; [discriminate |]. intros tr. exists PA_OK. reflexivity. }
  split; [reflexivity |]. split; [exact Hm |]. split; [exact Hc |].
  split; [reflexivity |]. split; [exact busy_wf |].
  split; [exact Hfresh |]. split; [exact Hothers |]. split; [exact Hacc |].
  split; [exact Hplays |].
  exact (play_then_removal_calls_back
           (Samples.with_play_sample (λ _, PlayDone 3 PA_OK) Samples.friendly)
           3 Scenes.bell 4%positive (Some 30) Further.busy
           Further.busy_private 3
           eq_refl Hm Hc eq_refl busy_wf Hfresh Hothers Hacc Hplays).
Defined.
